(** * The multi-item composition engine ([src/multi-items/multi-renderer.jsx])

    A shallow embedding of the [MultiRenderer] component: the typed
    tree / shape / mapper abstraction it is built on, the cached tree of
    renderer cells, cross-renderer widget discovery, score aggregation and
    the serialized-state fan-out / fan-in.

    JavaScript objects that are shared and mutated (the renderer cells, the
    arrays handed to [_annotateRendererArray]) live in explicit heaps and are
    named by their address; code that threads mutable locals or can throw is
    written in a small state-and-exception monad. *)

From Stdlib Require Import ZArith List String Bool Lia Permutation.
From Stdlib Require QArith.
From stdpp Require Import base list.
Import ListNotations.

Set Implicit Arguments.
Set Warnings "-register-all".
Unset Strict Implicit.
Set Asymmetric Patterns.

(* ===================================================================== *)
(** ** JavaScript values, errors and the effect monad *)
(* ===================================================================== *)

(** An object reference: the address of the object in its heap.  Reference
    equality ([===] on objects) is equality of addresses. *)
Abbreviation addr := nat.

(** A path in a tree: the array indices from the root to a node. *)
Definition Path := list nat.

(** Plain JavaScript data (what [SerializedState = any] ranges over). *)
Inductive JSValue : Type :=
| JUndefined
| JNull
| JBool (b : bool)
| JNumber (n : Z)
| JString (s : string)
| JObject (fields : list (string * JSValue))
| JArray (elements : list JSValue).

(** JavaScript truthiness, as tested by [if (!state)]. *)
Definition truthy (v : JSValue) : bool :=
  match v with
  | JUndefined | JNull => false
  | JBool b => b
  | JNumber n => negb (n =? 0)%Z
  | JString s => negb (String.eqb s EmptyString)
  | JObject _ | JArray _ => true
  end.

(** The values the engine can see thrown. *)
Inductive Error : Type :=
| ShapeMismatch (path : Path)
| TypeError (message : string).

(** The outcome of a call: it returns a value or throws. *)
Inductive result (A : Type) : Type :=
| Ok (a : A)
| Throw (e : Error).
Arguments Ok {A} a.
Arguments Throw {A} e.

(** Computations over a mutable state [S] that may throw.  Writes made
    before a throw stay visible to the handler, as in JavaScript. *)
Definition M (S A : Type) : Type := S -> result A * S.

Definition ret {S A : Type} (a : A) : M S A := fun s => (Ok a, s).

Definition throw {S A : Type} (e : Error) : M S A := fun s => (Throw e, s).

Definition bind {S A B : Type} (c : M S A) (k : A -> M S B) : M S B :=
  fun s =>
    match c s with
    | (Ok a, s') => k a s'
    | (Throw e, s') => (Throw e, s')
    end.

Definition modify {S : Type} (f : S -> S) : M S unit := fun s => (Ok tt, f s).

(** [try { c } catch (e) { handler e }] *)
Definition try_catch {S A : Type} (c : M S A) (handler : Error -> M S A) : M S A :=
  fun s =>
    match c s with
    | (Ok a, s') => (Ok a, s')
    | (Throw e, s') => handler e s'
    end.

Declare Scope js_scope.
Delimit Scope js_scope with js.
Notation "x <- c ;; k" := (bind c (fun x => k))
  (at level 100, c at next level, right associativity) : js_scope.
Notation "c ;;; k" := (bind c (fun _ => k))
  (at level 100, right associativity) : js_scope.
Open Scope js_scope.

(** [Array.prototype.reduce] called without an initial value: the first
    element seeds the left fold, and an empty array is a [TypeError]. *)
Definition reduce {A : Type} (f : A -> A -> A) (l : list A) : result A :=
  match l with
  | [] => Throw (TypeError "Reduce of empty array with no initial value")
  | x :: rest => Ok (fold_left f rest x)
  end.

(* ===================================================================== *)
(** ** Shapes, trees and mappers ([shape-types.js], [tree-types.js], [trees.js]) *)
(* ===================================================================== *)

(** Modelled from the spec: the shapes of [./shape-types.js], of which the
    source only imports the types.  A shape says, at each position, whether
    the node is a content leaf, a hint leaf, a tags leaf, or an array of a
    sub-shape. *)
Inductive Shape : Type :=
| ContentShape
| HintShape
| TagsShape
| ArrayShape (elementShape : Shape).

(** [shape.elementShape.type === "hint"] *)
Definition is_hint_shape (s : Shape) : bool :=
  match s with HintShape => true | _ => false end.

(** Modelled from the spec: [Tree<C, H, T>] of [./tree-types.js], of which
    the source only imports the type.  A node is a content, hint or tags
    leaf carrying a value, or an array of trees.  A JavaScript array is an
    object: besides its elements it can carry extra properties, and the
    engine attaches one ([firstN]) to some arrays of the renderer tree;
    [extra] is that property when present. *)
Inductive Tree (C H T X : Type) : Type :=
| Content (c : C)
| Hint (h : H)
| Tags (t : T)
| Array (extra : option X) (children : list (Tree C H T X)).
Arguments Content {C H T X} c.
Arguments Hint {C H T X} h.
Arguments Tags {C H T X} t.
Arguments Array {C H T X} extra children.

Section TreeInduction.
Context {C H T X : Type}.
Variable P : Tree C H T X -> Prop.
Hypothesis HContent : forall c, P (Content c).
Hypothesis HHint : forall h, P (Hint h).
Hypothesis HTags : forall t, P (Tags t).
Hypothesis HArray : forall x children, Forall P children -> P (Array x children).

(** Induction with the hypothesis available for every child of an array. *)
Fixpoint Tree_rose_ind (t : Tree C H T X) : P t :=
  match t with
  | Content c => HContent c
  | Hint h => HHint h
  | Tags v => HTags v
  | Array x children =>
      HArray x
        ((fix all (l : list (Tree C H T X)) : Forall P l :=
            match l with
            | [] => @List.Forall_nil _ P
            | a :: r => @List.Forall_cons _ P a r (Tree_rose_ind a) (all r)
            end) children)
  end.
End TreeInduction.

(** The leaf transforms of a mapper.  Each is called with the node, the
    shape at that node and the path to it. *)
Record LeafMappers (S C C' H H' T T' : Type) : Type := {
  contentMapper : C -> Shape -> Path -> M S C';
  hintMapper : H -> Shape -> Path -> M S H';
  tagsMapper : T -> Shape -> Path -> M S T'
}.

(** An array transform receives the mapped children, the original children,
    the array's shape and its path, and returns the array that takes the
    place of the mapped children. *)
Definition ArrayMapper (S C C' H H' T T' X X' : Type) : Type :=
  list (Tree C' H' T' X') -> list (Tree C H T X) -> Shape -> Path ->
  M S (option X' * list (Tree C' H' T' X')).

Record TreeMapper (S C C' H H' T T' X X' : Type) : Type := {
  leafMappers : LeafMappers S C C' H H' T T';
  arrayMapper : ArrayMapper S C C' H H' T T' X X'
}.

(** Modelled from the spec: the mapper builder of [./trees.js], of which the
    source only has the calls.  A builder accumulates up to four transforms.
    [buildMapper()] starts from transforms that change nothing (the result
    type [Tree<O, O, null>] of [_mapRenderers], which sets no tags
    transform, keeps the tags leaves as they are), each leaf setter replaces
    one of them, and the array transform is set last, on the leaf transforms
    it post-processes. *)
Definition buildMapper {S C H T : Type} : LeafMappers S C C H H T T :=
  {| contentMapper := fun c _ _ => ret c;
     hintMapper := fun h _ _ => ret h;
     tagsMapper := fun t _ _ => ret t |}.

Definition setContentMapper {S C C' C'' H H' T T' : Type}
    (f : C -> Shape -> Path -> M S C'') (m : LeafMappers S C C' H H' T T')
  : LeafMappers S C C'' H H' T T' :=
  {| contentMapper := f; hintMapper := hintMapper m; tagsMapper := tagsMapper m |}.

Definition setHintMapper {S C C' H H' H'' T T' : Type}
    (f : H -> Shape -> Path -> M S H'') (m : LeafMappers S C C' H H' T T')
  : LeafMappers S C C' H H'' T T' :=
  {| contentMapper := contentMapper m; hintMapper := f; tagsMapper := tagsMapper m |}.

Definition setTagsMapper {S C C' H H' T T' T'' : Type}
    (f : T -> Shape -> Path -> M S T'') (m : LeafMappers S C C' H H' T T')
  : LeafMappers S C C' H H' T T'' :=
  {| contentMapper := contentMapper m; hintMapper := hintMapper m; tagsMapper := f |}.

Definition setArrayMapper {S C C' H H' T T' X X' : Type}
    (f : ArrayMapper S C C' H H' T T' X X') (m : LeafMappers S C C' H H' T T')
  : TreeMapper S C C' H H' T T' X X' :=
  {| leafMappers := m; arrayMapper := f |}.

(** A mapper whose array transform was never set returns the mapped
    children as they are. *)
Definition justLeaves {S C C' H H' T T' X X' : Type}
    (m : LeafMappers S C C' H H' T T') : TreeMapper S C C' H H' T T' X X' :=
  {| leafMappers := m; arrayMapper := fun mapped _ _ _ => ret (None, mapped) |}.

(** [array.map((inner, i) => f(inner, i))] for an [f] with effects: the
    elements are visited from left to right, [i] counting from the index of
    the first. *)
Fixpoint map_elements {S A B : Type} (f : A -> nat -> M S B) (l : list A) (i : nat)
  : M S (list B) :=
  match l with
  | [] => ret []
  | a :: rest =>
      b <- f a i ;;
      bs <- map_elements f rest (Datatypes.S i) ;;
      ret (b :: bs)
  end.

Section Mapper.
Context {S C C' H H' T T' X X' : Type}.

(** Modelled from the spec: [mapTree] of [./trees.js], which is not part of
    the sources at hand.  It walks tree and shape in lock-step in pre-order,
    applies the matching transform at each leaf, recurses into arrays and
    applies the array transform to each array's mapped children.  A tree
    that disagrees with the shape is a shape mismatch at that path. *)
Fixpoint mapTree (m : TreeMapper S C C' H H' T T' X X')
         (tree : Tree C H T X) (shape : Shape) (path : Path)
  : M S (Tree C' H' T' X') :=
  match shape, tree with
  | ContentShape, Content c =>
      c' <- contentMapper (leafMappers m) c shape path ;; ret (Content c')
  | HintShape, Hint h =>
      h' <- hintMapper (leafMappers m) h shape path ;; ret (Hint h')
  | TagsShape, Tags t =>
      t' <- tagsMapper (leafMappers m) t shape path ;; ret (Tags t')
  | ArrayShape elementShape, Array _ children =>
      mapped <-
        map_elements (fun inner i => mapTree m inner elementShape (path ++ [i]))
                     children 0 ;;
      r <- arrayMapper m mapped children shape path ;;
      ret (Array (fst r) (snd r))
  | _, _ => throw (ShapeMismatch path)
  end.
End Mapper.


(* ===================================================================== *)
(** ** Reading a tree: conformance, topology and the pre-order leaves *)
(* ===================================================================== *)

(** [l.map((a, i) => f(a, i))] and its flattening, [i] counting from the
    index of the first element. *)
Fixpoint mapi {A B : Type} (f : A -> nat -> B) (l : list A) (i : nat) : list B :=
  match l with
  | [] => []
  | a :: rest => f a i :: mapi f rest (Datatypes.S i)
  end.

Fixpoint flat_mapi {A B : Type} (f : A -> nat -> list B) (l : list A) (i : nat)
  : list B :=
  match l with
  | [] => []
  | a :: rest => f a i ++ flat_mapi f rest (Datatypes.S i)
  end.

(** A leaf of a tree, with the variant it was found under. *)
Inductive Leaf (C H T : Type) : Type :=
| LContent (c : C)
| LHint (h : H)
| LTags (t : T).
Arguments LContent {C H T} c.
Arguments LHint {C H T} h.
Arguments LTags {C H T} t.

(** The elements of an array walked from left to right until one of the
    walks stops at a node, [i] counting from the index of the first. *)
Fixpoint visit_elements {A B : Type} (f : A -> nat -> list B * option Path)
    (l : list A) (i : nat) : list B * option Path :=
  match l with
  | [] => ([], None)
  | a :: rest =>
      match f a i with
      | (passed, Some q) => (passed, Some q)
      | (passed, None) =>
          let r := visit_elements f rest (Datatypes.S i) in
          (passed ++ fst r, snd r)
      end
  end.

Section TreeReading.
Context {C H T X : Type}.

(** The tree has the topology the shape describes. *)
Fixpoint conforms (tree : Tree C H T X) (shape : Shape) : bool :=
  match shape, tree with
  | ContentShape, Content _ => true
  | HintShape, Hint _ => true
  | TagsShape, Tags _ => true
  | ArrayShape elementShape, Array _ children =>
      forallb (fun inner => conforms inner elementShape) children
  | _, _ => false
  end.

(** The tree with its payloads erased. *)
Fixpoint topology (tree : Tree C H T X) : Tree unit unit unit Empty_set :=
  match tree with
  | Content _ => Content tt
  | Hint _ => Hint tt
  | Tags _ => Tags tt
  | Array _ children => Array None (map topology children)
  end.

(** The leaves in pre-order (top to bottom, left to right), each with its
    path, for a tree rooted at [path]. *)
Fixpoint leaves (tree : Tree C H T X) (path : Path) : list (Path * Leaf C H T) :=
  match tree with
  | Content c => [(path, LContent c)]
  | Hint h => [(path, LHint h)]
  | Tags t => [(path, LTags t)]
  | Array _ children =>
      flat_mapi (fun inner i => leaves inner (path ++ [i])) children 0
  end.

(** How far a walk of tree and shape in lock-step gets: the leaves it
    passes, in pre-order, and the path of the first node that disagrees
    with the shape, if there is one. *)
Fixpoint visit (tree : Tree C H T X) (shape : Shape) (path : Path)
  : list (Path * Leaf C H T) * option Path :=
  match shape, tree with
  | ContentShape, Content c => ([(path, LContent c)], None)
  | HintShape, Hint h => ([(path, LHint h)], None)
  | TagsShape, Tags t => ([(path, LTags t)], None)
  | ArrayShape elementShape, Array _ children =>
      visit_elements (fun inner i => visit inner elementShape (path ++ [i]))
                     children 0
  | _, _ => ([], Some path)
  end.

(** The node a path leads to. *)
Fixpoint subtree (tree : Tree C H T X) (path : Path) : option (Tree C H T X) :=
  match path with
  | [] => Some tree
  | i :: rest =>
      match tree with
      | Array _ children =>
          match nth_error children i with
          | Some inner => subtree inner rest
          | None => None
          end
      | _ => None
      end
  end.
End TreeReading.

(** The shape a path leads to: every element of an array has the array's
    element shape. *)
Fixpoint subshape (shape : Shape) (path : Path) : option Shape :=
  match path with
  | [] => Some shape
  | _ :: rest =>
      match shape with
      | ArrayShape elementShape => subshape elementShape rest
      | _ => None
      end
  end.

(** [shape.elementShape] *)
Definition elementShape_of (shape : Shape) : Shape :=
  match shape with
  | ArrayShape elementShape => elementShape
  | _ => shape
  end.

Section PureMap.
Context {C C' H H' T T' X X' : Type}.
Variable fc : C -> Path -> C'.
Variable fh : H -> Path -> H'.
Variable ft : T -> Path -> T'.
Variable fa : list (Tree C H T X) -> Shape -> option X'.

(** The tree obtained by replacing every leaf by a function of the leaf
    and its path, every array keeping its elements' order and receiving
    the property that [fa] computes from its original children and its
    shape. *)
Fixpoint tmap (tree : Tree C H T X) (shape : Shape) (path : Path)
  : Tree C' H' T' X' :=
  match tree with
  | Content c => Content (fc c path)
  | Hint h => Hint (fh h path)
  | Tags t => Tags (ft t path)
  | Array _ children =>
      Array (fa children shape)
            (mapi (fun inner i => tmap inner (elementShape_of shape) (path ++ [i]))
                  children 0)
  end.

Definition leaf_map (l : Path * Leaf C H T) : Path * Leaf C' H' T' :=
  match l with
  | (p, LContent c) => (p, LContent (fc c p))
  | (p, LHint h) => (p, LHint (fh h p))
  | (p, LTags t) => (p, LTags (ft t p))
  end.
End PureMap.

(** No array receives a property. *)
Definition plain {A X' : Type} (_ : list A) (_ : Shape) : option X' := None.

(** Running a computation whose state is the local variables of one call:
    the locals start at [init] and are read off when the call returns. *)
Definition run_local {L A : Type} (c : M L A) (init : L) : result (A * L) :=
  match c init with
  | (Ok a, l) => Ok (a, l)
  | (Throw e, _) => Throw e
  end.

(** Modelled from the spec: the path accessor of [hubble], which is not part
    of the sources at hand.  [lens(structure).get(path)] navigates a plain
    nested structure by the path the traversal produced and is tolerant of
    missing intermediate structure: it yields [undefined] instead of
    failing. *)
Fixpoint lens_get (structure : JSValue) (path : Path) : JSValue :=
  match path with
  | [] => structure
  | i :: rest =>
      match structure with
      | JArray elements =>
          match nth_error elements i with
          | Some inner => lens_get inner rest
          | None => JUndefined
          end
      | _ => JUndefined
      end
  end.

(* ===================================================================== *)
(** ** The engine ([multi-renderer.jsx]) *)
(* ===================================================================== *)

(** When a leaf runs the completion callback it was handed by
    [restoreSerializedState]: during the call itself, or at a later tick. *)
Inductive Completion : Type := Synchronously | Later.

(** What happens, in order, during and after one call of the engine's
    [restoreSerializedState]. *)
Inductive Event : Type :=
| Dispatched (data : addr) (leafState : JSValue)
| Completed (data : addr)
| Callback.

Section Engine.
Context {ContentNode HintNode TagsNode RendererProps : Type}.
Context {WidgetRef Criterion Score Guess KEScore : Type}.

(** *** Items ([item-types.js], [items.js]) *)

Inductive ItemNode : Type :=
| IContent (c : ContentNode)
| IHint (h : HintNode)
| ITags (t : TagsNode)
| IArray (elements : list ItemNode).

(** An item is an object: [item_ref] is its identity, [item_value] what
    it holds. *)
Record Item : Type := { item_ref : addr; item_value : ItemNode }.

Definition ItemTree : Type := Tree ContentNode HintNode TagsNode Empty_set.

(** Modelled from the spec: [itemToTree] of [./items.js], which is not part
    of the sources at hand.  The engine calls it with the item alone, so it
    cannot compare the item with the shape: it hands out the item's nodes as
    a tree, and it is [mapTree] that meets a disagreement between the item's
    topology and the shape's, while it walks. *)
Fixpoint node_tree (node : ItemNode) : ItemTree :=
  match node with
  | IContent c => Content c
  | IHint h => Hint h
  | ITags t => Tags t
  | IArray elements => Array None (map node_tree elements)
  end.

Definition itemToTree (item : Item) : ItemTree := node_tree (item_value item).

(** *** The mounted leaf, as far as the engine uses it ([../renderer.jsx]) *)

Record Renderer : Type := {
  findInternalWidgets : Criterion -> list WidgetRef;
  guessAndScore : Guess * Score;
  leaf_score : Score;
  getUserInput : Guess;
  leaf_getSerializedState : JSValue;
  leaf_restoreSerializedState : JSValue -> Completion
}.

(** *** Elements, cells and the component *)

(** A renderer cell is named by its address; the trees hold addresses. *)
Definition RendererDataTree : Type := Tree addr addr unit Empty_set.

(** The [firstN] function attached to an array of hint renderers closes
    over the cells of the array it was made for. *)
Record FirstN : Type := { hintRendererDatas : list RendererDataTree }.

(** The elements the engine creates.  In [ERenderer], [data] is the cell
    that the element's [ref] callback and its [findExternalWidgets] close
    over. *)
Inductive ReactElement : Type :=
| ENull
| ERenderer (rendererProps : RendererProps) (content : ContentNode) (data : addr)
| EHintsRenderer (rendererProps : RendererProps) (hints : list (option HintNode))
                 (hintsVisible : option nat)
| EError (renderError : Error).

(** [ContentRendererData | HintRendererData]: a content cell has no
    [hint] field. *)
Record RendererData : Type := {
  renderer : ReactElement;
  ref : option Renderer;
  hint : option HintNode
}.

Definition RendererTree : Type := Tree ReactElement ReactElement unit FirstN.

Record Props : Type := {
  item : Item;
  shape : Shape;
  children : option RendererTree -> ReactElement;
  otherProps : RendererProps
}.

(** [rendererDataTree: ?RendererDataTree] is [null] when there is no tree,
    and also when the tree is itself [null] (see [nullable] below). *)
Record State : Type := {
  rendererDataTree : option RendererDataTree;
  renderError : option Error
}.

Record MultiRenderer : Type := { props : Props; state : State }.

(** What the component shares with the rest of the page: the heap of
    renderer cells and the console. *)
Record Store : Type := { cells : list RendererData; console : list Error }.

Definition empty_store : Store := {| cells := []; console := [] |}.

(** [{...}]: a new object. *)
Definition alloc (d : RendererData) : M Store addr :=
  fun st =>
    (Ok (length (cells st)),
     {| cells := cells st ++ [d]; console := console st |}).

(** [data.renderer = e] *)
Definition set_renderer (data : addr) (e : ReactElement) : M Store unit :=
  modify (fun st =>
    {| cells := alter (fun d => {| renderer := e; ref := ref d; hint := hint d |})
                      data (cells st);
       console := console st |}).

(** [data.ref = e], the body of a content element's [ref] callback. *)
Definition set_ref (data : addr) (e : option Renderer) (st : Store) : Store :=
  {| cells := alter (fun d => {| renderer := renderer d; ref := e; hint := hint d |})
                    data (cells st);
     console := console st |}.

(** [console.error(e)] *)
Definition console_error (e : Error) : M Store unit :=
  modify (fun st => {| cells := cells st; console := console st ++ [e] |}).

(** [data.ref], for a cell of the heap. *)
Definition ref_of (heap : list RendererData) (data : addr) : option Renderer :=
  match heap !! data with
  | Some d => ref d
  | None => None
  end.

Definition _getRendererProps (thisProps : Props) : RendererProps :=
  otherProps thisProps.

Definition _makeContentRendererData (thisProps : Props) (content : ContentNode)
  : M Store addr :=
  data <- alloc {| renderer := ENull; ref := None; hint := None |} ;;
  set_renderer data (ERenderer (_getRendererProps thisProps) content data) ;;;
  ret data.

Definition _makeHintRendererData (thisProps : Props) (h : HintNode)
  : M Store addr :=
  let renderer := EHintsRenderer (_getRendererProps thisProps) [Some h] None in
  alloc {| renderer := renderer; ref := None; hint := Some h |}.

Definition _makeRendererDataTree (thisProps : Props) (item : Item) (shape : Shape)
  : M Store RendererDataTree :=
  let itemTree := itemToTree item in
  let mapper :=
    setTagsMapper (fun _ _ _ => ret tt)
      (setHintMapper (fun h _ _ => _makeHintRendererData thisProps h)
         (setContentMapper (fun c _ _ => _makeContentRendererData thisProps c)
            buildMapper)) in
  mapTree (justLeaves mapper) itemTree shape [].

(** A tree of cells as the JavaScript value it is.  The leaves of a tree
    are bare values, and the tags transform of [_makeRendererDataTree]
    returns [null]: the tree of an item that is one tags leaf is [null], and
    in the state it cannot be told from no tree. *)
Definition nullable (tree : RendererDataTree) : option RendererDataTree :=
  match tree with
  | Tags _ => None
  | _ => Some tree
  end.

Definition _tryMakeRendererState (thisProps : Props) (props : Props)
  : M Store State :=
  try_catch
    (tree <- _makeRendererDataTree thisProps (item props) (shape props) ;;
     ret {| rendererDataTree := nullable tree; renderError := None |})
    (fun e =>
       console_error e ;;;
       ret {| rendererDataTree := None; renderError := Some e |}).

Definition constructor (props : Props) : M Store MultiRenderer :=
  st <- _tryMakeRendererState props props ;;
  ret {| props := props; state := st |}.

Definition componentWillReceiveProps (this : MultiRenderer) (nextProps : Props)
  : M Store MultiRenderer :=
  if negb (item_ref (item nextProps) =? item_ref (item (props this))) then
    st <- _tryMakeRendererState (props this) nextProps ;;
    ret {| props := props this; state := st |}
  else ret this.

(** The update the framework performs: the hook runs with the old props
    still in place, then the new props are installed. *)
Definition receiveProps (this : MultiRenderer) (nextProps : Props)
  : M Store MultiRenderer :=
  this' <- componentWillReceiveProps this nextProps ;;
  ret {| props := nextProps; state := state this' |}.

(** *** Traversals of the cached tree *)

Definition _mapRenderers {S O X' : Type} (this : MultiRenderer)
    (leafMapper : addr -> Shape -> Path -> M S O)
    (arrayMapper : option (ArrayMapper S addr O addr O unit unit Empty_set X'))
  : M S (option (Tree O O unit X')) :=
  match rendererDataTree (state this) with
  | None => ret None
  | Some tree =>
      let mapper :=
        setHintMapper leafMapper (setContentMapper leafMapper buildMapper) in
      let mapper :=
        match arrayMapper with
        | Some f => setArrayMapper f mapper
        | None => justLeaves mapper
        end in
      mapped <- mapTree mapper tree (shape (props this)) [] ;;
      ret (Some mapped)
  end.

(** [results.push(...widgets)] *)
Definition push_all {A : Type} (xs : list A) : M (list A) unit :=
  modify (fun results => results ++ xs).

Definition _findWidgets (this : MultiRenderer) (heap : list RendererData)
    (callingData : addr) (filterCriterion : Criterion)
  : result (list WidgetRef) :=
  match
    run_local
      (_mapRenderers (X':=Empty_set) this
         (fun data _ _ =>
            match ref_of heap data with
            | Some r =>
                if negb (callingData =? data)
                then push_all (findInternalWidgets r filterCriterion)
                else ret tt
            | None => ret tt
            end)
         None)
      []
  with
  | Ok (_, results) => Ok results
  | Throw e => Throw e
  end.

(** *** Scores.  [Util.combineScores] and [Util.keScoreFromPerseusScore]
    belong to [../util.js]; the engine only passes values through them. *)

Definition GuessTree : Type := Tree (option Guess) (option Guess) unit Empty_set.

(** The second argument of [keScoreFromPerseusScore]: one leaf's guess in
    [getScores], the tree of guesses (or [null]) in [score]. *)
Inductive GuessValue : Type :=
| GLeaf (guess : Guess)
| GTree (guess : option GuessTree).

Variable combineScores : Score -> Score -> Score.
Variable keScoreFromPerseusScore : Score -> GuessValue -> KEScore.

Definition ScoreTree : Type := Tree (option KEScore) (option KEScore) unit Empty_set.

Definition _scoreFromRef (r : option Renderer) : option KEScore :=
  match r with
  | None => None
  | Some r =>
      let (guess, score) := guessAndScore r in
      Some (keScoreFromPerseusScore score (GLeaf guess))
  end.

Definition getScores (this : MultiRenderer) (heap : list RendererData)
  : result (option ScoreTree) :=
  match
    run_local
      (_mapRenderers (S:=unit) this
         (fun data _ _ => ret (_scoreFromRef (ref_of heap data))) None)
      tt
  with
  | Ok (scores, _) => Ok scores
  | Throw e => Throw e
  end.

(** The traversal of [score]: the local [scores] array is the state. *)
Definition score_traversal (this : MultiRenderer) (heap : list RendererData)
  : M (list Score) (option GuessTree) :=
  _mapRenderers this
    (fun data _ _ =>
       match ref_of heap data with
       | None => ret None
       | Some r =>
           push_all [leaf_score r] ;;;
           ret (Some (getUserInput r))
       end)
    None.

Definition score (this : MultiRenderer) (heap : list RendererData)
  : result KEScore :=
  match run_local (score_traversal this heap) [] with
  | Ok (guess, scores) =>
      match reduce combineScores scores with
      | Ok combinedScore => Ok (keScoreFromPerseusScore combinedScore (GTree guess))
      | Throw e => Throw e
      end
  | Throw e => Throw e
  end.

(** *** Serialized state *)

Definition SerializedStateTree : Type :=
  Tree (option JSValue) (option JSValue) unit Empty_set.

Definition getSerializedState (this : MultiRenderer) (heap : list RendererData)
  : result (option SerializedStateTree) :=
  match
    run_local
      (_mapRenderers (S:=unit) this
         (fun data _ _ =>
            match ref_of heap data with
            | None => ret None
            | Some r => ret (Some (leaf_getSerializedState r))
            end)
         None)
      tt
  with
  | Ok (states, _) => Ok states
  | Throw e => Throw e
  end.

(** The locals of one call of [restoreSerializedState], and the record of
    what the call and the leaves' callbacks did. *)
Record Restoring : Type := { numCallbacks : Z; trace : list Event }.

Definition log_event (ev : Event) (st : Restoring) : Restoring :=
  {| numCallbacks := numCallbacks st; trace := trace st ++ [ev] |}.

(** [countCallback]; [callback] tells whether the caller supplied one. *)
Definition countCallback (callback : bool) (st : Restoring) : Restoring :=
  let st := {| numCallbacks := (numCallbacks st - 1)%Z; trace := trace st |} in
  if callback && (numCallbacks st =? 0)%Z then log_event Callback st else st.

(** A leaf running the completion callback it was handed. *)
Definition leaf_completes (callback : bool) (data : addr) (st : Restoring)
  : Restoring :=
  countCallback callback (log_event (Completed data) st).

(** [data.ref.restoreSerializedState(state, countCallback)] *)
Definition leaf_restore (callback : bool) (data : addr) (r : Renderer)
    (leafState : JSValue) (st : Restoring) : Restoring :=
  let st := log_event (Dispatched data leafState) st in
  match leaf_restoreSerializedState r leafState with
  | Synchronously => leaf_completes callback data st
  | Later => st
  end.

(** The call itself: everything up to its return. *)
Definition restoreSerializedState (this : MultiRenderer)
    (heap : list RendererData) (serializedState : JSValue) (callback : bool)
  : result Restoring :=
  match
    run_local
      (_mapRenderers (X':=Empty_set) this
         (fun data _ path =>
            match ref_of heap data with
            | None => ret tt
            | Some r =>
                let leafState := lens_get serializedState path in
                if negb (truthy leafState) then ret tt
                else
                  modify (fun st =>
                    {| numCallbacks := (numCallbacks st + 1)%Z;
                       trace := trace st |}) ;;;
                  modify (leaf_restore callback data r leafState)
            end)
         None)
      {| numCallbacks := 0; trace := [] |}
  with
  | Ok (_, st) => Ok st
  | Throw e => Throw e
  end.

(** The leaves that were handed a restoration and have not completed. *)
Definition restored (tr : list Event) : list addr :=
  flat_map (fun ev => match ev with Dispatched data _ => [data] | _ => [] end) tr.

Definition completed (tr : list Event) : list addr :=
  flat_map (fun ev => match ev with Completed data => [data] | _ => [] end) tr.

Definition pending (tr : list Event) : list addr :=
  List.filter (fun data => negb (existsb (Nat.eqb data) (completed tr))) (restored tr).

(** After the call has returned, the leaves still pending complete one by
    one, in the order [order]. *)
Definition complete_later (callback : bool) (order : list addr) (st : Restoring)
  : Restoring :=
  fold_left (fun st data => leaf_completes callback data st) order st.

(** How often the caller's callback has run. *)
Definition callbacks (tr : list Event) : nat :=
  length (List.filter (fun ev => match ev with Callback => true | _ => false end) tr).

(** *** The renderer tree handed to the layout *)

(** An array of the renderer tree as an object of the heap of arrays: its
    [firstN] property, if it has one, and its elements. *)
Definition RendererArray : Type := (option FirstN * list RendererTree)%type.

(** [[...]]: a new array. *)
Definition new_array (a : RendererArray) : M (list RendererArray) addr :=
  fun arrays => (Ok (length arrays), arrays ++ [a]).

(** [[...renderers]]: a new array with the elements of [renderers] and none
    of its other properties. *)
Definition spread (renderers : addr) : M (list RendererArray) addr :=
  fun arrays =>
    match arrays !! renderers with
    | Some a => new_array (None, snd a) arrays
    | None => (Throw (TypeError "renderers is not iterable"), arrays)
    end.

(** [renderers.firstN = f] *)
Definition set_firstN (renderers : addr) (f : FirstN)
  : M (list RendererArray) unit :=
  modify (alter (fun a : RendererArray => (Some f, snd a)) renderers).

Definition _annotateRendererArray (renderers : addr)
    (rendererDatas : list RendererDataTree) (shape : Shape)
  : M (list RendererArray) addr :=
  match shape with
  | ArrayShape elementShape =>
      if is_hint_shape elementShape then
        renderers' <- spread renderers ;;
        set_firstN renderers' {| hintRendererDatas := rendererDatas |} ;;;
        ret renderers'
      else ret renderers
  | _ => throw (TypeError "shape.elementShape is undefined")
  end.

(** What the attached [firstN] returns when the layout calls it. *)
Definition hint_of (heap : list RendererData) (d : RendererDataTree)
  : option HintNode :=
  match d with
  | Content data | Hint data =>
      match heap !! data with
      | Some cell => hint cell
      | None => None
      end
  | _ => None
  end.

Definition firstN (this : MultiRenderer) (heap : list RendererData)
    (f : FirstN) (n : nat) : ReactElement :=
  EHintsRenderer (_getRendererProps (props this))
                 (map (hint_of heap) (hintRendererDatas f)) (Some n).

(** The array transform seen from [mapTree]: the mapped children are an
    array that [mapTree] has just built, and the array the transform
    returns takes their place in the tree. *)
Definition on_new_array {S : Type}
    (f : addr -> list RendererDataTree -> Shape -> M (list RendererArray) addr)
  : ArrayMapper S addr ReactElement addr ReactElement unit unit Empty_set FirstN :=
  fun mapped originals shape _ s =>
    match (renderers <- new_array (None, mapped) ;; f renderers originals shape) [] with
    | (Ok returned, arrays) =>
        match arrays !! returned with
        | Some a => (Ok a, s)
        | None => (Throw (TypeError "not an array"), s)
        end
    | (Throw e, _) => (Throw e, s)
    end.

(** [data.renderer] *)
Definition renderer_of (heap : list RendererData) (data : addr) : ReactElement :=
  match heap !! data with
  | Some d => renderer d
  | None => ENull
  end.

Definition _getRenderers (this : MultiRenderer) (heap : list RendererData)
  : result (option RendererTree) :=
  match
    run_local
      (_mapRenderers (S:=unit) this
         (fun data _ _ => ret (renderer_of heap data))
         (Some (on_new_array _annotateRendererArray)))
      tt
  with
  | Ok (renderers, _) => Ok renderers
  | Throw e => Throw e
  end.

Definition render (this : MultiRenderer) (heap : list RendererData)
  : result ReactElement :=
  match renderError (state this) with
  | Some e => Ok (EError e)
  | None =>
      match _getRenderers this heap with
      | Ok renderers => Ok (children (props this) renderers)
      | Throw e => Throw e
      end
  end.

(** *** The life of a component *)

Record World : Type := { component : MultiRenderer; store : Store }.

(** What can happen to a mounted component: it receives props, or the
    [ref] callback of one of the content elements it created is called,
    with the mounted instance or with [null].  An item is an immutable
    snapshot and [item_ref] is the reference to it; the surrounding system
    constructs a new item on every real change, so props that hold the
    reference the component holds already hold the same item. *)
Inductive step : World -> World -> Prop :=
| step_props (w : World) (nextProps : Props) (this' : MultiRenderer) (st' : Store) :
    (item_ref (item nextProps) = item_ref (item (props (component w))) ->
     item nextProps = item (props (component w))) ->
    receiveProps (component w) nextProps (store w) = (Ok this', st') ->
    step w {| component := this'; store := st' |}
| step_ref (w : World) (owner data : addr) (cell : RendererData)
           (rp : RendererProps) (c : ContentNode) (e : option Renderer) :
    cells (store w) !! owner = Some cell ->
    renderer cell = ERenderer rp c data ->
    step w {| component := component w; store := set_ref data e (store w) |}.

Inductive reachable : World -> Prop :=
| reachable_constructed (p : Props) (this : MultiRenderer) (st : Store) :
    constructor p empty_store = (Ok this, st) ->
    reachable {| component := this; store := st |}
| reachable_step (w w' : World) :
    reachable w -> step w w' -> reachable w'.

(** Exactly one of the two fields of the state is non-null. *)
Definition exactly_one (st : State) : Prop :=
  (rendererDataTree st <> None /\ renderError st = None) \/
  (rendererDataTree st = None /\ renderError st <> None).

(** Both fields are null and the item is one tags leaf. *)
Definition tags_only (this : MultiRenderer) : Prop :=
  rendererDataTree (state this) = None /\ renderError (state this) = None /\
  exists t, item_value (item (props this)) = ITags t.
End Engine.

(* ===================================================================== *)
(** ** Vocabulary of the statements *)
(* ===================================================================== *)

Section LeafEffects.
Context {S C H T : Type}.
Variable uc : C -> Path -> S -> S.
Variable uh : H -> Path -> S -> S.
Variable ut : T -> Path -> S -> S.

(** What visiting one leaf does to the state of a traversal. *)
Definition leaf_effect (st : S) (l : Path * Leaf C H T) : S :=
  match l with
  | (p, LContent c) => uc c p st
  | (p, LHint h) => uh h p st
  | (p, LTags t) => ut t p st
  end.
End LeafEffects.

(** The cell of a leaf of the cached tree; a tags leaf has none. *)
Definition cell_of (l : Path * Leaf addr addr unit) : option addr :=
  match l with
  | (_, LContent data) | (_, LHint data) => Some data
  | (_, LTags _) => None
  end.

Definition content_cell_of (l : Path * Leaf addr addr unit) : option addr :=
  match l with
  | (_, LContent data) => Some data
  | _ => None
  end.

Definition hint_cell_of (l : Path * Leaf addr addr unit) : option addr :=
  match l with
  | (_, LHint data) => Some data
  | _ => None
  end.

(** The cells of the leaves of a cached tree, in pre-order. *)
Definition leaf_cells {X : Type} (tree : Tree addr addr unit X) : list addr :=
  omap cell_of (leaves tree []).

Definition content_cells {X : Type} (tree : Tree addr addr unit X) : list addr :=
  omap content_cell_of (leaves tree []).

Definition hint_cells {X : Type} (tree : Tree addr addr unit X) : list addr :=
  omap hint_cell_of (leaves tree []).

(** The cells other than the calling one. *)
Definition others (callingData : addr) (l : list addr) : list addr :=
  List.filter (fun data => negb (callingData =? data)) l.

Section EngineVocabulary.
Context {ContentNode HintNode TagsNode RendererProps : Type}.
Context {WidgetRef Criterion Score Guess : Type}.
Abbreviation RendererData :=
  (@RendererData ContentNode HintNode RendererProps WidgetRef Criterion Score Guess).

(** The instances mounted in the given cells, in the order of the cells. *)
Definition mounted (heap : list RendererData) (l : list addr)
  : list (@Renderer WidgetRef Criterion Score Guess) :=
  omap (ref_of heap) l.

(** The guess [score] records at a leaf. *)
Definition guess_of (heap : list RendererData) (data : addr) (_ : Path)
  : option Guess :=
  match ref_of heap data with
  | None => None
  | Some r => Some (getUserInput r)
  end.

Abbreviation Store :=
  (@Store ContentNode HintNode RendererProps WidgetRef Criterion Score Guess).

(** The two kinds of cell.  The element of a content cell closes over the
    cell itself; a hint cell holds its hint and no back-reference. *)
Definition content_cell (data : addr) (cell : RendererData) : Prop :=
  hint cell = None /\ exists rp c, renderer cell = ERenderer rp c data.

Definition hint_cell (cell : RendererData) : Prop :=
  ref cell = None /\ hint cell <> None /\
  exists rp hs v, renderer cell = EHintsRenderer rp hs v.

Definition cell_ok (data : addr) (cell : RendererData) : Prop :=
  content_cell data cell \/ hint_cell cell.

(** Every cell of the heap is of one of the two kinds. *)
Definition store_ok (heap : list RendererData) : Prop :=
  forall data cell, heap !! data = Some cell -> cell_ok data cell.

(** [new] are cells just made, the first at address [base]: none has a
    back-reference yet. *)
Definition fresh_cells (base : nat) (new : list RendererData) : Prop :=
  forall i cell, new !! i = Some cell -> cell_ok (base + i) cell /\ ref cell = None.

(** [st'] is [st] with new cells added at the end of the heap and nothing
    else changed. *)
Definition extends (st st' : Store) : Prop :=
  console st' = console st /\
  exists new, cells st' = cells st ++ new /\ fresh_cells (length (cells st)) new.

(** The cell [l'] was made for the leaf [l] of the item, at an address not
    below [base], and is in [heap] without a back-reference. *)
Definition leaf_built (base : nat) (heap : list RendererData)
    (l : Leaf ContentNode HintNode TagsNode) (l' : Leaf addr addr unit) : Prop :=
  match l, l' with
  | LContent _, LContent data =>
      base <= data /\
      exists cell, heap !! data = Some cell /\ hint cell = None /\ ref cell = None
  | LHint h, LHint data =>
      base <= data /\
      exists cell, heap !! data = Some cell /\ hint cell = Some h /\ ref cell = None
  | LTags _, LTags _ => True
  | _, _ => False
  end.

(** The cell of a leaf of the cached tree is in the heap and of the leaf's
    kind. *)
Definition leaf_in_heap (heap : list RendererData)
    (l : Path * Leaf addr addr unit) : Prop :=
  match l with
  | (_, LContent data) => exists cell, heap !! data = Some cell /\ hint cell = None
  | (_, LHint data) => exists cell, heap !! data = Some cell /\ hint cell <> None
  | (_, LTags _) => True
  end.

(** The cached tree has the topology of the current item, and conforms to
    the shape it was built with. *)
Definition built_from_item
    (this : @MultiRenderer ContentNode HintNode TagsNode RendererProps)
    (tree : RendererDataTree) : Prop :=
  topology tree = topology (itemToTree (item (props this))) /\
  exists builtShape : Shape, conforms tree builtShape = true.

(** What holds of a component throughout its life. *)
Definition world_ok
    (w : @World ContentNode HintNode TagsNode RendererProps
                WidgetRef Criterion Score Guess) : Prop :=
  (exactly_one (state (component w)) \/ tags_only (component w)) /\
  store_ok (cells (store w)) /\
  forall tree, rendererDataTree (state (component w)) = Some tree ->
               Forall (leaf_in_heap (cells (store w))) (leaves tree []) /\
               built_from_item (component w) tree.

(** What the claims say [getScores] holds at a leaf: the leaf's own score
    combined with its guess at a content leaf whose back-reference is
    non-null, [null] everywhere else. *)
Definition score_leaf {KEScore : Type}
    (keScoreFromPerseusScore : Score -> @GuessValue Guess -> KEScore)
    (heap : list RendererData) (l : Path * Leaf addr addr unit)
  : Path * Leaf (option KEScore) (option KEScore) unit :=
  match l with
  | (p, LContent data) =>
      (p, LContent
            match ref_of heap data with
            | None => None
            | Some r =>
                Some (keScoreFromPerseusScore (snd (guessAndScore r))
                                              (GLeaf (fst (guessAndScore r))))
            end)
  | (p, LHint _) => (p, LHint None)
  | (p, LTags v) => (p, LTags v)
  end.

(** What [getSerializedState] holds at a leaf: the leaf's own state at a
    content leaf whose back-reference is non-null, [null] everywhere else. *)
Definition state_leaf (heap : list RendererData) (l : Path * Leaf addr addr unit)
  : Path * Leaf (option JSValue) (option JSValue) unit :=
  match l with
  | (p, LContent data) =>
      (p, LContent
            match ref_of heap data with
            | None => None
            | Some r => Some (leaf_getSerializedState r)
            end)
  | (p, LHint _) => (p, LHint None)
  | (p, LTags v) => (p, LTags v)
  end.

(** The property [_annotateRendererArray] gives the array built for the
    children [originals] of an array of shape [s]. *)
Definition annotation (originals : list RendererDataTree) (s : Shape)
  : option FirstN :=
  if is_hint_shape (elementShape_of s)
  then Some {| hintRendererDatas := originals |}
  else None.

(** What [restoreSerializedState] does at the leaf whose cell is [data]. *)
Definition restore_leaf (heap : list RendererData) (serializedState : JSValue)
    (callback : bool) (data : addr) (path : Path) (st : Restoring) : Restoring :=
  match ref_of heap data with
  | None => st
  | Some r =>
      let leafState := lens_get serializedState path in
      if negb (truthy leafState) then st
      else leaf_restore callback data r leafState
             {| numCallbacks := (numCallbacks st + 1)%Z; trace := trace st |}
  end.

(** The cells of the leaves that must be handed a restoration: those with a
    back-reference and a truthy value at their path in the state tree, in
    pre-order. *)
Definition dispatched (heap : list RendererData) (serializedState : JSValue)
    (l : list (Path * Leaf addr addr unit)) : list addr :=
  flat_map
    (fun leaf =>
       match leaf with
       | (p, LContent data) | (p, LHint data) =>
           match ref_of heap data with
           | Some _ => if truthy (lens_get serializedState p) then [data] else []
           | None => []
           end
       | (_, LTags _) => []
       end) l.

(** The locals of [restoreSerializedState] when the call starts. *)
Definition restore_start : Restoring := {| numCallbacks := 0; trace := [] |}.

(** The caller's callback has not run when the call returns, and does not
    run later, in whichever order the pending leaves complete. *)
Definition never_invoked (callback : bool) (st : Restoring) : Prop :=
  callbacks (trace st) = 0 /\
  forall order, Permutation order (pending (trace st)) ->
                callbacks (trace (complete_later callback order st)) = 0.
End EngineVocabulary.

Section Achieves.
Context {S C C' H H' T T' X X' : Type}.
Variable m : TreeMapper S C C' H H' T T' X X'.
Variable R : S -> S -> Prop.
Variable Q : S -> Leaf C H T -> Leaf C' H' T' -> S -> Prop.

(** What a traversal of [t] from the state [st] achieves when every
    transform moves the state along [R] and relates a leaf to its image by
    [Q]: it returns a tree of the same topology whose leaves are the images
    of the leaves of [t], path by path. *)
Definition achieves (t : Tree C H T X) (s : Shape) (p : Path) (st : S) : Prop :=
  exists t' st',
    mapTree m t s p st = (Ok t', st') /\
    R st st' /\
    topology t' = topology t /\
    conforms t' s = true /\
    Forall2 (fun l l' => fst l = fst l' /\ Q st (snd l) (snd l') st')
            (leaves t p) (leaves t' p).
End Achieves.

(* ===================================================================== *)
(** ** Concrete exercises *)
(* ===================================================================== *)

(** Scores are earned/total pairs combined by pairwise sum; a score handed
    to the caller keeps the guess it was combined with. *)
Definition ex_combineScores (a b : nat * nat) : nat * nat :=
  (fst a + fst b, snd a + snd b).

Definition ex_keScore (score : nat * nat) (guess : @GuessValue nat)
  : (nat * nat) * @GuessValue nat :=
  (score, guess).

Definition ex_props (i : @Item nat nat nat) (s : Shape) : @Props nat nat nat nat :=
  {| item := i; shape := s; children := fun _ => ENull; otherProps := 0 |}.

(** Two content leaves; the same value under another identity; two hint
    leaves; and an item that is an array where a content leaf is expected. *)
Definition ex_pair : @Item nat nat nat :=
  {| item_ref := 1; item_value := IArray [IContent 10; IContent 20] |}.

Definition ex_pair_again : @Item nat nat nat :=
  {| item_ref := 2; item_value := IArray [IContent 10; IContent 20] |}.

Definition ex_hints : @Item nat nat nat :=
  {| item_ref := 3; item_value := IArray [IHint 30; IHint 40] |}.

(** A mounted leaf with the given widgets and score, whose restoration
    completes as [completion] says. *)
Definition ex_leaf (widgets : list nat) (score : nat * nat) (completion : Completion)
  : @Renderer nat nat (nat * nat) nat :=
  {| findInternalWidgets := fun criterion => List.filter (Nat.leb criterion) widgets;
     guessAndScore := (fst score, score);
     leaf_score := score;
     getUserInput := fst score;
     leaf_getSerializedState := JNumber (Z.of_nat (fst score));
     leaf_restoreSerializedState := fun _ => completion |}.

(** The component constructed for the given props. *)
Definition ex_constructed (p : @Props nat nat nat nat)
  : @World nat nat nat nat nat nat (nat * nat) nat :=
  let r := constructor p empty_store in
  {| component :=
       match fst r with
       | Ok this => this
       | Throw e =>
           {| props := p;
              state := {| rendererDataTree := None; renderError := Some e |} |}
       end;
     store := snd r |}.

(** The [ref] callback of the content cell [data] is called with [e]. *)
Definition ex_mount (data : addr) (e : option (@Renderer nat nat (nat * nat) nat))
    (w : @World nat nat nat nat nat nat (nat * nat) nat)
  : @World nat nat nat nat nat nat (nat * nat) nat :=
  {| component := component w; store := set_ref data e (store w) |}.

(** Both content leaves mounted, their restorations completing during the
    call that starts them. *)
Definition ex_world_sync : @World nat nat nat nat nat nat (nat * nat) nat :=
  ex_mount 1 (Some (ex_leaf [3; 7] (0, 1) Synchronously))
    (ex_mount 0 (Some (ex_leaf [5; 9] (1, 1) Synchronously))
       (ex_constructed (ex_props ex_pair (ArrayShape ContentShape)))).

(** The same with restorations that complete at a later tick. *)
Definition ex_world_later : @World nat nat nat nat nat nat (nat * nat) nat :=
  ex_mount 1 (Some (ex_leaf [3; 7] (0, 1) Later))
    (ex_mount 0 (Some (ex_leaf [5; 9] (1, 1) Later))
       (ex_constructed (ex_props ex_pair (ArrayShape ContentShape)))).

(** Two hint leaves. *)
Definition ex_world_hints : @World nat nat nat nat nat nat (nat * nat) nat :=
  ex_constructed (ex_props ex_hints (ArrayShape HintShape)).

(** An item that does not have the topology of the shape: one content node
    where the shape says an array. *)
Definition ex_single : @Item nat nat nat :=
  {| item_ref := 6; item_value := IContent 10 |}.

Definition ex_world_errored : @World nat nat nat nat nat nat (nat * nat) nat :=
  ex_constructed (ex_props ex_single (ArrayShape ContentShape)).

(* ===================================================================== *)
(** ** The text-input widget ([widgets/text-input.jsx],
       [widgets/text-input-editor.jsx]) *)
(* ===================================================================== *)

(** A grading result: [{type: "invalid", message}] or
    [{type: "points", earned, total, message}]. *)
Inductive Validation : Type :=
| Invalid (message : string)
| Points (earned total : nat) (message : option string).

(** What the editor serializes and the grader reads.  The tolerance is the
    number typed into the editor's number input; [gradingRegex] may be
    missing. *)
Record Rubric : Type := {
  answer : string;
  editDistance : QArith_base.Q;
  gradingRegex : option string
}.

(** The props of the widget: [value] is a string, or null / undefined. *)
Record TextInputProps : Type := { value : option string }.

(** [TextInputEditor.getDefaultProps] *)
Definition editor_getDefaultProps : Rubric :=
  {| answer := EmptyString;
     editDistance := QArith_base.inject_Z 0;
     gradingRegex := Some EmptyString |}.

(** [TextInputWidget.getDefaultProps] *)
Definition getDefaultProps : TextInputProps := {| value := Some EmptyString |}.

(** [TextInput.render]: the value shown in the input, [props.value || ""]. *)
Definition input_value (props : TextInputProps) : string :=
  match value props with
  | Some v => v
  | None => EmptyString
  end.

(** [if (rubric.gradingRegex)]: a non-empty string. *)
Definition has_gradingRegex (rubric : Rubric) : option string :=
  match gradingRegex rubric with
  | Some EmptyString | None => None
  | Some source => Some source
  end.

Section TextInput.
(** [calcEditDistance(a, b).steps] of the damerau-levenshtein package, and
    [new RegExp(source).test(value)], which throws on a malformed source. *)
Variable calcEditDistance : string -> string -> nat.
Variable RegExp_test : string -> string -> result bool.

Definition validate (userInput : option string) (rubric : Rubric)
  : result Validation :=
  match userInput with
  | None | Some EmptyString =>
      Ok (Invalid
            "It looks like you haven't answered all of the question yet.")
  | Some v =>
      let steps := calcEditDistance (answer rubric) v in
      let correct :=
        QArith_base.Qle_bool (QArith_base.inject_Z (Z.of_nat steps))
                             (editDistance rubric) in
      let graded :=
        match negb correct, has_gradingRegex rubric with
        | true, Some source => RegExp_test source v
        | _, _ => Ok correct
        end in
      match graded with
      | Ok true => Ok (Points 1 1 None)
      | Ok false => Ok (Points 0 1 None)
      | Throw e => Throw e
      end
  end.

Definition getUserInput_widget (props : TextInputProps) : option string :=
  value props.

Definition simpleValidate (props : TextInputProps) (rubric : Rubric)
  : result Validation :=
  validate (getUserInput_widget props) rubric.
End TextInput.

(* ===================================================================== *)
(** ** Vocabulary of the further statements *)
(* ===================================================================== *)

(** The restorations handed out, in order: each leaf's cell with the state
    it was handed. *)
Definition restorations (tr : list Event) : list (addr * JSValue) :=
  flat_map (fun ev => match ev with
                      | Dispatched data leafState => [(data, leafState)]
                      | _ => []
                      end) tr.

(** The counter tells how many restorations are outstanding: those handed
    out minus those completed. *)
Definition counter_ok (st : Restoring) : Prop :=
  numCallbacks st =
  (Z.of_nat (length (restored (trace st))) -
   Z.of_nat (length (completed (trace st))))%Z.

(** A serialized-state tree as the plain JavaScript value it is: a leaf is
    its state or [null], an array is the array of its elements. *)
Fixpoint serialized_value (t : Tree (option JSValue) (option JSValue) unit Empty_set)
  : JSValue :=
  match t with
  | Content v | Hint v =>
      match v with
      | Some leafState => leafState
      | None => JNull
      end
  | Tags _ => JNull
  | Array _ children => JArray (map serialized_value children)
  end.

Section FurtherVocabulary.
Context {ContentNode HintNode TagsNode RendererProps : Type}.
Context {WidgetRef Criterion Score Guess : Type}.
Abbreviation RendererData :=
  (@RendererData ContentNode HintNode RendererProps WidgetRef Criterion Score Guess).

(** The mounted leaves that have a truthy value at their path in the state
    tree, each with that value, in pre-order. *)
Definition dispatched_states (heap : list RendererData) (serializedState : JSValue)
    (l : list (Path * Leaf addr addr unit)) : list (addr * JSValue) :=
  flat_map
    (fun leaf =>
       match leaf with
       | (p, LContent data) | (p, LHint data) =>
           match ref_of heap data with
           | Some _ =>
               if truthy (lens_get serializedState p)
               then [(data, lens_get serializedState p)]
               else []
           | None => []
           end
       | (_, LTags _) => []
       end) l.

(** The mounted cells whose own serialized state is truthy, each with that
    state, in the order of the cells. *)
Definition own_states (heap : list RendererData) (l : list addr)
  : list (addr * JSValue) :=
  flat_map
    (fun data =>
       match ref_of heap data with
       | Some r =>
           if truthy (leaf_getSerializedState r)
           then [(data, leaf_getSerializedState r)]
           else []
       | None => []
       end) l.

(** The cell [_makeContentRendererData] makes at the address [data], and the
    cell [_makeHintRendererData] makes. *)
Definition content_cell_made (rp : RendererProps) (c : ContentNode) (data : addr)
  : RendererData :=
  {| renderer := ERenderer rp c data; ref := None; hint := None |}.

Definition hint_cell_made (rp : RendererProps) (h : HintNode) : RendererData :=
  {| renderer := EHintsRenderer rp [Some h] None; ref := None; hint := Some h |}.

(** The cells made for the leaves of an item, in the order of the leaves,
    the first at the address [base]: one for each content and hint leaf,
    none for a tags leaf. *)
Fixpoint cells_for (rp : RendererProps) (base : nat)
    (l : list (Path * Leaf ContentNode HintNode TagsNode)) : list RendererData :=
  match l with
  | [] => []
  | (_, LContent c) :: rest =>
      content_cell_made rp c base :: cells_for rp (Datatypes.S base) rest
  | (_, LHint h) :: rest =>
      hint_cell_made rp h :: cells_for rp (Datatypes.S base) rest
  | (_, LTags _) :: rest => cells_for rp base rest
  end.

(** The leaves of the tree of cells made for those leaves. *)
Fixpoint leaves_for (base : nat)
    (l : list (Path * Leaf ContentNode HintNode TagsNode))
  : list (Path * Leaf addr addr unit) :=
  match l with
  | [] => []
  | (p, LContent _) :: rest => (p, LContent base) :: leaves_for (Datatypes.S base) rest
  | (p, LHint _) :: rest => (p, LHint base) :: leaves_for (Datatypes.S base) rest
  | (p, LTags _) :: rest => (p, LTags tt) :: leaves_for base rest
  end.

(** The store after the cells of the leaves [l] have been made. *)
Definition with_cells_for (rp : RendererProps)
    (l : list (Path * Leaf ContentNode HintNode TagsNode))
    (st : @Store ContentNode HintNode RendererProps WidgetRef Criterion Score Guess)
  : @Store ContentNode HintNode RendererProps WidgetRef Criterion Score Guess :=
  {| cells := cells st ++ cells_for rp (length (cells st)) l;
     console := console st |}.

(** A cell at the address [data] as the engine makes and keeps them: a
    content cell, whose element closes over the cell itself, or a hint cell,
    whose element shows the cell's hint and which has no back-reference. *)
Definition cell_as_made (data : addr) (cell : RendererData) : Prop :=
  (hint cell = None /\ exists rp c, renderer cell = ERenderer rp c data) \/
  (ref cell = None /\
   exists rp h, renderer cell = EHintsRenderer rp [Some h] None /\ hint cell = Some h).

(** The props an element was created with. *)
Definition element_props (e : @ReactElement ContentNode HintNode RendererProps)
  : option RendererProps :=
  match e with
  | ERenderer rp _ _ | EHintsRenderer rp _ _ => Some rp
  | _ => None
  end.
End FurtherVocabulary.

(* ===================================================================== *)
(** ** Concrete exercises for the further statements *)
(* ===================================================================== *)

(** A stand-in for the distance of the [damerau-levenshtein] package:
    substitutions position by position, plus the difference in length. *)
Fixpoint ex_calcEditDistance (a b : string) : nat :=
  match a, b with
  | EmptyString, _ => String.length b
  | _, EmptyString => String.length a
  | String x a', String y b' =>
      (if Ascii.eqb x y then 0 else 1) + ex_calcEditDistance a' b'
  end.

(** Two stand-ins for [new RegExp(source).test(value)]: one that matches
    the source literally, and one for which every source is malformed. *)
Definition ex_RegExp_test (source v : string) : result bool :=
  Ok (String.eqb source v).

Definition ex_RegExp_throws (source v : string) : result bool :=
  Throw (TypeError "Invalid regular expression").

(** The answer [cat] with the given letter tolerance and regex. *)
Definition ex_rubric (tolerance : Z) (regex : option string) : Rubric :=
  {| answer := "cat"%string;
     editDistance := QArith_base.inject_Z tolerance;
     gradingRegex := regex |}.

(** Props that bring a new item together with other props. *)
Definition ex_next_props : @Props nat nat nat nat :=
  {| item := ex_pair_again;
     shape := ArrayShape ContentShape;
     children := fun _ => ENull;
     otherProps := 7 |}.

(** What a call returned, for a call that returned. *)
Definition returned {A : Type} (r : result A) (default : A) : A :=
  match r with
  | Ok a => a
  | Throw _ => default
  end.

Section MapperVocabulary.
Context {S C C' H H' T T' X X' : Type}.

(** Two mappers do the same at a leaf, whatever the shape and the state. *)
Definition mappers_agree_at (m m' : TreeMapper S C C' H H' T T' X X')
    (l : Path * Leaf C H T) : Prop :=
  match l with
  | (q, LContent c) =>
      forall s st, contentMapper (leafMappers m) c s q st =
                   contentMapper (leafMappers m') c s q st
  | (q, LHint h) =>
      forall s st, hintMapper (leafMappers m) h s q st =
                   hintMapper (leafMappers m') h s q st
  | (q, LTags t) =>
      forall s st, tagsMapper (leafMappers m) t s q st =
                   tagsMapper (leafMappers m') t s q st
  end.
End MapperVocabulary.

(** The component of [ex_world_sync] after it has received the new item:
    the cells 0 and 1 of the previous tree are still in the heap, mounted,
    and the new tree has the cells 2 and 3. *)
Definition ex_world_rebuilt : @World nat nat nat nat nat nat (nat * nat) nat :=
  let r := receiveProps (component ex_world_sync) ex_next_props (store ex_world_sync) in
  {| component := returned (fst r) (component ex_world_sync); store := snd r |}.

(** The component of [ex_world_sync] after it has received the same item
    with another shape: the tree of the two mounted leaves is kept, and the
    shape now says an array of arrays of content leaves. *)
Definition ex_world_reshaped : @World nat nat nat nat nat nat (nat * nat) nat :=
  let r := receiveProps (component ex_world_sync)
                        (ex_props ex_pair (ArrayShape (ArrayShape ContentShape)))
                        (store ex_world_sync) in
  {| component := returned (fst r) (component ex_world_sync); store := snd r |}.

(** An item that is one tags leaf, and the component constructed for it. *)
Definition ex_tags : @Item nat nat nat :=
  {| item_ref := 4; item_value := ITags 50 |}.

Definition ex_world_tags : @World nat nat nat nat nat nat (nat * nat) nat :=
  ex_constructed (ex_props ex_tags TagsShape).

(** An item whose second element is a content node where the shape, an
    array of arrays of content leaves, says an array. *)
Definition ex_broken : @Item nat nat nat :=
  {| item_ref := 5; item_value := IArray [IArray [IContent 10]; IContent 20] |}.

(* ===================================================================== *)
(** ** Properties of the mapper *)
(* ===================================================================== *)

Section MapTreePure.
Context {S C C' H H' T T' X X' : Type}.
Variable m : TreeMapper S C C' H H' T T' X X'.
Variable fc : C -> Path -> C'.
Variable fh : H -> Path -> H'.
Variable ft : T -> Path -> T'.
Variable fa : list (Tree C H T X) -> Shape -> option X'.
Variable uc : C -> Path -> S -> S.
Variable uh : H -> Path -> S -> S.
Variable ut : T -> Path -> S -> S.

(** The transforms return without throwing; what they return does not
    depend on the state, which each leaf transform may update. *)
Hypothesis content_runs : forall c s p st,
  contentMapper (leafMappers m) c s p st = (Ok (fc c p), uc c p st).
Hypothesis hint_runs : forall h s p st,
  hintMapper (leafMappers m) h s p st = (Ok (fh h p), uh h p st).
Hypothesis tags_runs : forall t s p st,
  tagsMapper (leafMappers m) t s p st = (Ok (ft t p), ut t p st).
Hypothesis array_runs : forall mapped originals es p st,
  arrayMapper m mapped originals (ArrayShape es) p st =
  (Ok (fa originals (ArrayShape es), mapped), st).

Lemma map_elements_pure (es : Shape) (path : Path) (children : list (Tree C H T X)) :
  Forall (fun t => forall s p st, conforms t s = true ->
            mapTree m t s p st =
            (Ok (tmap fc fh ft fa t s p),
             fold_left (leaf_effect uc uh ut) (leaves t p) st)) children ->
  forallb (fun inner => conforms inner es) children = true ->
  forall i st,
    map_elements (fun inner i => mapTree m inner es (path ++ [i])) children i st =
    (Ok (mapi (fun inner i => tmap fc fh ft fa inner es (path ++ [i])) children i),
     fold_left (leaf_effect uc uh ut)
               (flat_mapi (fun inner i => leaves inner (path ++ [i])) children i) st).
Proof.
  induction 1 as [|t rest Ht _ IH]; intros Hall i st; simpl in *.
  - reflexivity.
  - apply andb_true_iff in Hall as [Hconf Hrest].
    unfold bind at 1. rewrite (Ht _ _ _ Hconf).
    unfold bind at 1. rewrite (IH Hrest).
    unfold ret. by rewrite fold_left_app.
Qed.

(** A traversal of a conforming tree returns the tree of the leaves'
    results and has visited the leaves in pre-order. *)
Lemma mapTree_pure (t : Tree C H T X) : forall s p st,
  conforms t s = true ->
  mapTree m t s p st =
  (Ok (tmap fc fh ft fa t s p), fold_left (leaf_effect uc uh ut) (leaves t p) st).
Proof using content_runs hint_runs tags_runs array_runs.
  induction t as [c|h|v|x children IH] using Tree_rose_ind;
    intros s p st Hconf; destruct s; simpl in Hconf; try discriminate; simpl.
  - unfold bind. by rewrite content_runs.
  - unfold bind. by rewrite hint_runs.
  - unfold bind. by rewrite tags_runs.
  - unfold bind at 1. rewrite (@map_elements_pure s p children IH Hconf).
    unfold bind. by rewrite array_runs.
Qed.
End MapTreePure.

Section PureMapFacts.
Context {C C' H H' T T' X X' : Type}.
Variable fc : C -> Path -> C'.
Variable fh : H -> Path -> H'.
Variable ft : T -> Path -> T'.
Variable fa : list (Tree C H T X) -> Shape -> option X'.

Lemma map_mapi {A B D : Type} (g : B -> D) (f : A -> nat -> B) (l : list A) :
  forall i, map g (mapi f l i) = mapi (fun a i => g (f a i)) l i.
Proof. induction l as [|a l IH]; intros i; simpl; [done|]. by rewrite IH. Qed.

Lemma mapi_const {A B : Type} (f : A -> B) (l : list A) :
  forall i, mapi (fun a _ => f a) l i = map f l.
Proof. induction l as [|a l IH]; intros i; simpl; [done|]. by rewrite IH. Qed.

Lemma mapi_ext_Forall {A B : Type} (f g : A -> nat -> B) (l : list A) :
  Forall (fun a => forall i, f a i = g a i) l ->
  forall i, mapi f l i = mapi g l i.
Proof. induction 1 as [|a l Ha _ IH]; intros i; simpl; [done|]. by rewrite Ha, IH. Qed.

Lemma flat_mapi_mapi {A B D : Type} (g : B -> nat -> list D) (f : A -> nat -> B)
      (l : list A) :
  forall i, flat_mapi g (mapi f l i) i = flat_mapi (fun a i => g (f a i) i) l i.
Proof. induction l as [|a l IH]; intros i; simpl; [done|]. by rewrite IH. Qed.

Lemma flat_mapi_ext_Forall {A B : Type} (f g : A -> nat -> list B) (l : list A) :
  Forall (fun a => forall i, f a i = g a i) l ->
  forall i, flat_mapi f l i = flat_mapi g l i.
Proof. induction 1 as [|a l Ha _ IH]; intros i; simpl; [done|]. by rewrite Ha, IH. Qed.

Lemma map_flat_mapi {A B D : Type} (g : B -> D) (f : A -> nat -> list B) (l : list A) :
  forall i, map g (flat_mapi f l i) = flat_mapi (fun a i => map g (f a i)) l i.
Proof.
  induction l as [|a l IH]; intros i; simpl; [done|]. by rewrite map_app, IH.
Qed.

(** Mapping keeps the topology. *)
Lemma topology_tmap (t : Tree C H T X) :
  forall s p, topology (tmap fc fh ft fa t s p) = topology t.
Proof.
  induction t as [c|h|v|x children IH] using Tree_rose_ind; intros s p; simpl;
    try reflexivity.
  f_equal. rewrite map_mapi.
  rewrite (mapi_ext_Forall (g := fun a _ => topology a)).
  - apply mapi_const.
  - eapply Forall_impl; [exact IH|]. intros a Ha i. apply Ha.
Qed.

(** Mapping keeps the leaves in place: the leaves of the result are the
    images of the leaves, path by path. *)
Lemma leaves_tmap (t : Tree C H T X) :
  forall s p,
    leaves (tmap fc fh ft fa t s p) p = map (leaf_map fc fh ft) (leaves t p).
Proof.
  induction t as [c|h|v|x children IH] using Tree_rose_ind; intros s p; simpl;
    try reflexivity.
  rewrite flat_mapi_mapi, map_flat_mapi.
  apply flat_mapi_ext_Forall.
  eapply Forall_impl; [exact IH|]. intros a Ha i. apply Ha.
Qed.

Lemma conforms_tmap (t : Tree C H T X) :
  forall s p, conforms (tmap fc fh ft fa t s p) s = conforms t s.
Proof.
  induction t as [c|h|v|x children IH] using Tree_rose_ind; intros s p; simpl;
    destruct s; try reflexivity; simpl.
  generalize 0. induction IH as [|a l Ha _ IHl]; intros i; simpl; [done|].
  by rewrite Ha, IHl.
Qed.
End PureMapFacts.

(* ===================================================================== *)
(** ** Properties of the engine *)
(* ===================================================================== *)

Section Traversals.
Context {ContentNode HintNode TagsNode RendererProps : Type}.
Context {WidgetRef Criterion Score Guess KEScore : Type}.
Abbreviation MultiRenderer := (@MultiRenderer ContentNode HintNode TagsNode RendererProps).
Abbreviation RendererData :=
  (@RendererData ContentNode HintNode RendererProps WidgetRef Criterion Score Guess).

(** Without a cached tree a traversal visits nothing and returns [null]. *)
Lemma _mapRenderers_errored {S O X' : Type} (this : MultiRenderer)
      (leafMapper : addr -> Shape -> Path -> M S O)
      (arrayMapper : option (ArrayMapper S addr O addr O unit unit Empty_set X'))
      (st : S) :
  rendererDataTree (state this) = None ->
  _mapRenderers this leafMapper arrayMapper st = (Ok None, st).
Proof. intros Hnone. unfold _mapRenderers. by rewrite Hnone. Qed.

(** With a cached tree that conforms to the shape, a traversal applies the
    leaf function to the cell of every content and hint leaf, in pre-order,
    and leaves the tags leaves as they are. *)
Lemma _mapRenderers_ready {S O X' : Type} (this : MultiRenderer)
      (leafMapper : addr -> Shape -> Path -> M S O)
      (f : addr -> Path -> O) (u : addr -> Path -> S -> S)
      (tree : RendererDataTree) (st : S) :
  (forall data s p st, leafMapper data s p st = (Ok (f data p), u data p st)) ->
  rendererDataTree (state this) = Some tree ->
  conforms tree (shape (props this)) = true ->
  _mapRenderers (X':=X') this leafMapper None st =
  (Ok (Some (tmap f f (fun v _ => v) plain tree (shape (props this)) [])),
   fold_left (leaf_effect u u (fun _ _ st => st)) (leaves tree []) st).
Proof.
  intros Hleaf Htree Hconf. unfold _mapRenderers. rewrite Htree.
  unfold bind.
  rewrite (mapTree_pure (fc:=f) (fh:=f) (ft:=fun v _ => v) (fa:=plain)
                        (uc:=u) (uh:=u) (ut:=fun _ _ st => st)); try done.
Qed.

Lemma _mapRenderers_annotating {S O X' : Type} (this : MultiRenderer)
      (leafMapper : addr -> Shape -> Path -> M S O)
      (arrayMapper : ArrayMapper S addr O addr O unit unit Empty_set X')
      (f : addr -> Path -> O) (fa : list RendererDataTree -> Shape -> option X')
      (tree : RendererDataTree) (st : S) :
  (forall data s p st, leafMapper data s p st = (Ok (f data p), st)) ->
  (forall mapped originals es p st,
      arrayMapper mapped originals (ArrayShape es) p st =
      (Ok (fa originals (ArrayShape es), mapped), st)) ->
  rendererDataTree (state this) = Some tree ->
  conforms tree (shape (props this)) = true ->
  _mapRenderers this leafMapper (Some arrayMapper) st =
  (Ok (Some (tmap f f (fun v _ => v) fa tree (shape (props this)) [])), st).
Proof.
  intros Hleaf Harr Htree Hconf. unfold _mapRenderers. rewrite Htree.
  unfold bind.
  rewrite (mapTree_pure (fc:=f) (fh:=f) (ft:=fun v _ => v) (fa:=fa)
                        (uc:=fun _ _ st => st) (uh:=fun _ _ st => st)
                        (ut:=fun _ _ st => st)); try done.
  f_equal. generalize (leaves tree []). intros l.
  induction l as [|[p [c|h|v]] l IH]; simpl; done.
Qed.
End Traversals.

Section Discovery.
Context {ContentNode HintNode TagsNode RendererProps : Type}.
Context {WidgetRef Criterion Score Guess : Type}.
Abbreviation MultiRenderer := (@MultiRenderer ContentNode HintNode TagsNode RendererProps).
Abbreviation RendererData :=
  (@RendererData ContentNode HintNode RendererProps WidgetRef Criterion Score Guess).

(** What [_findWidgets] does at one leaf. *)
Lemma findWidgets_fold (heap : list RendererData) (callingData : addr)
      (criterion : Criterion) (l : list (Path * Leaf addr addr unit)) :
  forall results : list WidgetRef,
    fold_left
      (leaf_effect
         (fun data (_ : Path) results =>
            match ref_of heap data with
            | Some r => if negb (callingData =? data)
                        then results ++ findInternalWidgets r criterion
                        else results
            | None => results
            end)
         (fun data (_ : Path) results =>
            match ref_of heap data with
            | Some r => if negb (callingData =? data)
                        then results ++ findInternalWidgets r criterion
                        else results
            | None => results
            end)
         (fun (_ : unit) (_ : Path) results => results))
      l results =
    results ++
    flat_map (fun r => findInternalWidgets r criterion)
             (mounted heap (others callingData (omap cell_of l))).
Proof.
  induction l as [|[p [data|data|v]] l IH]; intros results; simpl.
  - by rewrite app_nil_r.
  - rewrite IH. unfold mounted. simpl.
    destruct (negb (callingData =? data)); simpl.
    + destruct (ref_of heap data); simpl; [by rewrite <- app_assoc|done].
    + by destruct (ref_of heap data).
  - rewrite IH. unfold mounted. simpl.
    destruct (negb (callingData =? data)); simpl.
    + destruct (ref_of heap data); simpl; [by rewrite <- app_assoc|done].
    + by destruct (ref_of heap data).
  - apply IH.
Qed.

Lemma mounted_agree (heap heap' : list RendererData) (l : list addr) :
  Forall (fun data => heap' !! data = heap !! data) l ->
  mounted heap' l = mounted heap l.
Proof.
  induction 1 as [|data l Hd _ IH]; [done|].
  unfold mounted in *. simpl.
  replace (ref_of heap' data) with (ref_of heap data)
    by (unfold ref_of; by rewrite Hd).
  destruct (ref_of heap data); [f_equal|]; exact IH.
Qed.

Lemma others_spec (callingData : addr) (l : list addr) :
  Forall (fun data => data <> callingData) (others callingData l).
Proof.
  unfold others. apply List.Forall_forall. intros data Hin.
  apply filter_In in Hin as [_ Hne].
  apply negb_true_iff, Nat.eqb_neq in Hne. congruence.
Qed.

(** [_findWidgets] on a cached tree that conforms to the shape. *)
Lemma _findWidgets_ready (this : MultiRenderer) (heap : list RendererData)
      (tree : RendererDataTree) (callingData : addr) (criterion : Criterion) :
  rendererDataTree (state this) = Some tree ->
  conforms tree (shape (props this)) = true ->
  _findWidgets this heap callingData criterion (WidgetRef:=WidgetRef) =
  Ok (flat_map (fun r => findInternalWidgets r criterion)
               (mounted heap (others callingData (leaf_cells tree)))).
Proof.
  intros Htree Hconf. unfold _findWidgets, run_local.
  erewrite _mapRenderers_ready with (f := fun _ _ => tt); [| |exact Htree|exact Hconf].
  - by rewrite findWidgets_fold.
  - intros data s p st. simpl.
    destruct (ref_of heap data); [|done].
    by destruct (negb (callingData =? data)).
Qed.

(** C3, amended.  For every cached tree that conforms to the current
    shape, [findExternalWidgets(cellA, criterion)] returns the
    concatenation, in tree pre-order, of [findInternalWidgets(criterion)] of
    the instance of every leaf whose back-reference is non-null, the calling
    cell's own leaf left out; and the result does not depend on what the
    calling cell holds, so nothing in it is contributed by the calling
    cell. *)
Theorem findExternalWidgets_concatenates_the_others
        (this : MultiRenderer) (heap : list RendererData) (tree : RendererDataTree)
        (cellA : addr) (criterion : Criterion) :
  rendererDataTree (state this) = Some tree ->
  conforms tree (shape (props this)) = true ->
  _findWidgets this heap cellA criterion (WidgetRef:=WidgetRef) =
    Ok (flat_map (fun r => findInternalWidgets r criterion)
                 (mounted heap (others cellA (leaf_cells tree)))) /\
  forall heap' : list RendererData,
    (forall data, data <> cellA -> heap' !! data = heap !! data) ->
    _findWidgets this heap' cellA criterion = _findWidgets this heap cellA criterion.
Proof.
  intros Htree Hconf. split; [by apply _findWidgets_ready|].
  intros heap' Hagree. rewrite !(_findWidgets_ready _ _ _ Htree Hconf).
  f_equal. f_equal. apply mounted_agree.
  eapply Forall_impl; [apply others_spec|]. simpl. intros data Hne. by apply Hagree.
Qed.
End Discovery.

Section Scores.
Context {ContentNode HintNode TagsNode RendererProps : Type}.
Context {WidgetRef Criterion Score Guess KEScore : Type}.
Variable combineScores : Score -> Score -> Score.
Variable keScoreFromPerseusScore : Score -> @GuessValue Guess -> KEScore.
Abbreviation MultiRenderer := (@MultiRenderer ContentNode HintNode TagsNode RendererProps).
Abbreviation RendererData :=
  (@RendererData ContentNode HintNode RendererProps WidgetRef Criterion Score Guess).

Lemma score_fold (heap : list RendererData) (l : list (Path * Leaf addr addr unit)) :
  forall scores : list Score,
    fold_left
      (leaf_effect
         (fun data (_ : Path) scores =>
            match ref_of heap data with
            | Some r => scores ++ [leaf_score r]
            | None => scores
            end)
         (fun data (_ : Path) scores =>
            match ref_of heap data with
            | Some r => scores ++ [leaf_score r]
            | None => scores
            end)
         (fun (_ : unit) (_ : Path) scores => scores))
      l scores =
    scores ++ map leaf_score (mounted heap (omap cell_of l)).
Proof.
  induction l as [|[p [data|data|v]] l IH]; intros scores; simpl.
  - by rewrite app_nil_r.
  - rewrite IH. unfold mounted. simpl.
    destruct (ref_of heap data); simpl; [by rewrite <- app_assoc|done].
  - rewrite IH. unfold mounted. simpl.
    destruct (ref_of heap data); simpl; [by rewrite <- app_assoc|done].
  - apply IH.
Qed.

(** The traversal of [score] collects the scores of the mounted leaves in
    pre-order and returns the tree of their guesses. *)
Lemma score_traversal_ready (this : MultiRenderer) (heap : list RendererData)
      (tree : RendererDataTree) :
  rendererDataTree (state this) = Some tree ->
  conforms tree (shape (props this)) = true ->
  run_local (score_traversal this heap) [] =
  Ok (Some (tmap (guess_of heap) (guess_of heap) (fun v _ => v) plain
                 tree (shape (props this)) []),
      map leaf_score (mounted heap (leaf_cells tree))).
Proof.
  intros Htree Hconf. unfold run_local, score_traversal.
  erewrite _mapRenderers_ready with (f := guess_of heap);
    [| |exact Htree|exact Hconf].
  - by rewrite score_fold.
  - intros data s p st. unfold guess_of. simpl.
    by destruct (ref_of heap data).
Qed.

Lemma score_traversal_errored (this : MultiRenderer) (heap : list RendererData) :
  rendererDataTree (state this) = None ->
  run_local (score_traversal this heap) [] = Ok (None, []).
Proof.
  intros Hnone. unfold run_local, score_traversal.
  by rewrite _mapRenderers_errored.
Qed.

(** With at least one mounted leaf, [score] is the left fold of the leaves'
    scores through [combineScores], next to the tree of guesses. *)
Lemma score_of_mounted_leaves (this : MultiRenderer) (heap : list RendererData)
      (tree : RendererDataTree) (first : Score) (rest : list Score) :
  rendererDataTree (state this) = Some tree ->
  conforms tree (shape (props this)) = true ->
  map leaf_score (mounted heap (leaf_cells tree)) = first :: rest ->
  score combineScores keScoreFromPerseusScore this heap =
  Ok (keScoreFromPerseusScore
        (fold_left combineScores rest first)
        (GTree (Some (tmap (guess_of heap) (guess_of heap) (fun v _ => v) plain
                           tree (shape (props this)) [])))).
Proof.
  intros Htree Hconf Hscores. unfold score.
  rewrite (score_traversal_ready heap Htree Hconf), Hscores. reflexivity.
Qed.

(** C1, on the code.  When no score is collected -- the engine is in the
    Errored state, or no leaf of the cached tree has a back-reference --
    [score()] does not return the identity score: [scores.reduce] is called
    on an empty array without an initial value and throws a [TypeError]. *)
Theorem score_without_scores_throws (this : MultiRenderer) (heap : list RendererData) :
  rendererDataTree (state this) = None \/
  (exists tree, rendererDataTree (state this) = Some tree /\
                conforms tree (shape (props this)) = true /\
                mounted heap (leaf_cells tree) = []) ->
  score combineScores keScoreFromPerseusScore this heap =
  Throw (TypeError "Reduce of empty array with no initial value").
Proof.
  intros [Hnone | (tree & Htree & Hconf & Hunmounted)]; unfold score.
  - by rewrite (score_traversal_errored heap Hnone).
  - by rewrite (score_traversal_ready heap Htree Hconf), Hunmounted.
Qed.
End Scores.

Section MapTreeSucceeds.
Context {S C C' H H' T T' X X' : Type}.
Variable m : TreeMapper S C C' H H' T T' X X'.

Lemma map_elements_ok_conforms (es : Shape) (path : Path)
      (children : list (Tree C H T X)) :
  Forall (fun t => forall s p st t' st',
            mapTree m t s p st = (Ok t', st') -> conforms t s = true) children ->
  forall i st mapped st',
    map_elements (fun inner i => mapTree m inner es (path ++ [i])) children i st =
      (Ok mapped, st') ->
    forallb (fun inner => conforms inner es) children = true.
Proof.
  induction 1 as [|t rest Ht _ IH]; intros i st mapped st' Hrun; simpl in *; [done|].
  unfold bind at 1 in Hrun.
  destruct (mapTree m t es (path ++ [i]) st) as [[t'|e] st1] eqn:Hhead; [|done].
  unfold bind at 1 in Hrun.
  destruct (map_elements _ rest (Datatypes.S i) st1) as [[ts|e] st2] eqn:Htail; [|done].
  apply andb_true_iff. split; [by eapply Ht|by eapply IH].
Qed.

(** A traversal that returns has found the tree conforming to the shape. *)
Lemma mapTree_ok_conforms (t : Tree C H T X) : forall s p st t' st',
  mapTree m t s p st = (Ok t', st') -> conforms t s = true.
Proof.
  induction t as [c|h|v|x children IH] using Tree_rose_ind;
    intros s p st t' st' Hrun; destruct s; simpl in *; try done.
  unfold bind at 1 in Hrun.
  destruct (map_elements _ children 0 st) as [[ts|e] st1] eqn:Hkids; [|done].
  by eapply map_elements_ok_conforms.
Qed.
End MapTreeSucceeds.

Section Restoration.
Context {ContentNode HintNode TagsNode RendererProps : Type}.
Context {WidgetRef Criterion Score Guess : Type}.
Abbreviation MultiRenderer := (@MultiRenderer ContentNode HintNode TagsNode RendererProps).
Abbreviation RendererData :=
  (@RendererData ContentNode HintNode RendererProps WidgetRef Criterion Score Guess).
Abbreviation Renderer := (@Renderer WidgetRef Criterion Score Guess).

Lemma restore_errored (this : MultiRenderer) (heap : list RendererData)
      (serializedState : JSValue) (callback : bool) :
  rendererDataTree (state this) = None ->
  restoreSerializedState this heap serializedState callback = Ok restore_start.
Proof.
  intros Hnone. unfold restoreSerializedState, run_local.
  by rewrite _mapRenderers_errored.
Qed.

(** The call visits the leaves in pre-order and does at each what
    [restore_leaf] says. *)
Lemma restore_ready (this : MultiRenderer) (heap : list RendererData)
      (serializedState : JSValue) (callback : bool) (tree : RendererDataTree) :
  rendererDataTree (state this) = Some tree ->
  conforms tree (shape (props this)) = true ->
  restoreSerializedState this heap serializedState callback =
  Ok (fold_left
        (leaf_effect (restore_leaf heap serializedState callback)
                     (restore_leaf heap serializedState callback)
                     (fun _ _ st => st))
        (leaves tree []) restore_start).
Proof.
  intros Htree Hconf. unfold restoreSerializedState, run_local.
  erewrite _mapRenderers_ready with (f := fun _ _ => tt);
    [reflexivity| |exact Htree|exact Hconf].
  intros data s p st. unfold restore_leaf. simpl.
  destruct (ref_of heap data); [|done].
  by destruct (negb (truthy (lens_get serializedState p))).
Qed.

(** A call that returns found the cached tree, if any, conforming. *)
Lemma restore_ok_inv (this : MultiRenderer) (heap : list RendererData)
      (serializedState : JSValue) (callback : bool) (st : Restoring) :
  restoreSerializedState this heap serializedState callback = Ok st ->
  rendererDataTree (state this) = None \/
  exists tree, rendererDataTree (state this) = Some tree /\
               conforms tree (shape (props this)) = true.
Proof.
  intros Hrun.
  destruct (rendererDataTree (state this)) as [tree|] eqn:Htree; [right|by left].
  exists tree. split; [done|].
  unfold restoreSerializedState, run_local, _mapRenderers in Hrun.
  rewrite Htree in Hrun. unfold bind in Hrun.
  match type of Hrun with
  | context [mapTree ?m ?t ?s ?p ?st0] =>
      destruct (mapTree m t s p st0) as [[t'|e] st1] eqn:Hmap
  end; [|done].
  by eapply mapTree_ok_conforms.
Qed.

Lemma restored_app (tr tr' : list Event) :
  restored (tr ++ tr') = restored tr ++ restored tr'.
Proof. unfold restored. apply flat_map_app. Qed.

Lemma completed_app (tr tr' : list Event) :
  completed (tr ++ tr') = completed tr ++ completed tr'.
Proof. unfold completed. apply flat_map_app. Qed.

Lemma callbacks_app (tr tr' : list Event) :
  callbacks (tr ++ tr') = callbacks tr + callbacks tr'.
Proof. unfold callbacks. by rewrite List.filter_app, length_app. Qed.

(** A leaf that is handed a restoration leaves a [Dispatched] event. *)
Lemma leaf_restore_trace (callback : bool) (data : addr) (r : Renderer)
      (leafState : JSValue) (st : Restoring) :
  exists more,
    trace (leaf_restore callback data r leafState st) =
    trace st ++ Dispatched data leafState :: more.
Proof.
  unfold leaf_restore.
  destruct (leaf_restoreSerializedState r leafState).
  - unfold leaf_completes, countCallback. simpl.
    destruct (callback && _); simpl.
    + exists [Completed data; Callback]. by rewrite <- !app_assoc.
    + exists [Completed data]. by rewrite <- !app_assoc.
  - by exists [].
Qed.

Lemma restore_leaf_cases (heap : list RendererData) (serializedState : JSValue)
      (callback : bool) (data : addr) (path : Path) (st : Restoring) :
  restore_leaf heap serializedState callback data path st = st \/
  exists leafState more,
    trace (restore_leaf heap serializedState callback data path st) =
    trace st ++ Dispatched data leafState :: more.
Proof.
  unfold restore_leaf. destruct (ref_of heap data) as [r|]; [|by left].
  destruct (negb (truthy (lens_get serializedState path))); [by left|right].
  destruct (leaf_restore_trace callback data r (lens_get serializedState path)
              {| numCallbacks := (numCallbacks st + 1)%Z; trace := trace st |})
    as [more Hmore].
  eauto.
Qed.

(** If no leaf was handed a restoration, the call changed nothing. *)
Lemma restore_without_dispatch (heap : list RendererData) (serializedState : JSValue)
      (callback : bool) (l : list (Path * Leaf addr addr unit)) :
  forall st,
    restored (trace (fold_left
                       (leaf_effect (restore_leaf heap serializedState callback)
                                    (restore_leaf heap serializedState callback)
                                    (fun _ _ st => st)) l st)) = [] ->
    fold_left (leaf_effect (restore_leaf heap serializedState callback)
                           (restore_leaf heap serializedState callback)
                           (fun _ _ st => st)) l st = st.
Proof.
  induction l as [|[p leaf] l IH]; intros st Hnone; simpl in *; [done|].
  pose proof (IH _ Hnone) as Heq. rewrite Heq in Hnone. rewrite Heq. clear Heq.
  destruct leaf as [data|data|v]; cbn [leaf_effect] in *; try done.
  all: destruct (restore_leaf_cases heap serializedState callback data p st)
    as [Hsame | (leafState & more & Htrace)]; [done|];
    rewrite Htrace, restored_app in Hnone; simpl in Hnone;
    by apply app_eq_nil in Hnone as [_ ?].
Qed.

(** C9. If a call of [restoreSerializedState] hands no leaf a restoration,
    for whatever reason, the caller's callback is not invoked: not during the
    call and not afterwards. *)
Theorem restore_without_dispatch_never_calls_back
        (this : MultiRenderer) (heap : list RendererData)
        (serializedState : JSValue) (callback : bool) (st : Restoring) :
  restoreSerializedState this heap serializedState callback = Ok st ->
  restored (trace st) = [] ->
  never_invoked callback st.
Proof.
  intros Hrun Hnone.
  assert (Hstart : st = restore_start).
  { destruct (restore_ok_inv Hrun) as [Herr | (tree & Htree & Hconf)].
    - rewrite (restore_errored heap serializedState callback Herr) in Hrun.
      congruence.
    - rewrite (restore_ready heap serializedState callback Htree Hconf) in Hrun.
      injection Hrun as <-. by apply restore_without_dispatch in Hnone. }
  subst st. split; [reflexivity|].
  intros order Hperm. unfold pending in Hperm. simpl in Hperm.
  apply Permutation_nil_r in Hperm. by subst order.
Qed.
End Restoration.

Section MapTreeInvariant.
Context {S C C' H H' T T' X X' : Type}.
Variable m : TreeMapper S C C' H H' T T' X X'.
Variable fa : list (Tree C H T X) -> Shape -> option X'.

(** [R] bounds what one transform may do to the state; [Q st l l' st']
    relates a leaf [l] to the leaf [l'] made of it by a call that ran
    somewhere between the states [st] and [st']. *)
Variable R : S -> S -> Prop.
Variable Q : S -> Leaf C H T -> Leaf C' H' T' -> S -> Prop.

Hypothesis R_refl : forall st, R st st.
Hypothesis R_trans : forall st1 st2 st3, R st1 st2 -> R st2 st3 -> R st1 st3.
Hypothesis Q_widen : forall st0 st1 st2 st3 l l',
  R st0 st1 -> Q st1 l l' st2 -> R st2 st3 -> Q st0 l l' st3.

Hypothesis content_runs : forall c s p st, exists c' st',
  contentMapper (leafMappers m) c s p st = (Ok c', st') /\
  R st st' /\ Q st (LContent c) (LContent c') st'.
Hypothesis hint_runs : forall h s p st, exists h' st',
  hintMapper (leafMappers m) h s p st = (Ok h', st') /\
  R st st' /\ Q st (LHint h) (LHint h') st'.
Hypothesis tags_runs : forall t s p st, exists t' st',
  tagsMapper (leafMappers m) t s p st = (Ok t', st') /\
  R st st' /\ Q st (LTags t) (LTags t') st'.
Hypothesis array_runs : forall mapped originals s p st,
  arrayMapper m mapped originals s p st = (Ok (fa originals s, mapped), st).

Lemma map_elements_invariant (es : Shape) (path : Path)
      (children : list (Tree C H T X)) :
  Forall (fun t => forall s p st, conforms t s = true -> achieves m R Q t s p st) children ->
  forallb (fun inner => conforms inner es) children = true ->
  forall i st, exists ts st',
    map_elements (fun inner i => mapTree m inner es (path ++ [i])) children i st =
      (Ok ts, st') /\
    R st st' /\
    map topology ts = map topology children /\
    forallb (fun inner => conforms inner es) ts = true /\
    Forall2 (fun l l' => fst l = fst l' /\ Q st (snd l) (snd l') st')
            (flat_mapi (fun inner i => leaves inner (path ++ [i])) children i)
            (flat_mapi (fun inner i => leaves inner (path ++ [i])) ts i).
Proof using R_refl R_trans Q_widen.
  induction 1 as [|t rest Ht _ IH]; intros Hall i st; simpl in *.
  - exists [], st. repeat split; auto.
  - apply andb_true_iff in Hall as [Hconf Hrest].
    destruct (Ht _ (path ++ [i]) st Hconf)
      as (t' & st1 & Hrun & HR1 & Htop & Hconf' & Hleaves).
    destruct (IH Hrest (Datatypes.S i) st1)
      as (ts & st2 & Hruns & HR2 & Htops & Hconfs & Hleavess).
    exists (t' :: ts), st2. unfold bind at 1. rewrite Hrun.
    unfold bind at 1. rewrite Hruns. simpl. repeat split.
    + eauto.
    + by rewrite Htop, Htops.
    + by rewrite Hconf', Hconfs.
    + apply Forall2_app.
      * eapply Forall2_impl; [exact Hleaves|]. simpl.
        intros l l' [Hp Hq]. split; [done|].
        exact (Q_widen (R_refl st) Hq HR2).
      * eapply Forall2_impl; [exact Hleavess|]. simpl.
        intros l l' [Hp Hq]. split; [done|].
        exact (Q_widen HR1 Hq (R_refl st2)).
Qed.

(** A traversal of a conforming tree by transforms that return, that move
    the state along [R] and that relate each leaf to its image by [Q]
    returns a tree of the same topology whose leaves are the images of the
    leaves, path by path. *)
Lemma mapTree_invariant (t : Tree C H T X) : forall s p st,
  conforms t s = true -> achieves m R Q t s p st.
Proof using R_refl R_trans Q_widen content_runs hint_runs tags_runs array_runs.
  induction t as [c|h|v|x children IH] using Tree_rose_ind;
    intros s p st Hconf; destruct s; simpl in Hconf; try discriminate;
    unfold achieves; simpl.
  - destruct (content_runs c ContentShape p st) as (c' & st' & Hrun & HR & HQ).
    exists (Content c'), st'. unfold bind. rewrite Hrun.
    repeat split; auto. by repeat constructor.
  - destruct (hint_runs h HintShape p st) as (h' & st' & Hrun & HR & HQ).
    exists (Hint h'), st'. unfold bind. rewrite Hrun.
    repeat split; auto. by repeat constructor.
  - destruct (tags_runs v TagsShape p st) as (v' & st' & Hrun & HR & HQ).
    exists (Tags v'), st'. unfold bind. rewrite Hrun.
    repeat split; auto. by repeat constructor.
  - destruct (@map_elements_invariant s p children IH Hconf 0 st)
      as (ts & st' & Hruns & HR & Htops & Hconfs & Hleaves).
    exists (Array (fa children (ArrayShape s)) ts), st'.
    unfold bind at 1. rewrite Hruns. unfold bind. rewrite array_runs. simpl.
    repeat split; auto. by rewrite Htops.
Qed.
End MapTreeInvariant.

Section VisitFacts.
Context {C H T X : Type}.

Lemma visit_elements_spec (es : Shape) (path : Path) (children : list (Tree C H T X)) :
  Forall (fun t => forall s p,
            if conforms t s then visit t s p = (leaves t p, None)
            else exists q, snd (visit t s p) = Some q) children ->
  forall i,
    if forallb (fun inner => conforms inner es) children
    then visit_elements (fun inner i => visit inner es (path ++ [i])) children i =
         (flat_mapi (fun inner i => leaves inner (path ++ [i])) children i, None)
    else exists q,
         snd (visit_elements (fun inner i => visit inner es (path ++ [i])) children i) =
         Some q.
Proof.
  induction 1 as [|t rest Ht _ IH]; intros i; simpl; [done|].
  specialize (Ht es (path ++ [i])). specialize (IH (Datatypes.S i)).
  destruct (conforms t es); simpl.
  - rewrite Ht. destruct (forallb (fun inner => conforms inner es) rest).
    + by rewrite IH.
    + destruct IH as [q Hq]. by exists q.
  - destruct Ht as [q Hq].
    destruct (visit t es (path ++ [i])) as [passed [q'|]]; simpl in *; [by exists q'|done].
Qed.

(** A walk passes all the leaves of a tree that conforms to the shape, and
    stops at a node of a tree that does not. *)
Lemma visit_spec (t : Tree C H T X) : forall s p,
  if conforms t s then visit t s p = (leaves t p, None)
  else exists q, snd (visit t s p) = Some q.
Proof.
  induction t as [c|h|v|x children IH] using Tree_rose_ind;
    intros s p; destruct s; simpl; try done; try (by eexists).
  by apply visit_elements_spec.
Qed.
End VisitFacts.

Section Building.
Context {ContentNode HintNode TagsNode RendererProps : Type}.
Context {WidgetRef Criterion Score Guess : Type}.
Abbreviation ItemNode := (@ItemNode ContentNode HintNode TagsNode).
Abbreviation Item := (@Item ContentNode HintNode TagsNode).
Abbreviation ItemTree := (@ItemTree ContentNode HintNode TagsNode).
Abbreviation Props := (@Props ContentNode HintNode TagsNode RendererProps).
Abbreviation RendererData :=
  (@RendererData ContentNode HintNode RendererProps WidgetRef Criterion Score Guess).
Abbreviation Store :=
  (@Store ContentNode HintNode RendererProps WidgetRef Criterion Score Guess).
Abbreviation cells_for' rp base l :=
  (cells_for (WidgetRef:=WidgetRef) (Criterion:=Criterion) (Score:=Score)
             (Guess:=Guess) rp base l).
Abbreviation build_mapper thisProps :=
  (justLeaves (X:=Empty_set) (X':=Empty_set)
     (setTagsMapper (fun (_ : TagsNode) _ _ => ret tt)
        (setHintMapper (fun h _ _ => _makeHintRendererData thisProps h)
           (setContentMapper (fun c _ _ => _makeContentRendererData thisProps c)
              buildMapper)))).

Lemma _makeContentRendererData_runs (thisProps : Props) (c : ContentNode) (st : Store) :
  _makeContentRendererData thisProps c st =
  (Ok (length (cells st)),
   {| cells := cells st ++
               [{| renderer := ERenderer (otherProps thisProps) c (length (cells st));
                   ref := None; hint := None |}];
      console := console st |}).
Proof.
  unfold _makeContentRendererData, bind, alloc, set_renderer, modify, ret. simpl.
  f_equal. f_equal.
  replace (length (cells st)) with (length (cells st) + 0) at 1 by lia.
  by rewrite alter_app_r.
Qed.

Lemma cells_for_app (rp : RendererProps)
      (l1 l2 : list (Path * Leaf ContentNode HintNode TagsNode)) :
  forall base,
    cells_for' rp base (l1 ++ l2) =
    cells_for' rp base l1 ++ cells_for' rp (base + length (cells_for' rp base l1)) l2.
Proof.
  induction l1 as [|[p [c|h|t]] l1 IH]; intros base; simpl.
  - by rewrite Nat.add_0_r.
  - rewrite IH. do 3 f_equal. lia.
  - rewrite IH. do 3 f_equal. lia.
  - apply IH.
Qed.

Lemma leaves_for_app (rp : RendererProps)
      (l1 l2 : list (Path * Leaf ContentNode HintNode TagsNode)) :
  forall base,
    leaves_for base (l1 ++ l2) =
    leaves_for base l1 ++ leaves_for (base + length (cells_for' rp base l1)) l2.
Proof.
  induction l1 as [|[p [c|h|t]] l1 IH]; intros base; simpl.
  - by rewrite Nat.add_0_r.
  - rewrite IH. do 3 f_equal. lia.
  - rewrite IH. do 3 f_equal. lia.
  - by rewrite IH.
Qed.

(** The cells of the leaves made are consecutive addresses. *)
Lemma leaf_cells_for (rp : RendererProps)
      (l : list (Path * Leaf ContentNode HintNode TagsNode)) :
  forall base,
    omap cell_of (leaves_for base l) = seq base (length (cells_for' rp base l)).
Proof.
  induction l as [|[p [c|h|t]] l IH]; intros base; simpl; [done|..].
  - f_equal. apply IH.
  - f_equal. apply IH.
  - apply IH.
Qed.

Lemma with_cells_for_nil (rp : RendererProps) (st : Store) :
  with_cells_for rp (@nil (Path * Leaf ContentNode HintNode TagsNode)) st = st.
Proof. unfold with_cells_for. destruct st. simpl. by rewrite app_nil_r. Qed.

Lemma with_cells_for_app (rp : RendererProps)
      (l1 l2 : list (Path * Leaf ContentNode HintNode TagsNode)) (st : Store) :
  with_cells_for rp l2 (with_cells_for rp l1 st) = with_cells_for rp (l1 ++ l2) st.
Proof.
  unfold with_cells_for. simpl. by rewrite cells_for_app, length_app, app_assoc.
Qed.

Lemma build_elements_visit (thisProps : Props) (es : Shape) (path : Path)
      (children : list ItemTree) :
  Forall (fun it => forall s p (st : Store),
            match snd (visit it s p) with
            | None =>
                exists t',
                  mapTree (build_mapper thisProps) it s p st =
                    (Ok t', with_cells_for (otherProps thisProps) (fst (visit it s p)) st) /\
                  leaves t' p = leaves_for (length (cells st)) (fst (visit it s p))
            | Some q =>
                mapTree (build_mapper thisProps) it s p st =
                  (Throw (ShapeMismatch q),
                   with_cells_for (otherProps thisProps) (fst (visit it s p)) st)
            end) children ->
  forall i (st : Store),
    match snd (visit_elements (fun inner i => visit inner es (path ++ [i])) children i)
    with
    | None =>
        exists ts,
          map_elements
            (fun inner i => mapTree (build_mapper thisProps) inner es (path ++ [i]))
            children i st =
            (Ok ts,
             with_cells_for (otherProps thisProps)
               (fst (visit_elements (fun inner i => visit inner es (path ++ [i]))
                                    children i)) st) /\
          flat_mapi (fun inner i => leaves inner (path ++ [i])) ts i =
          leaves_for (length (cells st))
            (fst (visit_elements (fun inner i => visit inner es (path ++ [i]))
                                 children i))
    | Some q =>
        map_elements
          (fun inner i => mapTree (build_mapper thisProps) inner es (path ++ [i]))
          children i st =
          (Throw (ShapeMismatch q),
           with_cells_for (otherProps thisProps)
             (fst (visit_elements (fun inner i => visit inner es (path ++ [i]))
                                  children i)) st)
    end.
Proof.
  induction 1 as [|it rest Hit _ IH]; intros i st; simpl.
  - exists []. by rewrite with_cells_for_nil.
  - specialize (Hit es (path ++ [i]) st).
    destruct (visit it es (path ++ [i])) as [passed [q|]]; simpl in *.
    + unfold bind. by rewrite Hit.
    + destruct Hit as (t' & Hrun & Hleaves).
      specialize (IH (Datatypes.S i) (with_cells_for (otherProps thisProps) passed st)).
      destruct (visit_elements (fun inner i => visit inner es (path ++ [i]))
                               rest (Datatypes.S i)) as [passed' [q|]]; simpl in *.
      * unfold bind at 1. rewrite Hrun. unfold bind at 1. rewrite IH.
        by rewrite with_cells_for_app.
      * destruct IH as (ts & Hruns & Hleavess). exists (t' :: ts).
        unfold bind at 1. rewrite Hrun. unfold bind at 1. rewrite Hruns. simpl.
        split; [unfold ret; by rewrite with_cells_for_app|].
        rewrite Hleaves, Hleavess, (leaves_for_app (otherProps thisProps)).
        by rewrite length_app.
Qed.

(** The traversal that builds the cells, exactly.  It makes the cells of the
    leaves it passes, in pre-order, at the end of the heap.  If the tree of
    the item conforms to the shape it returns the tree of their addresses;
    if not, it throws at the first node that disagrees with the shape, and
    the cells made until then stay in the heap. *)
Lemma build_visit (thisProps : Props) (it : ItemTree) : forall s p (st : Store),
  match snd (visit it s p) with
  | None =>
      exists t',
        mapTree (build_mapper thisProps) it s p st =
          (Ok t', with_cells_for (otherProps thisProps) (fst (visit it s p)) st) /\
        leaves t' p = leaves_for (length (cells st)) (fst (visit it s p))
  | Some q =>
      mapTree (build_mapper thisProps) it s p st =
        (Throw (ShapeMismatch q),
         with_cells_for (otherProps thisProps) (fst (visit it s p)) st)
  end.
Proof.
  induction it as [c|h|v|x children IH] using Tree_rose_ind;
    intros s p st; destruct s; simpl;
    try (unfold throw; by rewrite with_cells_for_nil).
  - exists (Content (length (cells st))). unfold bind.
    by rewrite _makeContentRendererData_runs.
  - exists (Hint (length (cells st))). by unfold bind, _makeHintRendererData, alloc.
  - exists (Tags tt). unfold bind, ret, with_cells_for. destruct st. simpl.
    by rewrite app_nil_r.
  - pose proof (@build_elements_visit thisProps s p children IH 0 st) as Hruns.
    destruct (snd (visit_elements (fun inner i => visit inner s (p ++ [i])) children 0)).
    + unfold bind at 1. by rewrite Hruns.
    + destruct Hruns as (ts & Hruns & Hleaves).
      exists (Array None ts). unfold bind at 1. rewrite Hruns. by unfold bind.
Qed.

Lemma extends_refl (st : Store) : extends st st.
Proof.
  split; [done|]. exists []. split; [by rewrite app_nil_r|]. intros i cell Hi.
  by destruct i.
Qed.

Lemma extends_trans (st1 st2 st3 : Store) :
  extends st1 st2 -> extends st2 st3 -> extends st1 st3.
Proof.
  intros [Hc1 (new1 & Hcells1 & Hfresh1)] [Hc2 (new2 & Hcells2 & Hfresh2)].
  split; [congruence|]. exists (new1 ++ new2).
  split; [by rewrite Hcells2, Hcells1, app_assoc|].
  intros i cell Hi. apply lookup_app_Some in Hi as [Hi | [Hge Hi]].
  - by apply Hfresh1.
  - apply Hfresh2 in Hi. rewrite Hcells1, length_app in Hi.
    replace (length (cells st1) + i)
      with (length (cells st1) + length new1 + (i - length new1)) by lia.
    exact Hi.
Qed.

Lemma extends_one (st : Store) (cell : RendererData) :
  cell_ok (length (cells st)) cell -> ref cell = None ->
  extends st {| cells := cells st ++ [cell]; console := console st |}.
Proof.
  intros Hok Href. split; [done|]. exists [cell]. split; [done|].
  intros [|i] cell' Hi; simpl in Hi; [|done].
  injection Hi as <-. by rewrite Nat.add_0_r.
Qed.

Lemma extends_length (st st' : Store) :
  extends st st' -> length (cells st) <= length (cells st').
Proof. intros [_ (new & -> & _)]. rewrite length_app. lia. Qed.

Lemma extends_lookup (st st' : Store) (data : addr) (cell : RendererData) :
  extends st st' -> cells st !! data = Some cell -> cells st' !! data = Some cell.
Proof. intros [_ (new & -> & _)] Hcell. by apply lookup_app_l_Some. Qed.

Lemma extends_store_ok (st st' : Store) :
  extends st st' -> store_ok (cells st) -> store_ok (cells st').
Proof.
  intros [_ (new & -> & Hfresh)] Hok data cell Hcell.
  apply lookup_app_Some in Hcell as [Hcell | [Hge Hcell]]; [by eapply Hok|].
  apply Hfresh in Hcell as [Hcell _].
  by replace (length (cells st) + (data - length (cells st))) with data in Hcell by lia.
Qed.

Lemma cells_for_fresh (rp : RendererProps)
      (l : list (Path * Leaf ContentNode HintNode TagsNode)) :
  forall base, fresh_cells base (cells_for' rp base l).
Proof.
  induction l as [|[p [c|h|t]] l IH]; intros base i cell Hcell; simpl in Hcell.
  - done.
  - destruct i as [|i]; simpl in Hcell.
    + injection Hcell as <-. rewrite Nat.add_0_r. split; [|done].
      left. split; [done|]. by exists rp, c.
    + replace (base + Datatypes.S i) with (Datatypes.S base + i) by lia. by apply IH.
  - destruct i as [|i]; simpl in Hcell.
    + injection Hcell as <-. split; [|done].
      right. split; [done|]. split; [done|]. by exists rp, [Some h], None.
    + replace (base + Datatypes.S i) with (Datatypes.S base + i) by lia. by apply IH.
  - by apply IH.
Qed.

Lemma with_cells_for_extends (rp : RendererProps)
      (l : list (Path * Leaf ContentNode HintNode TagsNode)) (st : Store) :
  extends st (with_cells_for rp l st).
Proof. split; [done|]. eexists. split; [reflexivity|]. apply cells_for_fresh. Qed.

Lemma leaf_built_widen (st0 st1 st2 st3 : Store)
      (l : Leaf ContentNode HintNode TagsNode) (l' : Leaf addr addr unit) :
  extends st0 st1 ->
  leaf_built (length (cells st1)) (cells st2) l l' ->
  extends st2 st3 ->
  leaf_built (length (cells st0)) (cells st3) l l'.
Proof.
  intros H01 Hbuilt H23. apply extends_length in H01.
  destruct l, l'; simpl in *; try done.
  all: destruct Hbuilt as [Hle (cell & Hcell & Hrest)];
    (split; [lia|]); exists cell; split; [by eapply extends_lookup|done].
Qed.

(** The tree of cells built for an item.  If the item's tree does not
    conform to the shape, the build throws at the first node that
    disagrees, and the cells of the leaves passed until then are in the
    heap.  Otherwise the tree returned has the topology of the item, and
    every content and hint leaf has a cell of its own, new and without a
    back-reference. *)
Lemma _makeRendererDataTree_runs (thisProps : Props) (item : Item) (s : Shape)
      (st : Store) :
  (exists q,
      conforms (itemToTree item) s = false /\
      snd (visit (itemToTree item) s []) = Some q /\
      _makeRendererDataTree thisProps item s st =
      (Throw (ShapeMismatch q),
       with_cells_for (otherProps thisProps) (fst (visit (itemToTree item) s [])) st)) \/
  (exists tree,
      conforms (itemToTree item) s = true /\
      _makeRendererDataTree thisProps item s st =
      (Ok tree, with_cells_for (otherProps thisProps) (leaves (itemToTree item) []) st) /\
      leaves tree [] = leaves_for (length (cells st)) (leaves (itemToTree item) []) /\
      topology tree = topology (itemToTree item) /\
      conforms tree s = true /\
      Forall2 (fun l l' =>
                 fst l = fst l' /\
                 leaf_built (length (cells st))
                   (cells (with_cells_for (otherProps thisProps)
                                          (leaves (itemToTree item) []) st))
                   (snd l) (snd l'))
              (leaves (itemToTree item) []) (leaves tree [])).
Proof.
  unfold _makeRendererDataTree.
  pose proof (build_visit thisProps (itemToTree item) s [] st) as Hexact.
  pose proof (visit_spec (itemToTree item) s []) as Hvisit.
  destruct (conforms (itemToTree item) s) eqn:Hconf.
  - right. rewrite Hvisit in Hexact. simpl in Hexact.
    destruct Hexact as (t' & Hrun & Hleaves).
    match goal with
    | Hrun : mapTree ?m _ _ _ _ = _ |- _ =>
        destruct (@mapTree_invariant _ _ _ _ _ _ _ _ _ m plain extends
                    (fun st l l' st' => leaf_built (length (cells st)) (cells st') l l')
                    extends_refl extends_trans leaf_built_widen)
          with (t := itemToTree item) (s := s) (p := @nil nat) (st := st)
          as (tree & st' & Hrun' & Hext & Htop & Hconf' & Hbuilt)
    end.
    + intros c s0 p st0. simpl.
      rewrite _makeContentRendererData_runs. do 2 eexists. split; [reflexivity|].
      split.
      * apply extends_one; [|done]. left. split; [done|]. simpl. eauto.
      * simpl. split; [lia|]. eexists.
        split; [by rewrite lookup_app_r, Nat.sub_diag|done].
    + intros h s0 p st0. simpl. unfold _makeHintRendererData, alloc.
      do 2 eexists. split; [reflexivity|]. split.
      * apply extends_one; [|done]. right. split; [done|]. split; [done|]. simpl. eauto.
      * simpl. split; [lia|]. eexists.
        split; [by rewrite lookup_app_r, Nat.sub_diag|done].
    + intros t s0 p st0. simpl. do 2 eexists. split; [reflexivity|].
      split; [apply extends_refl|done].
    + done.
    + done.
    + rewrite Hrun in Hrun'. injection Hrun' as <- <-.
      exists t'. by rewrite Hrun.
  - left. destruct Hvisit as [q Hq]. rewrite Hq in Hexact.
    exists q. by rewrite Hexact.
Qed.
End Building.

Section Rebuilding.
Context {ContentNode HintNode TagsNode RendererProps : Type}.
Context {WidgetRef Criterion Score Guess : Type}.
Abbreviation Props := (@Props ContentNode HintNode TagsNode RendererProps).
Abbreviation MultiRenderer := (@MultiRenderer ContentNode HintNode TagsNode RendererProps).
Abbreviation RendererData :=
  (@RendererData ContentNode HintNode RendererProps WidgetRef Criterion Score Guess).
Abbreviation RendererDataTree := (Tree addr addr unit Empty_set).
Abbreviation Store :=
  (@Store ContentNode HintNode RendererProps WidgetRef Criterion Score Guess).
Abbreviation World :=
  (@World ContentNode HintNode TagsNode RendererProps WidgetRef Criterion Score Guess).

Lemma nullable_Some (tree tree' : RendererDataTree) :
  nullable tree = Some tree' -> tree' = tree.
Proof. destruct tree; simpl; congruence. Qed.

Lemma nullable_None (tree : RendererDataTree) :
  nullable tree = None -> exists v, tree = Tags v.
Proof. destruct tree as [c|h|v|x children]; simpl; try done. by exists v. Qed.

(** A rebuild returns a state, exactly: Errored with the shape mismatch,
    which is logged, the cells made before the throw staying in the heap;
    or Ready, with exactly the cells of the item's leaves added to the heap
    and nothing logged. *)
Lemma _tryMakeRendererState_runs (thisProps p : Props) (st : Store) :
  (exists q,
      conforms (itemToTree (item p)) (shape p) = false /\
      snd (visit (itemToTree (item p)) (shape p) []) = Some q /\
      _tryMakeRendererState thisProps p st =
      (Ok {| rendererDataTree := None; renderError := Some (ShapeMismatch q) |},
       {| cells := cells st ++
                   cells_for (otherProps thisProps) (length (cells st))
                             (fst (visit (itemToTree (item p)) (shape p) []));
          console := console st ++ [ShapeMismatch q] |})) \/
  (exists tree,
      conforms (itemToTree (item p)) (shape p) = true /\
      _tryMakeRendererState thisProps p st =
      (Ok {| rendererDataTree := nullable tree; renderError := None |},
       {| cells := cells st ++
                   cells_for (otherProps thisProps) (length (cells st))
                             (leaves (itemToTree (item p)) []);
          console := console st |}) /\
      leaves tree [] = leaves_for (length (cells st)) (leaves (itemToTree (item p)) []) /\
      topology tree = topology (itemToTree (item p)) /\
      conforms tree (shape p) = true /\
      Forall2 (fun l l' =>
                 fst l = fst l' /\
                 leaf_built (length (cells st))
                   (cells st ++
                    cells_for (otherProps thisProps) (length (cells st))
                              (leaves (itemToTree (item p)) []))
                   (snd l) (snd l'))
              (leaves (itemToTree (item p)) []) (leaves tree [])).
Proof.
  unfold _tryMakeRendererState, try_catch. unfold bind.
  destruct (_makeRendererDataTree_runs thisProps (item p) (shape p) st)
    as [(q & Hconf & Hq & Hrun) | (tree & Hconf & Hrun & Hrest)]; rewrite Hrun.
  - left. by exists q.
  - right. by exists tree.
Qed.

(** A rebuild always returns a state. *)
Lemma _tryMakeRendererState_returns (thisProps p : Props) (st : Store) :
  exists s st', _tryMakeRendererState thisProps p st = (Ok s, st').
Proof.
  destruct (_tryMakeRendererState_runs thisProps p st)
    as [(q & _ & _ & Hrun) | (tree & _ & Hrun & _)]; rewrite Hrun; by do 2 eexists.
Qed.

(** C5. If building the renderer tree throws, the rebuild does not throw:
    it returns the Errored state holding exactly that error and logs the
    error to the console; the same holds of the rebuild made on receiving an
    item of another identity; and rendering in the Errored state gives the
    error indicator, whatever the layout function is. *)
Theorem rebuild_captures_the_error (thisProps p : Props) (st st1 : Store) (e : Error) :
  _makeRendererDataTree thisProps (item p) (shape p) st = (Throw e, st1) ->
  let errored := {| rendererDataTree := None; renderError := Some e |} in
  _tryMakeRendererState thisProps p st =
    (Ok errored, {| cells := cells st1; console := console st1 ++ [e] |}) /\
  (forall this : MultiRenderer,
      props this = thisProps ->
      item_ref (item p) <> item_ref (item thisProps) ->
      componentWillReceiveProps this p st =
      (Ok {| props := thisProps; state := errored |},
       {| cells := cells st1; console := console st1 ++ [e] |})) /\
  (forall (pr : Props) (heap : list RendererData),
      render {| props := pr; state := errored |} heap = Ok (EError e)).
Proof.
  intros Hthrows errored.
  assert (Htry : _tryMakeRendererState thisProps p st =
                 (Ok errored, {| cells := cells st1; console := console st1 ++ [e] |})).
  { unfold _tryMakeRendererState, try_catch. unfold bind at 1. by rewrite Hthrows. }
  split; [exact Htry|]. split.
  - intros this <- Hne. unfold componentWillReceiveProps.
    apply Nat.eqb_neq in Hne. rewrite Hne. simpl. unfold bind. by rewrite Htry.
  - reflexivity.
Qed.
End Rebuilding.

Section Lifetime.
Context {ContentNode HintNode TagsNode RendererProps : Type}.
Context {WidgetRef Criterion Score Guess : Type}.
Abbreviation ItemNode := (@ItemNode ContentNode HintNode TagsNode).
Abbreviation Props := (@Props ContentNode HintNode TagsNode RendererProps).
Abbreviation MultiRenderer := (@MultiRenderer ContentNode HintNode TagsNode RendererProps).
Abbreviation Renderer := (@Renderer WidgetRef Criterion Score Guess).
Abbreviation RendererData :=
  (@RendererData ContentNode HintNode RendererProps WidgetRef Criterion Score Guess).
Abbreviation RendererDataTree := (Tree addr addr unit Empty_set).
Abbreviation Store :=
  (@Store ContentNode HintNode RendererProps WidgetRef Criterion Score Guess).
Abbreviation World :=
  (@World ContentNode HintNode TagsNode RendererProps WidgetRef Criterion Score Guess).

(** Setting a back-reference changes no [hint] field. *)
Lemma set_ref_lookup (st : Store) (data : addr) (e : option Renderer)
      (a : addr) (cell : RendererData) :
  cells st !! a = Some cell ->
  exists cell', cells (set_ref data e st) !! a = Some cell' /\
                hint cell' = hint cell /\ renderer cell' = renderer cell /\
                (a <> data -> cell' = cell).
Proof.
  intros Hcell. unfold set_ref. simpl.
  destruct (decide (data = a)) as [->|Hne].
  - eexists. split; [by rewrite list_lookup_alter_eq, Hcell|]. by repeat split.
  - exists cell. split; [by rewrite list_lookup_alter_ne|]. by repeat split.
Qed.

Lemma set_ref_lookup_inv (st : Store) (data : addr) (e : option Renderer)
      (a : addr) (cell' : RendererData) :
  cells (set_ref data e st) !! a = Some cell' ->
  exists cell, cells st !! a = Some cell /\
               hint cell' = hint cell /\ renderer cell' = renderer cell /\
               (a <> data -> cell' = cell).
Proof.
  unfold set_ref. simpl. intros Hcell'.
  destruct (decide (data = a)) as [->|Hne].
  - rewrite list_lookup_alter_eq in Hcell'.
    destruct (cells st !! a) as [cell|]; [|done]. simpl in Hcell'.
    injection Hcell' as <-. exists cell. by repeat split.
  - rewrite list_lookup_alter_ne in Hcell' by done. exists cell'. by repeat split.
Qed.

(** A [ref] callback only ever writes to the content cell whose element
    holds it, so the heap stays well-formed. *)
Lemma set_ref_store_ok (st : Store) (owner data : addr) (cell : RendererData)
      (rp : RendererProps) (c : ContentNode) (e : option Renderer) :
  store_ok (cells st) ->
  cells st !! owner = Some cell ->
  renderer cell = ERenderer rp c data ->
  store_ok (cells (set_ref data e st)).
Proof.
  intros Hok Howner Hrenderer a cell' Hcell'.
  assert (Hdata : data = owner).
  { destruct (Hok _ _ Howner) as [[_ (rp' & c' & Hr)] | (_ & _ & rp' & hs & v & Hr)];
      congruence. }
  subst data.
  destruct (set_ref_lookup_inv Hcell') as (old & Hold & Hhint & Hrend & Hsame).
  destruct (decide (a = owner)) as [->|Hne].
  - left. assert (old = cell) by congruence. subst old.
    destruct (Hok _ _ Howner) as [[Hh (rp' & c' & Hr)] | (_ & _ & rp' & hs & v & Hr)];
      [|congruence].
    split; [congruence|]. exists rp', c'. congruence.
  - rewrite (Hsame Hne). by eapply Hok.
Qed.

Lemma set_ref_leaf_in_heap (st : Store) (data : addr) (e : option Renderer)
      (l : Path * Leaf addr addr unit) :
  leaf_in_heap (cells st) l -> leaf_in_heap (cells (set_ref data e st)) l.
Proof.
  destruct l as [p [a|a|v]]; simpl; [| |done].
  all: intros (cell & Hcell & Hhint);
    destruct (set_ref_lookup data e Hcell) as (cell' & Hcell' & Hhint' & _);
    exists cell'; split; [done|congruence].
Qed.

Lemma leaf_built_in_heap (base : nat) (heap : list RendererData)
      (its : list (Path * Leaf ContentNode HintNode TagsNode))
      (ls : list (Path * Leaf addr addr unit)) :
  Forall2 (fun l l' => fst l = fst l' /\ leaf_built base heap (snd l) (snd l')) its ls ->
  Forall (leaf_in_heap heap) ls.
Proof.
  induction 1 as [|[p l] [p' l'] its ls [_ Hbuilt] _ IH]; constructor; [|done].
  simpl in Hbuilt. destruct l, l'; simpl in *; try done.
  - destruct Hbuilt as [_ (cell & Hcell & Hhint & _)]. eauto.
  - destruct Hbuilt as [_ (cell & Hcell & Hhint & _)]. exists cell.
    split; [done|]. congruence.
Qed.

Lemma extends_leaf_in_heap (st st' : Store) (l : Path * Leaf addr addr unit) :
  extends st st' -> leaf_in_heap (cells st) l -> leaf_in_heap (cells st') l.
Proof.
  intros Hext. destruct l as [p [a|a|v]]; simpl; [| |done].
  all: intros (cell & Hcell & Hhint); exists cell;
    split; [by eapply extends_lookup|done].
Qed.

(** Only the tree of an item that is one tags leaf is a tags leaf. *)
Lemma tags_tree_of_tags_item (tree : RendererDataTree) (node : ItemNode) (v : unit) :
  tree = Tags v ->
  topology tree = topology (node_tree node) ->
  exists t, node = ITags t.
Proof. intros -> Htop. destruct node as [c|h|t|elements]; try done. by exists t. Qed.

(** A state made by [_tryMakeRendererState] in a well-formed heap gives a
    well-formed world. *)
Lemma _tryMakeRendererState_world_ok (thisProps p pr : Props) (st st' : Store)
      (s : State) :
  _tryMakeRendererState thisProps p st = (Ok s, st') ->
  item pr = item p ->
  store_ok (cells st) ->
  world_ok {| component := {| props := pr; state := s |}; store := st' |}.
Proof.
  intros Hrun Hitem Hok.
  destruct (_tryMakeRendererState_runs thisProps p st)
    as [(q & _ & _ & Hrun') | (tree & _ & Hrun' & _ & Htop & Hconf & Hleaves)];
    rewrite Hrun' in Hrun; injection Hrun as <- <-.
  - split; [left; by right|]. split; [|by intros tree].
    exact (extends_store_ok (with_cells_for_extends (otherProps thisProps) _ st) Hok).
  - split; [|split].
    + destruct (nullable tree) as [tree'|] eqn:Hnull; [left; by left|].
      right. split; [done|]. split; [done|]. simpl.
      destruct (nullable_None Hnull) as [v Hv].
      destruct (tags_tree_of_tags_item Hv Htop) as [t Ht].
      exists t. by rewrite Hitem.
    + exact (extends_store_ok (with_cells_for_extends (otherProps thisProps) _ st) Hok).
    + simpl. intros tree' Hcached. apply nullable_Some in Hcached as ->. split.
      * by eapply leaf_built_in_heap.
      * split; [simpl; by rewrite Hitem|]. by exists (shape p).
Qed.

(** Every world a component goes through is well-formed. *)
Lemma reachable_world_ok (w : World) : reachable w -> world_ok w.
Proof.
  induction 1 as [p this st Hnew | w w' _ IH Hstep].
  - unfold constructor, bind in Hnew.
    destruct (_tryMakeRendererState p p empty_store) as [[s|e] st1] eqn:Hrun; [|done].
    injection Hnew as <- <-.
    eapply _tryMakeRendererState_world_ok; [exact Hrun|done|].
    by intros [|a] cell.
  - destruct IH as (Hone & Hok & Htree).
    destruct Hstep
      as [w nextProps this' st' Hkeep Hrun | w owner data cell rp c e Howner Hrend].
    + unfold receiveProps, componentWillReceiveProps in Hrun.
      destruct (negb (item_ref (item nextProps) =? item_ref (item (props (component w)))))
        eqn:Hsame.
      * unfold bind in Hrun.
        destruct (_tryMakeRendererState (props (component w)) nextProps (store w))
          as [[s|e] st1] eqn:Htry; [|done].
        simpl in Hrun. injection Hrun as <- <-. simpl.
        by eapply _tryMakeRendererState_world_ok.
      * simpl in Hrun. injection Hrun as <- <-.
        apply negb_false_iff, Nat.eqb_eq in Hsame. specialize (Hkeep Hsame).
        split; [|split; [done|]].
        -- destruct Hone as [Hone | (Hnone & Herr & t & Ht)]; [by left|].
           right. split; [done|]. split; [done|]. exists t. simpl. by rewrite Hkeep.
        -- simpl. intros tree Hcached.
           destruct (Htree _ Hcached) as [Hleaves [Htop Hshape]].
           split; [done|]. split; [|done]. simpl. by rewrite Hkeep.
    + split; [done|]. split; [by eapply set_ref_store_ok|]. simpl.
      intros tree Hcached. destruct (Htree _ Hcached) as [Hleaves Hbuilt].
      split; [|done].
      eapply Forall_impl; [exact Hleaves|]. apply set_ref_leaf_in_heap.
Qed.

(** A tree conforms to the shape it is built with. *)
Lemma constructed_conforms (p : Props) (this : MultiRenderer) (st : Store)
      (tree : RendererDataTree) :
  constructor p empty_store = (Ok this, st) ->
  rendererDataTree (state this) = Some tree ->
  conforms tree (shape (props this)) = true.
Proof.
  unfold constructor, bind. intros Hnew Hcached.
  destruct (_tryMakeRendererState_runs p p
              (empty_store : Store))
    as [(q & _ & _ & Hrun) | (tree' & _ & Hrun & _ & _ & Hconf & _)];
    rewrite Hrun in Hnew; injection Hnew as <- <-; simpl in *; [done|].
  by apply nullable_Some in Hcached as ->.
Qed.

(** The cached tree keeps conforming to the current shape for as long as
    the shape is not changed while the item is kept. *)
Lemma step_keeps_conformance (w w' : World) :
  step w w' ->
  (item_ref (item (props (component w'))) = item_ref (item (props (component w))) ->
   shape (props (component w')) = shape (props (component w))) ->
  (forall tree, rendererDataTree (state (component w)) = Some tree ->
                conforms tree (shape (props (component w))) = true) ->
  forall tree', rendererDataTree (state (component w')) = Some tree' ->
                conforms tree' (shape (props (component w'))) = true.
Proof.
  intros [w0 nextProps this' st' Hkeep Hrun | w0 owner data cell rp c e Howner Hrend]
         Hshape Hconf tree' Hcached; [|by apply Hconf].
  unfold receiveProps, componentWillReceiveProps in Hrun.
  destruct (negb (item_ref (item nextProps) =? item_ref (item (props (component w0)))))
    eqn:Hsame.
  - unfold bind in Hrun.
    destruct (_tryMakeRendererState_runs (props (component w0)) nextProps (store w0))
      as [(q & _ & _ & Hrun') | (tree & _ & Hrun' & _ & _ & Hconf' & _)];
      rewrite Hrun' in Hrun; simpl in Hrun; injection Hrun as <- <-;
      simpl in *; [done|].
    by apply nullable_Some in Hcached as ->.
  - simpl in Hrun. injection Hrun as <- <-. simpl in *.
    apply negb_false_iff, Nat.eqb_eq in Hsame.
    rewrite (Hshape Hsame). by apply Hconf.
Qed.

(** C6, amended.  In every state a component goes through the cached tree
    and the build error are never both non-null, and exactly one of them is
    non-null unless the item is one tags leaf.  The tree of such an item is
    the [null] that the tags transform returns, so a build of it that
    succeeds leaves both fields null: a build returns a state with both
    fields null exactly when the shape is the tags shape and the item is one
    tags leaf. *)
Theorem tree_or_error_unless_tags_only :
  (forall w : World,
      reachable w -> exactly_one (state (component w)) \/ tags_only (component w)) /\
  (forall (thisProps p : Props) (st st' : Store) (s : State),
      _tryMakeRendererState thisProps p st = (Ok s, st') ->
      ~ (rendererDataTree s <> None /\ renderError s <> None) /\
      ((rendererDataTree s = None /\ renderError s = None) <->
       (shape p = TagsShape /\ exists t, item_value (item p) = ITags t))).
Proof.
  split.
  - intros w Hreach. by destruct (reachable_world_ok Hreach) as [Hone _].
  - intros thisProps p st st' s Hrun.
    destruct (_tryMakeRendererState_runs thisProps p st)
      as [(q & Hconf & _ & Hrun') | (tree & _ & Hrun' & _ & Htop & Hconf & _)];
      rewrite Hrun' in Hrun; injection Hrun as <- <-; simpl.
    + split; [by intros [Hboth _]|]. split; [by intros [_ Herr]|].
      intros [Hshape [t Ht]]. unfold itemToTree in Hconf.
      rewrite Hshape, Ht in Hconf. done.
    + split; [by intros [_ Herr]|]. split.
      * intros [Hnull _]. destruct (nullable_None Hnull) as [v Hv].
        split; [|exact (tags_tree_of_tags_item Hv Htop)].
        subst tree. by destruct (shape p).
      * intros [Hshape _]. split; [|done]. rewrite Hshape in Hconf.
        by destruct tree.
Qed.
End Lifetime.

Section IdentityGate.
Context {ContentNode HintNode TagsNode RendererProps : Type}.
Context {WidgetRef Criterion Score Guess : Type}.
Abbreviation Props := (@Props ContentNode HintNode TagsNode RendererProps).
Abbreviation MultiRenderer := (@MultiRenderer ContentNode HintNode TagsNode RendererProps).
Abbreviation RendererData :=
  (@RendererData ContentNode HintNode RendererProps WidgetRef Criterion Score Guess).
Abbreviation RendererDataTree := (Tree addr addr unit Empty_set).
Abbreviation Store :=
  (@Store ContentNode HintNode RendererProps WidgetRef Criterion Score Guess).

Lemma leaf_built_cells (base : nat) (heap : list RendererData)
      (its : list (Path * Leaf ContentNode HintNode TagsNode))
      (ls : list (Path * Leaf addr addr unit)) :
  Forall2 (fun l l' => fst l = fst l' /\ leaf_built base heap (snd l) (snd l')) its ls ->
  Forall (fun data => base <= data /\
                      exists cell, heap !! data = Some cell /\ ref cell = None)
         (omap cell_of ls).
Proof.
  induction 1 as [|[p l] [p' l'] its ls [_ Hbuilt] _ IH]; simpl; [constructor|].
  destruct l, l'; simpl in *; try done.
  all: destruct Hbuilt as [Hle (cell & Hcell & _ & Href)];
    constructor; [split; [done|]; by exists cell|done].
Qed.

(** C4. The cached tree is rebuilt exactly when the incoming item is not
    reference-equal to the current one.  With the same item reference the
    hook changes nothing: not the state, not a cell.  With another item
    reference -- whether or not the two items are deeply equal -- the hook
    runs a full build of the new item and every cell that was in the heap is
    left as it was.  When the new item has the topology of its shape, the
    build does produce a tree: it has the topology of the new item, one new
    cell is added to the heap for every content and hint leaf of the item, in
    pre-order, the leaves of the tree are these cells, and each of them was
    not in the heap before and has a null back-reference.  When it has not,
    the new state is Errored. *)
Theorem rebuild_iff_item_identity_changes
        (this : MultiRenderer) (nextProps : Props) (st : Store) :
  (item_ref (item nextProps) = item_ref (item (props this)) ->
   componentWillReceiveProps this nextProps st = (Ok this, st)) /\
  (item_ref (item nextProps) <> item_ref (item (props this)) ->
   exists s st',
     componentWillReceiveProps this nextProps st =
       (Ok {| props := props this; state := s |}, st') /\
     _tryMakeRendererState (props this) nextProps st = (Ok s, st') /\
     (forall data cell, cells st !! data = Some cell -> cells st' !! data = Some cell) /\
     (conforms (itemToTree (item nextProps)) (shape nextProps) = true ->
      exists tree' : RendererDataTree,
        s = {| rendererDataTree := nullable tree'; renderError := None |} /\
        topology tree' = topology (itemToTree (item nextProps)) /\
        cells st' =
          cells st ++
          cells_for (otherProps (props this)) (length (cells st))
                    (leaves (itemToTree (item nextProps)) []) /\
        leaves tree' [] =
          leaves_for (length (cells st)) (leaves (itemToTree (item nextProps)) []) /\
        Forall (fun data => cells st !! data = None /\
                            exists cell, cells st' !! data = Some cell /\ ref cell = None)
               (leaf_cells tree')) /\
     (conforms (itemToTree (item nextProps)) (shape nextProps) = false ->
      exists q, s = {| rendererDataTree := None;
                       renderError := Some (ShapeMismatch q) |})).
Proof.
  split; intros Hid; unfold componentWillReceiveProps.
  - apply Nat.eqb_eq in Hid. by rewrite Hid.
  - apply Nat.eqb_neq in Hid. rewrite Hid. simpl. unfold bind.
    destruct (_tryMakeRendererState_runs (props this) nextProps st)
      as [(q & Hconf & _ & Hrun) | (tree & Hconf & Hrun & Hl & Htop & _ & Hleaves)];
      rewrite Hrun; do 2 eexists; (split; [reflexivity|]); (split; [reflexivity|]);
      simpl.
    + split; [intros data cell; by apply lookup_app_l_Some|].
      split; [congruence|]. intros _. by exists q.
    + split; [intros data cell; by apply lookup_app_l_Some|].
      split; [|congruence]. intros _. exists tree. repeat split; try done.
      eapply Forall_impl; [exact (leaf_built_cells Hleaves)|]. simpl.
      intros data [Hle Hcell]. split; [|done]. by apply lookup_ge_None.
Qed.
End IdentityGate.

Section LeafResults.
Context {ContentNode HintNode TagsNode RendererProps : Type}.
Context {WidgetRef Criterion Score Guess KEScore : Type}.
Variable keScoreFromPerseusScore : Score -> @GuessValue Guess -> KEScore.
Abbreviation MultiRenderer := (@MultiRenderer ContentNode HintNode TagsNode RendererProps).
Abbreviation RendererData :=
  (@RendererData ContentNode HintNode RendererProps WidgetRef Criterion Score Guess).
Abbreviation World :=
  (@World ContentNode HintNode TagsNode RendererProps WidgetRef Criterion Score Guess).

(** In a well-formed heap a cell that holds a hint has no back-reference. *)
Lemma hint_cell_unmounted (heap : list RendererData) (data : addr)
      (cell : RendererData) :
  store_ok heap -> heap !! data = Some cell -> hint cell <> None -> ref cell = None.
Proof.
  intros Hok Hcell Hhint.
  by destruct (Hok _ _ Hcell) as [[Hnone _] | [Href _]].
Qed.

Lemma hint_leaf_unmounted (heap : list RendererData) (p : Path) (data : addr) :
  store_ok heap -> leaf_in_heap heap (p, LHint data) -> ref_of heap data = None.
Proof.
  intros Hok (cell & Hcell & Hhint). unfold ref_of. rewrite Hcell.
  by eapply hint_cell_unmounted.
Qed.

Lemma getScores_ready (this : MultiRenderer) (heap : list RendererData)
      (tree : RendererDataTree) :
  rendererDataTree (state this) = Some tree ->
  conforms tree (shape (props this)) = true ->
  getScores keScoreFromPerseusScore this heap =
  Ok (Some (tmap (fun data _ => _scoreFromRef keScoreFromPerseusScore (ref_of heap data))
                 (fun data _ => _scoreFromRef keScoreFromPerseusScore (ref_of heap data))
                 (fun v _ => v) plain tree (shape (props this)) [])).
Proof.
  intros Htree Hconf. unfold getScores, run_local.
  by erewrite _mapRenderers_ready
    with (f := fun data _ => _scoreFromRef keScoreFromPerseusScore (ref_of heap data))
         (u := fun _ _ st => st);
    [| |exact Htree|exact Hconf].
Qed.

Lemma getSerializedState_ready (this : MultiRenderer) (heap : list RendererData)
      (tree : RendererDataTree) :
  rendererDataTree (state this) = Some tree ->
  conforms tree (shape (props this)) = true ->
  getSerializedState this heap =
  Ok (Some (tmap (fun data _ => match ref_of heap data with
                                | None => None
                                | Some r => Some (leaf_getSerializedState r)
                                end)
                 (fun data _ => match ref_of heap data with
                                | None => None
                                | Some r => Some (leaf_getSerializedState r)
                                end)
                 (fun v _ => v) plain tree (shape (props this)) [])).
Proof.
  intros Htree Hconf. unfold getSerializedState, run_local.
  erewrite _mapRenderers_ready
    with (f := fun data _ => match ref_of heap data with
                             | None => None
                             | Some r => Some (leaf_getSerializedState r)
                             end)
         (u := fun _ _ st => st);
    [reflexivity| |exact Htree|exact Hconf].
  intros data s p st. by destruct (ref_of heap data).
Qed.

Lemma score_leaves_agree (heap : list RendererData)
      (l : list (Path * Leaf addr addr unit)) :
  store_ok heap -> Forall (leaf_in_heap heap) l ->
  map (leaf_map
         (fun data _ => _scoreFromRef keScoreFromPerseusScore (ref_of heap data))
         (fun data _ => _scoreFromRef keScoreFromPerseusScore (ref_of heap data))
         (fun v (_ : Path) => v)) l =
  map (score_leaf keScoreFromPerseusScore heap) l.
Proof.
  intros Hok. induction 1 as [|[p [data|data|v]] l Hleaf _ IH]; simpl; [done|..];
    rewrite IH; f_equal.
  - f_equal. f_equal. unfold _scoreFromRef.
    destruct (ref_of heap data) as [r|]; [|done]. by destruct (guessAndScore r).
  - by rewrite (hint_leaf_unmounted Hok Hleaf).
Qed.

Lemma state_leaves_agree (heap : list RendererData)
      (l : list (Path * Leaf addr addr unit)) :
  store_ok heap -> Forall (leaf_in_heap heap) l ->
  map (leaf_map
         (fun data (_ : Path) => match ref_of heap data with
                                 | None => None
                                 | Some r => Some (leaf_getSerializedState r)
                                 end)
         (fun data (_ : Path) => match ref_of heap data with
                                 | None => None
                                 | Some r => Some (leaf_getSerializedState r)
                                 end)
         (fun v (_ : Path) => v)) l =
  map (state_leaf heap) l.
Proof.
  intros Hok. induction 1 as [|[p [data|data|v]] l Hleaf _ IH]; simpl; [done|..];
    rewrite IH; f_equal.
  by rewrite (hint_leaf_unmounted Hok Hleaf).
Qed.

(** C7, amended.  For every cached tree a component can hold that conforms
    to the current shape, [getScores()] returns a tree with the topology of
    the current item; at a content leaf it holds [null] if the
    back-reference is null and otherwise the leaf's own score combined with
    the leaf's guess; at every other leaf it holds [null]. *)
Theorem getScores_maps_every_leaf (w : World) (tree : RendererDataTree) :
  reachable w ->
  rendererDataTree (state (component w)) = Some tree ->
  conforms tree (shape (props (component w))) = true ->
  exists scores,
    getScores keScoreFromPerseusScore (component w) (cells (store w)) =
      Ok (Some scores) /\
    topology scores = topology (itemToTree (item (props (component w)))) /\
    leaves scores [] =
      map (score_leaf keScoreFromPerseusScore (cells (store w))) (leaves tree []).
Proof.
  intros Hreach Htree Hconf.
  destruct (reachable_world_ok Hreach) as (_ & Hok & Hcached).
  destruct (Hcached _ Htree) as [Hleaves [Htop _]].
  eexists. split; [by apply getScores_ready|].
  split; [by rewrite topology_tmap|].
  rewrite leaves_tmap. by apply score_leaves_agree.
Qed.
End LeafResults.

Section HintLeaves.
Context {ContentNode HintNode TagsNode RendererProps : Type}.
Context {WidgetRef Criterion Score Guess KEScore : Type}.
Variable keScoreFromPerseusScore : Score -> @GuessValue Guess -> KEScore.
Abbreviation MultiRenderer := (@MultiRenderer ContentNode HintNode TagsNode RendererProps).
Abbreviation Renderer := (@Renderer WidgetRef Criterion Score Guess).
Abbreviation RendererData :=
  (@RendererData ContentNode HintNode RendererProps WidgetRef Criterion Score Guess).
Abbreviation World :=
  (@World ContentNode HintNode TagsNode RendererProps WidgetRef Criterion Score Guess).

Lemma restored_leaf_restore (callback : bool) (data : addr) (r : Renderer)
      (leafState : JSValue) (st : Restoring) :
  restored (trace (leaf_restore callback data r leafState st)) =
  restored (trace st) ++ [data].
Proof.
  unfold leaf_restore.
  destruct (leaf_restoreSerializedState r leafState); simpl.
  - unfold leaf_completes, countCallback. simpl.
    destruct (callback && _); simpl; rewrite !restored_app; simpl;
      by rewrite ?app_nil_r.
  - by rewrite restored_app.
Qed.

(** The restorations a call hands out are those of the mounted leaves that
    have a state, in pre-order. *)
Lemma restored_fold (heap : list RendererData) (serializedState : JSValue)
      (callback : bool) (l : list (Path * Leaf addr addr unit)) :
  forall st,
    restored (trace (fold_left
                       (leaf_effect (restore_leaf heap serializedState callback)
                                    (restore_leaf heap serializedState callback)
                                    (fun _ _ st => st)) l st)) =
    restored (trace st) ++ dispatched heap serializedState l.
Proof.
  induction l as [|[p [data|data|v]] l IH]; intros st; simpl.
  - by rewrite app_nil_r.
  - rewrite IH. unfold restore_leaf.
    destruct (ref_of heap data) as [r|]; [|done].
    destruct (truthy (lens_get serializedState p)); simpl; [|done].
    by rewrite restored_leaf_restore, <- app_assoc.
  - rewrite IH. unfold restore_leaf.
    destruct (ref_of heap data) as [r|]; [|done].
    destruct (truthy (lens_get serializedState p)); simpl; [|done].
    by rewrite restored_leaf_restore, <- app_assoc.
  - apply IH.
Qed.

(** The leaves a call hands a restoration to. *)
Lemma restore_restored (this : MultiRenderer) (heap : list RendererData)
      (serializedState : JSValue) (callback : bool) (st : Restoring) :
  restoreSerializedState this heap serializedState callback = Ok st ->
  restored (trace st) =
  match rendererDataTree (state this) with
  | Some tree => dispatched heap serializedState (leaves tree [])
  | None => []
  end.
Proof.
  intros Hrun.
  destruct (restore_ok_inv Hrun) as [Herr | (tree & Htree & Hconf)].
  - rewrite (restore_errored heap serializedState callback Herr) in Hrun.
    injection Hrun as <-. by rewrite Herr.
  - rewrite (restore_ready heap serializedState callback Htree Hconf) in Hrun.
    injection Hrun as <-. by rewrite Htree, restored_fold.
Qed.

Lemma dispatched_mounted (heap : list RendererData) (serializedState : JSValue)
      (l : list (Path * Leaf addr addr unit)) (data : addr) :
  In data (dispatched heap serializedState l) -> ref_of heap data <> None.
Proof.
  unfold dispatched. rewrite in_flat_map. intros ([p [d|d|v]] & _ & Hin); [| |done].
  all: destruct (ref_of heap d) eqn:Href; [|done];
    destruct (truthy (lens_get serializedState p)); [|done];
    destruct Hin as [<-|[]]; congruence.
Qed.

Lemma hint_cells_in_heap (heap : list RendererData)
      (l : list (Path * Leaf addr addr unit)) :
  store_ok heap -> Forall (leaf_in_heap heap) l ->
  Forall (fun data => exists cell, heap !! data = Some cell /\
                                   hint cell <> None /\ ref cell = None)
         (omap hint_cell_of l).
Proof.
  intros Hok. induction 1 as [|[p [data|data|v]] l Hleaf _ IH]; simpl; try done.
  constructor; [|done]. destruct Hleaf as (cell & Hcell & Hhint).
  exists cell. split; [done|]. split; [done|]. by eapply hint_cell_unmounted.
Qed.

Lemma mounted_content_only (heap : list RendererData) (callingData : addr)
      (l : list (Path * Leaf addr addr unit)) :
  store_ok heap -> Forall (leaf_in_heap heap) l ->
  mounted heap (others callingData (omap cell_of l)) =
  mounted heap (others callingData (omap content_cell_of l)).
Proof.
  intros Hok. unfold mounted.
  induction 1 as [|[p [data|data|v]] l Hleaf _ IH]; simpl; try done.
  - destruct (negb (callingData =? data)); simpl; [|exact IH].
    destruct (ref_of heap data); [f_equal|]; exact IH.
  - destruct (negb (callingData =? data)); simpl; [|exact IH].
    rewrite (hint_leaf_unmounted Hok Hleaf). exact IH.
Qed.

(** C10. A cell built for a hint leaf never has a back-reference, in any
    state the component goes through.  Consequently, for the cached tree:
    every hint leaf's cell has a null back-reference; [findExternalWidgets]
    concatenates results of content leaves only; [getScores] and
    [getSerializedState] hold [null] at every hint leaf; and
    [restoreSerializedState] hands no hint leaf a restoration. *)
Theorem hint_cells_never_get_a_back_reference (w : World) :
  reachable w ->
  (forall data cell,
      cells (store w) !! data = Some cell -> hint cell <> None -> ref cell = None) /\
  forall tree,
    rendererDataTree (state (component w)) = Some tree ->
    Forall (fun data => exists cell, cells (store w) !! data = Some cell /\
                                     hint cell <> None /\ ref cell = None)
           (hint_cells tree) /\
    (conforms tree (shape (props (component w))) = true ->
     (forall (cellA : addr) (criterion : Criterion),
         _findWidgets (component w) (cells (store w)) cellA criterion =
         Ok (flat_map (fun r => findInternalWidgets r criterion)
                      (mounted (cells (store w)) (others cellA (content_cells tree))))) /\
     (exists scores,
         getScores keScoreFromPerseusScore (component w) (cells (store w)) =
           Ok (Some scores) /\
         leaves scores [] =
           map (score_leaf keScoreFromPerseusScore (cells (store w))) (leaves tree [])) /\
     (exists states,
         getSerializedState (component w) (cells (store w)) = Ok (Some states) /\
         leaves states [] = map (state_leaf (cells (store w))) (leaves tree [])) /\
     (forall serializedState callback st,
         restoreSerializedState (component w) (cells (store w)) serializedState callback =
           Ok st ->
         Forall (fun data => ~ In data (restored (trace st))) (hint_cells tree))).
Proof.
  intros Hreach. destruct (reachable_world_ok Hreach) as (_ & Hok & Hcached).
  split; [intros data cell; by apply hint_cell_unmounted|].
  intros tree Htree. destruct (Hcached _ Htree) as [Hleaves _].
  pose proof (hint_cells_in_heap Hok Hleaves) as Hhints.
  split; [exact Hhints|]. intros Hconf. repeat split.
  - intros cellA criterion. rewrite (_findWidgets_ready _ _ _ Htree Hconf).
    unfold leaf_cells, content_cells. by rewrite (mounted_content_only cellA Hok Hleaves).
  - eexists. split; [by apply getScores_ready|].
    rewrite leaves_tmap. by apply score_leaves_agree.
  - eexists. split; [by apply getSerializedState_ready|].
    rewrite leaves_tmap. by apply state_leaves_agree.
  - intros serializedState callback st Hrun.
    rewrite (restore_ready _ serializedState callback Htree Hconf) in Hrun.
    injection Hrun as <-. rewrite restored_fold. simpl.
    eapply Forall_impl; [exact Hhints|]. simpl.
    intros data (cell & Hcell & _ & Href) Hin.
    apply dispatched_mounted in Hin. apply Hin. unfold ref_of. by rewrite Hcell.
Qed.
End HintLeaves.

Section ArrayProperties.
Context {C C' H H' T T' X X' : Type}.
Variable fc : C -> Path -> C'.
Variable fh : H -> Path -> H'.
Variable ft : T -> Path -> T'.
Variable fa : list (Tree C H T X) -> Shape -> option X'.

Lemma nth_error_mapi {A B : Type} (f : A -> nat -> B) (l : list A) :
  forall k i, nth_error (mapi f l k) i =
              match nth_error l i with
              | Some a => Some (f a (k + i))
              | None => None
              end.
Proof.
  induction l as [|a l IH]; intros k [|i]; simpl; try done.
  - by rewrite Nat.add_0_r.
  - rewrite IH. by replace (Datatypes.S k + i) with (k + Datatypes.S i) by lia.
Qed.

(** The property of an array of the mapped tree is the one [fa] computes
    from the children of the array at the same path and from the array
    shape at that path. *)
Lemma tmap_array_extra (t : Tree C H T X) : forall s q p x kids,
  conforms t s = true ->
  subtree (tmap fc fh ft fa t s q) p = Some (Array x kids) ->
  exists es originals,
    subshape s p = Some (ArrayShape es) /\ x = fa originals (ArrayShape es).
Proof.
  induction t as [c|h|v|x0 children IH] using Tree_rose_ind;
    intros s q p x kids Hconf Hsub; destruct s; simpl in Hconf; try discriminate;
    destruct p as [|i p]; simpl in Hsub; try discriminate.
  - injection Hsub as <- _. by exists s, children.
  - rewrite nth_error_mapi in Hsub.
    destruct (nth_error children i) as [child|] eqn:Hchild; [|done].
    rewrite List.Forall_forall in IH.
    rewrite forallb_forall in Hconf.
    apply nth_error_In in Hchild.
    exact (IH child Hchild s (q ++ [0 + i]) p x kids (Hconf child Hchild) Hsub).
Qed.
End ArrayProperties.

Section RendererTree.
Context {ContentNode HintNode TagsNode RendererProps : Type}.
Context {WidgetRef Criterion Score Guess : Type}.
Abbreviation MultiRenderer := (@MultiRenderer ContentNode HintNode TagsNode RendererProps).
Abbreviation RendererData :=
  (@RendererData ContentNode HintNode RendererProps WidgetRef Criterion Score Guess).
Abbreviation RendererArray := (@RendererArray ContentNode HintNode RendererProps).

(** On an array of hint renderers: a new array is made with the same
    elements and [firstN] is set on the new one. *)
Lemma _annotateRendererArray_hint (renderers : addr)
      (rendererDatas : list RendererDataTree) (es : Shape)
      (arrays : list RendererArray) (a : RendererArray) :
  arrays !! renderers = Some a ->
  is_hint_shape es = true ->
  _annotateRendererArray renderers rendererDatas (ArrayShape es) arrays =
  (Ok (length arrays),
   arrays ++ [(Some {| hintRendererDatas := rendererDatas |}, snd a)]).
Proof.
  intros Ha Hhint. unfold _annotateRendererArray. rewrite Hhint.
  unfold bind, spread. cbn beta.
  match goal with
  | |- context [match ?x with Some _ => _ | None => _ end] =>
      replace x with (Some a) by (symmetry; exact Ha)
  end.
  unfold new_array, set_firstN, modify, ret. cbn beta iota.
  f_equal.
  replace (length arrays) with (length arrays + 0) at 1 by lia.
  by rewrite alter_app_r.
Qed.

Lemma _annotateRendererArray_other (renderers : addr)
      (rendererDatas : list RendererDataTree) (es : Shape)
      (arrays : list RendererArray) :
  is_hint_shape es = false ->
  _annotateRendererArray renderers rendererDatas (ArrayShape es) arrays =
  (Ok renderers, arrays).
Proof. intros Hother. unfold _annotateRendererArray. by rewrite Hother. Qed.

(** Seen from [mapTree], the transform keeps the mapped children and gives
    their array the property [annotation] says. *)
Lemma on_new_array_annotates {S : Type} (mapped : list RendererTree)
      (originals : list RendererDataTree) (es : Shape) (p : Path) (st : S) :
  on_new_array (ContentNode:=ContentNode) (HintNode:=HintNode)
               (RendererProps:=RendererProps)
               _annotateRendererArray mapped originals (ArrayShape es) p st =
  (Ok (annotation originals (ArrayShape es), mapped), st).
Proof.
  unfold on_new_array, annotation. simpl.
  destruct (is_hint_shape es); reflexivity.
Qed.

Lemma _getRenderers_ready (this : MultiRenderer) (heap : list RendererData)
      (tree : RendererDataTree) :
  rendererDataTree (state this) = Some tree ->
  conforms tree (shape (props this)) = true ->
  _getRenderers this heap =
  Ok (Some (tmap (fun data _ => renderer_of heap data)
                 (fun data _ => renderer_of heap data)
                 (fun v _ => v) annotation tree (shape (props this)) [])).
Proof.
  intros Htree Hconf. unfold _getRenderers, run_local.
  erewrite _mapRenderers_annotating
    with (f := fun data _ => renderer_of heap data) (fa := annotation);
    [reflexivity|done| |exact Htree|exact Hconf].
  intros. apply on_new_array_annotates.
Qed.

(** C8. [_annotateRendererArray] attaches [firstN] exactly to arrays whose
    element shape is the hint shape, and attaches it to a copy: the array
    returned is a new one with the same elements, and the array it was given
    is still in the heap as it was.  An array of any other element shape is
    returned as it is, the very same array.  In the tree of renderer
    elements that is exposed, which has the topology of the cached tree, an
    array has [firstN] if and only if the element shape of the array at that
    path is the hint shape. *)
Theorem firstN_exactly_on_hint_arrays :
  (forall (renderers : addr) (rendererDatas : list RendererDataTree) (es : Shape)
          (arrays : list RendererArray) (a : RendererArray),
      arrays !! renderers = Some a ->
      exists returned arrays',
        _annotateRendererArray renderers rendererDatas (ArrayShape es) arrays =
          (Ok returned, arrays') /\
        arrays' !! renderers = Some a /\
        if is_hint_shape es
        then returned <> renderers /\ arrays !! returned = None /\
             arrays' !! returned =
               Some (Some {| hintRendererDatas := rendererDatas |}, snd a)
        else returned = renderers /\ arrays' = arrays) /\
  (forall (this : MultiRenderer) (heap : list RendererData) (tree : RendererDataTree),
      rendererDataTree (state this) = Some tree ->
      conforms tree (shape (props this)) = true ->
      exists renderers,
        _getRenderers this heap = Ok (Some renderers) /\
        topology renderers = topology tree /\
        forall p x kids,
          subtree renderers p = Some (Array x kids) ->
          exists es, subshape (shape (props this)) p = Some (ArrayShape es) /\
                     (x <> None <-> is_hint_shape es = true)).
Proof.
  split.
  - intros renderers rendererDatas es arrays a Ha.
    destruct (is_hint_shape es) eqn:Hhint.
    + rewrite (_annotateRendererArray_hint rendererDatas Ha Hhint).
      do 2 eexists. split; [reflexivity|].
      split; [by apply lookup_app_l_Some|].
      apply lookup_lt_Some in Ha as Hlt. split; [lia|].
      split; [by apply lookup_ge_None|].
      by rewrite lookup_app_r, Nat.sub_diag.
    + rewrite (_annotateRendererArray_other renderers rendererDatas arrays Hhint).
      by do 2 eexists.
  - intros this heap tree Htree Hconf.
    eexists. split; [by apply _getRenderers_ready|].
    split; [apply topology_tmap|].
    intros p x kids Hsub.
    destruct (tmap_array_extra Hconf Hsub) as (es & originals & Hshape & ->).
    exists es. split; [done|]. unfold annotation. simpl.
    by destruct (is_hint_shape es).
Qed.
End RendererTree.

Section Completion.
Context {ContentNode HintNode TagsNode RendererProps : Type}.
Context {WidgetRef Criterion Score Guess : Type}.
Abbreviation MultiRenderer := (@MultiRenderer ContentNode HintNode TagsNode RendererProps).
Abbreviation Renderer := (@Renderer WidgetRef Criterion Score Guess).
Abbreviation RendererData :=
  (@RendererData ContentNode HintNode RendererProps WidgetRef Criterion Score Guess).

Abbreviation restore_all heap serializedState callback l st :=
  (fold_left (leaf_effect (restore_leaf heap serializedState callback)
                          (restore_leaf heap serializedState callback)
                          (fun _ _ unchanged => unchanged)) l st).

(** When as many leaves are pending as the counter says, the callback runs
    once, after the last of them has completed. *)
Lemma complete_later_counts_down (order : list addr) : forall st,
  order <> [] ->
  numCallbacks st = Z.of_nat (length order) ->
  trace (complete_later true order st) =
  trace st ++ map Completed order ++ [Callback].
Proof.
  induction order as [|data rest IH]; intros st Hne Hcount; [done|].
  change (complete_later true (data :: rest) st)
    with (complete_later true rest (leaf_completes true data st)).
  destruct rest as [|data' rest].
  - simpl in *. unfold leaf_completes, countCallback. simpl.
    rewrite Hcount. simpl. by rewrite <- app_assoc.
  - assert (Hstep : leaf_completes true data st =
                    {| numCallbacks := (numCallbacks st - 1)%Z;
                       trace := trace st ++ [Completed data] |}).
    { unfold leaf_completes, countCallback. simpl.
      replace (numCallbacks st - 1 =? 0)%Z with false; [done|].
      symmetry. apply Z.eqb_neq. simpl length in Hcount. lia. }
    rewrite IH; [|done|rewrite Hstep; simpl in *; lia].
    rewrite Hstep. simpl. by rewrite <- app_assoc.
Qed.

(** A leaf whose restoration completes later only raises the counter. *)
Lemma restore_fold_later (heap : list RendererData) (serializedState : JSValue)
      (callback : bool) (l : list (Path * Leaf addr addr unit)) :
  (forall data r leafState,
      ref_of heap data = Some r -> leaf_restoreSerializedState r leafState = Later) ->
  forall st,
    numCallbacks (restore_all heap serializedState callback l st) =
      (numCallbacks st + Z.of_nat (length (dispatched heap serializedState l)))%Z /\
    completed (trace (restore_all heap serializedState callback l st)) =
      completed (trace st) /\
    callbacks (trace (restore_all heap serializedState callback l st)) =
      callbacks (trace st).
Proof.
  intros Hlater. induction l as [|[p leaf] l IH]; intros st.
  - simpl. repeat split. lia.
  - cbn [fold_left].
    destruct (IH (leaf_effect (restore_leaf heap serializedState callback)
                              (restore_leaf heap serializedState callback)
                              (fun _ _ st => st) st (p, leaf))) as (Hn & Hc & Hcb).
    rewrite Hn, Hc, Hcb. clear IH Hn Hc Hcb.
    destruct leaf as [data|data|v]; simpl; [| |repeat split; lia].
    all: unfold restore_leaf; destruct (ref_of heap data) as [r|] eqn:Href;
      [|repeat split; lia];
      destruct (truthy (lens_get serializedState p)); simpl; [|repeat split; lia];
      unfold leaf_restore; rewrite (Hlater _ _ _ Href); simpl;
      rewrite completed_app, callbacks_app; simpl;
      rewrite ?app_nil_r, ?Nat.add_0_r; repeat split; try done; lia.
Qed.

(** X17. The fan-in when no leaf completes during the call.  If every
    mounted leaf completes its restoration at a
    later tick and at least one leaf is handed a restoration, then the
    leaves handed one are those mounted with a state ([N] of them), and in
    whichever order they complete the caller's callback runs exactly once,
    after all [N] completions. *)
Lemma restore_calls_back_once_if_leaves_complete_later
      (this : MultiRenderer) (heap : list RendererData) (tree : RendererDataTree)
      (serializedState : JSValue) :
  rendererDataTree (state this) = Some tree ->
  conforms tree (shape (props this)) = true ->
  (forall data r leafState,
      ref_of heap data = Some r -> leaf_restoreSerializedState r leafState = Later) ->
  dispatched heap serializedState (leaves tree []) <> [] ->
  exists st,
    restoreSerializedState this heap serializedState true = Ok st /\
    restored (trace st) = dispatched heap serializedState (leaves tree []) /\
    callbacks (trace st) = 0 /\
    forall order,
      Permutation order (pending (trace st)) ->
      trace (complete_later true order st) =
        trace st ++ map Completed order ++ [Callback] /\
      callbacks (trace (complete_later true order st)) = 1.
Proof.
  intros Htree Hconf Hlater Hsome.
  rewrite (restore_ready heap serializedState true Htree Hconf).
  eexists. split; [reflexivity|].
  destruct (restore_fold_later serializedState true (leaves tree []) Hlater restore_start)
    as (Hn & Hc & Hcb).
  pose proof (restored_fold heap serializedState true (leaves tree []) restore_start)
    as Hrestored.
  simpl in *. split; [done|]. split; [done|].
  intros order Hperm. unfold pending in Hperm. rewrite Hc, Hrestored in Hperm.
  simpl in Hperm. rewrite forallb_filter_id in Hperm by (by apply forallb_forall).
  assert (Htrace :
            trace (complete_later true order
                     (restore_all heap serializedState true (leaves tree []) restore_start)) =
            trace (restore_all heap serializedState true (leaves tree []) restore_start)
            ++ map Completed order ++ [Callback]).
  { apply complete_later_counts_down.
    - intros ->. apply Permutation_nil in Hperm. congruence.
    - rewrite Hn. pose proof (Permutation_length Hperm). lia. }
  split; [exact Htrace|].
  assert (Hnone : forall l, callbacks (map Completed l) = 0) by (induction l; done).
  by rewrite Htrace, !callbacks_app, Hcb, Hnone.
Qed.
(** A leaf whose restoration completes during the call brings the counter
    back to where it was: if that is zero, the caller's callback runs. *)
Lemma restore_fold_synchronous (heap : list RendererData) (serializedState : JSValue)
      (l : list (Path * Leaf addr addr unit)) :
  (forall data r leafState,
      ref_of heap data = Some r ->
      leaf_restoreSerializedState r leafState = Synchronously) ->
  forall st,
    numCallbacks st = 0%Z ->
    numCallbacks (restore_all heap serializedState true l st) = 0%Z /\
    callbacks (trace (restore_all heap serializedState true l st)) =
      callbacks (trace st) + length (dispatched heap serializedState l).
Proof.
  intros Hsync. induction l as [|[p leaf] l IH]; intros st Hzero.
  - simpl. split; [done|lia].
  - cbn [fold_left].
    assert (Hleaf :
              numCallbacks (leaf_effect (restore_leaf heap serializedState true)
                                        (restore_leaf heap serializedState true)
                                        (fun _ _ unchanged => unchanged) st (p, leaf)) = 0%Z /\
              callbacks (trace (leaf_effect (restore_leaf heap serializedState true)
                                            (restore_leaf heap serializedState true)
                                            (fun _ _ unchanged => unchanged) st (p, leaf))) =
              callbacks (trace st) + length (dispatched heap serializedState [(p, leaf)])).
    { destruct leaf as [data|data|v]; simpl; [| |split; [done|lia]].
      all: unfold restore_leaf; destruct (ref_of heap data) as [r|] eqn:Href;
        [|split; [done|simpl; lia]];
        destruct (truthy (lens_get serializedState p)); simpl; [|split; [done|lia]];
        unfold leaf_restore; rewrite (Hsync _ _ _ Href);
        unfold leaf_completes, countCallback; simpl; rewrite Hzero; simpl;
        rewrite !callbacks_app; simpl; split; [done|];
        change (callbacks [Dispatched data (lens_get serializedState p)]) with 0;
        change (callbacks [Completed data]) with 0;
        change (callbacks [Callback]) with 1; lia. }
    destruct Hleaf as [Hzero' Hcount]. destruct (IH _ Hzero') as [Hn Hcb].
    split; [exact Hn|]. rewrite Hcb, Hcount.
    change ((p, leaf) :: l) with ([(p, leaf)] ++ l).
    unfold dispatched. rewrite flat_map_app, length_app. lia.
Qed.

(** X18. The fan-in when every leaf completes during the call: the caller's
    callback runs once for every leaf that is handed a restoration, each
    time before the next leaf is visited. *)
Lemma restore_calls_back_per_leaf_if_leaves_complete_synchronously
      (this : MultiRenderer) (heap : list RendererData) (tree : RendererDataTree)
      (serializedState : JSValue) :
  rendererDataTree (state this) = Some tree ->
  conforms tree (shape (props this)) = true ->
  (forall data r leafState,
      ref_of heap data = Some r ->
      leaf_restoreSerializedState r leafState = Synchronously) ->
  exists st,
    restoreSerializedState this heap serializedState true = Ok st /\
    callbacks (trace st) = length (dispatched heap serializedState (leaves tree [])).
Proof.
  intros Htree Hconf Hsync.
  rewrite (restore_ready heap serializedState true Htree Hconf).
  eexists. split; [reflexivity|].
  by destruct (restore_fold_synchronous serializedState (leaves tree []) Hsync
                 (st := restore_start) eq_refl) as [_ ->].
Qed.
End Completion.

(* ===================================================================== *)
(** ** The statements on the concrete exercises *)
(* ===================================================================== *)

Lemma ex_constructed_reachable (p : @Props nat nat nat nat) :
  reachable (ex_constructed p).
Proof.
  unfold ex_constructed. eapply reachable_constructed.
  destruct (_tryMakeRendererState_returns p p
              (empty_store : @Store nat nat nat nat nat (nat * nat) nat))
    as (s & st' & Hrun).
  unfold constructor, bind. rewrite Hrun. reflexivity.
Qed.

Lemma ex_world_sync_reachable : reachable ex_world_sync.
Proof.
  pose proof (ex_constructed_reachable (ex_props ex_pair (ArrayShape ContentShape)))
    as Hnew.
  unfold ex_world_sync.
  eapply reachable_step.
  - eapply reachable_step; [exact Hnew|].
    eapply (step_ref (owner := 0) (data := 0)); reflexivity.
  - eapply (step_ref (owner := 1) (data := 1)); reflexivity.
Qed.

Lemma ex_world_hints_reachable : reachable ex_world_hints.
Proof. apply ex_constructed_reachable. Qed.

Lemma ex_world_tags_reachable : reachable ex_world_tags.
Proof. apply ex_constructed_reachable. Qed.

Lemma ex_world_reshaped_reachable : reachable ex_world_reshaped.
Proof.
  unfold ex_world_reshaped. cbv zeta.
  eapply reachable_step; [exact ex_world_sync_reachable|].
  apply (step_props (w := ex_world_sync)
                    (nextProps := ex_props ex_pair (ArrayShape (ArrayShape ContentShape))));
    reflexivity.
Qed.

(** C2, on the code.  Two mounted content leaves, both with a state in the
    tree that is restored and both completing during the call that hands
    them their state: the caller's callback runs twice, the first time
    before the second leaf has even been handed its state. *)
Theorem restore_calls_back_early_when_a_leaf_completes_synchronously :
  restoreSerializedState (component ex_world_sync) (cells (store ex_world_sync))
                         (JArray [JNumber 1; JNumber 2]) true =
  Ok {| numCallbacks := 0;
        trace := [Dispatched 0 (JNumber 1); Completed 0; Callback;
                  Dispatched 1 (JNumber 2); Completed 1; Callback] |} /\
  callbacks [Dispatched 0 (JNumber 1); Completed 0; Callback;
             Dispatched 1 (JNumber 2); Completed 1; Callback] = 2.
Proof. split; reflexivity. Qed.

Lemma score_without_scores_throws_witness :
  let this := component ex_world_hints in
  let heap := cells (store ex_world_hints) in
  (rendererDataTree (state this) = None \/
   (exists tree, rendererDataTree (state this) = Some tree /\
                 conforms tree (shape (props this)) = true /\
                 mounted heap (leaf_cells tree) = [])) /\
  score ex_combineScores ex_keScore this heap =
  Throw (TypeError "Reduce of empty array with no initial value").
Proof.
  intros this heap.
  assert (Hnone : rendererDataTree (state this) = None \/
                  (exists tree, rendererDataTree (state this) = Some tree /\
                                conforms tree (shape (props this)) = true /\
                                mounted heap (leaf_cells tree) = [])).
  { right. exists (Array None [Hint 0; Hint 1]). repeat split; reflexivity. }
  split; [exact Hnone|].
  exact (score_without_scores_throws ex_combineScores ex_keScore Hnone).
Defined.

Lemma findExternalWidgets_witness :
  let this := component ex_world_sync in
  let heap := cells (store ex_world_sync) in
  let tree : RendererDataTree := Array None [Content 0; Content 1] in
  rendererDataTree (state this) = Some tree /\
  conforms tree (shape (props this)) = true /\
  _findWidgets this heap 0 4 =
    Ok (flat_map (fun r => findInternalWidgets r 4)
                 (mounted heap (others 0 (leaf_cells tree)))) /\
  forall heap' : list (@RendererData nat nat nat nat nat (nat * nat) nat),
    (forall data, data <> 0 -> heap' !! data = heap !! data) ->
    _findWidgets this heap' 0 4 = _findWidgets this heap 0 4.
Proof.
  intros this heap tree.
  assert (Htree : rendererDataTree (state this) = Some tree) by reflexivity.
  assert (Hconf : conforms tree (shape (props this)) = true) by reflexivity.
  split; [exact Htree|]. split; [exact Hconf|].
  exact (findExternalWidgets_concatenates_the_others heap 0 4 Htree Hconf).
Defined.

(** C3, as stated, fails where the shape has been changed while the item
    was kept: the cached tree of the two mounted leaves no longer conforms to
    the shape, and the call does not return the widgets of the other
    leaf. *)
Lemma findExternalWidgets_counterexample :
  reachable ex_world_reshaped /\
  rendererDataTree (state (component ex_world_reshaped)) =
    Some (Array None [Content 0; Content 1]) /\
  flat_map (fun r => findInternalWidgets r 4)
           (mounted (cells (store ex_world_reshaped))
                    (others 0 (leaf_cells (Array None [Content 0; Content 1]
                                           : RendererDataTree)))) = [7] /\
  _findWidgets (component ex_world_reshaped) (cells (store ex_world_reshaped)) 0 4 <>
    Ok [7].
Proof.
  split; [exact ex_world_reshaped_reachable|]. split; [reflexivity|].
  split; [reflexivity|]. discriminate.
Qed.

Lemma rebuild_iff_item_identity_changes_witness :
  let this := component ex_world_sync in
  let st := store ex_world_sync in
  let nextProps := ex_props ex_pair_again (ArrayShape ContentShape) in
  item_value (item nextProps) = item_value (item (props this)) /\
  item_ref (item nextProps) <> item_ref (item (props this)) /\
  conforms (itemToTree (item nextProps)) (shape nextProps) = true /\
  exists s st',
    componentWillReceiveProps this nextProps st =
      (Ok {| props := props this; state := s |}, st') /\
    _tryMakeRendererState (props this) nextProps st = (Ok s, st') /\
    (forall data cell, cells st !! data = Some cell -> cells st' !! data = Some cell) /\
    exists tree' : RendererDataTree,
      s = {| rendererDataTree := nullable tree'; renderError := None |} /\
      topology tree' = topology (itemToTree (item nextProps)) /\
      cells st' =
        cells st ++
        cells_for (otherProps (props this)) (length (cells st))
                  (leaves (itemToTree (item nextProps)) []) /\
      leaves tree' [] =
        leaves_for (length (cells st)) (leaves (itemToTree (item nextProps)) []) /\
      Forall (fun data => cells st !! data = None /\
                          exists cell, cells st' !! data = Some cell /\ ref cell = None)
             (leaf_cells tree').
Proof.
  intros this st nextProps.
  assert (Hne : item_ref (item nextProps) <> item_ref (item (props this)))
    by (simpl; lia).
  assert (Hconf : conforms (itemToTree (item nextProps)) (shape nextProps) = true)
    by reflexivity.
  split; [reflexivity|]. split; [exact Hne|]. split; [exact Hconf|].
  destruct (proj2 (rebuild_iff_item_identity_changes this nextProps st) Hne)
    as (s & st' & Hhook & Hbuild & Hkept & Hbuilt & _).
  exists s, st'. split; [exact Hhook|]. split; [exact Hbuild|]. split; [exact Hkept|].
  exact (Hbuilt Hconf).
Defined.

Lemma rebuild_captures_the_error_witness :
  let thisProps := ex_props ex_pair_again (ArrayShape ContentShape) in
  let p := ex_props ex_pair ContentShape in
  let st : @Store nat nat nat nat nat (nat * nat) nat := empty_store in
  let e := ShapeMismatch [] in
  let errored := {| rendererDataTree := None; renderError := Some e |} in
  _makeRendererDataTree thisProps (item p) (shape p) st = (Throw e, st) /\
  _tryMakeRendererState thisProps p st =
    (Ok errored, {| cells := cells st; console := console st ++ [e] |}) /\
  (forall this : @MultiRenderer nat nat nat nat,
      props this = thisProps ->
      item_ref (item p) <> item_ref (item thisProps) ->
      componentWillReceiveProps this p st =
      (Ok {| props := thisProps; state := errored |},
       {| cells := cells st; console := console st ++ [e] |})) /\
  (forall (pr : @Props nat nat nat nat)
          (heap : list (@RendererData nat nat nat nat nat (nat * nat) nat)),
      render {| props := pr; state := errored |} heap = Ok (EError e)).
Proof.
  intros thisProps p st e errored.
  assert (Hthrows :
            _makeRendererDataTree thisProps (item p) (shape p) st = (Throw e, st))
    by reflexivity.
  split; [exact Hthrows|].
  exact (rebuild_captures_the_error Hthrows).
Defined.

(** C6, as stated, fails for an item that is one tags leaf: its tree is the
    [null] of that leaf, and the state has neither a tree nor an error. *)
Lemma exactly_one_counterexample :
  reachable ex_world_tags /\ ~ exactly_one (state (component ex_world_tags)).
Proof.
  split; [exact ex_world_tags_reachable|].
  intros [[Hsome _] | [_ Herr]]; [by apply Hsome|by apply Herr].
Qed.

Lemma tree_or_error_unless_tags_only_witness :
  reachable ex_world_tags /\
  (exactly_one (state (component ex_world_tags)) \/ tags_only (component ex_world_tags)).
Proof.
  split; [exact ex_world_tags_reachable|].
  exact (proj1 (tree_or_error_unless_tags_only
                  (ContentNode:=nat) (HintNode:=nat) (TagsNode:=nat)
                  (RendererProps:=nat) (WidgetRef:=nat) (Criterion:=nat)
                  (Score:=nat * nat) (Guess:=nat))
               ex_world_tags ex_world_tags_reachable).
Defined.

(** C7, as stated, fails where the shape has been changed while the item
    was kept: [getScores] does not return a tree with the topology of the
    item. *)
Lemma getScores_counterexample :
  reachable ex_world_reshaped /\
  rendererDataTree (state (component ex_world_reshaped)) =
    Some (Array None [Content 0; Content 1]) /\
  ~ exists scores,
      getScores ex_keScore (component ex_world_reshaped)
                (cells (store ex_world_reshaped)) = Ok (Some scores) /\
      topology scores =
        topology (itemToTree (item (props (component ex_world_reshaped)))).
Proof.
  split; [exact ex_world_reshaped_reachable|]. split; [reflexivity|].
  intros (scores & Hrun & _). discriminate Hrun.
Qed.

Lemma getScores_maps_every_leaf_witness :
  let w := ex_world_sync in
  let tree : RendererDataTree := Array None [Content 0; Content 1] in
  reachable w /\
  rendererDataTree (state (component w)) = Some tree /\
  conforms tree (shape (props (component w))) = true /\
  exists scores,
    getScores ex_keScore (component w) (cells (store w)) = Ok (Some scores) /\
    topology scores = topology (itemToTree (item (props (component w)))) /\
    leaves scores [] = map (score_leaf ex_keScore (cells (store w))) (leaves tree []).
Proof.
  intros w tree.
  assert (Htree : rendererDataTree (state (component w)) = Some tree) by reflexivity.
  assert (Hconf : conforms tree (shape (props (component w))) = true) by reflexivity.
  split; [exact ex_world_sync_reachable|]. split; [exact Htree|].
  split; [exact Hconf|].
  exact (getScores_maps_every_leaf ex_keScore ex_world_sync_reachable Htree Hconf).
Defined.

Lemma firstN_exactly_on_hint_arrays_witness :
  let this := component ex_world_hints in
  let heap := cells (store ex_world_hints) in
  let tree : RendererDataTree := Array None [Hint 0; Hint 1] in
  rendererDataTree (state this) = Some tree /\
  conforms tree (shape (props this)) = true /\
  exists renderers,
    _getRenderers this heap = Ok (Some renderers) /\
    topology renderers = topology tree /\
    forall p x kids,
      subtree renderers p = Some (Array x kids) ->
      exists es, subshape (shape (props this)) p = Some (ArrayShape es) /\
                 (x <> None <-> is_hint_shape es = true).
Proof.
  intros this heap tree.
  assert (Htree : rendererDataTree (state this) = Some tree) by reflexivity.
  assert (Hconf : conforms tree (shape (props this)) = true) by reflexivity.
  split; [exact Htree|]. split; [exact Hconf|].
  exact (proj2 (firstN_exactly_on_hint_arrays (ContentNode:=nat) (HintNode:=nat)
                  (TagsNode:=nat) (RendererProps:=nat) (WidgetRef:=nat)
                  (Criterion:=nat) (Score:=nat * nat) (Guess:=nat))
               this heap tree Htree Hconf).
Defined.

Lemma restore_without_dispatch_never_calls_back_witness :
  let this := component ex_world_sync in
  let heap := cells (store ex_world_sync) in
  restoreSerializedState this heap (JArray [JNull; JNumber 0]) true = Ok restore_start /\
  restored (trace restore_start) = [] /\
  never_invoked true restore_start.
Proof.
  intros this heap.
  assert (Hrun : restoreSerializedState this heap (JArray [JNull; JNumber 0]) true =
                 Ok restore_start) by reflexivity.
  assert (Hnone : restored (trace restore_start) = []) by reflexivity.
  split; [exact Hrun|]. split; [exact Hnone|].
  exact (restore_without_dispatch_never_calls_back Hrun Hnone).
Defined.

Lemma hint_cells_never_get_a_back_reference_witness :
  let w := ex_world_hints in
  reachable w /\
  (forall data cell,
      cells (store w) !! data = Some cell -> hint cell <> None -> ref cell = None) /\
  forall tree,
    rendererDataTree (state (component w)) = Some tree ->
    Forall (fun data => exists cell, cells (store w) !! data = Some cell /\
                                     hint cell <> None /\ ref cell = None)
           (hint_cells tree) /\
    (conforms tree (shape (props (component w))) = true ->
     (forall (cellA : addr) (criterion : nat),
         _findWidgets (component w) (cells (store w)) cellA criterion =
         Ok (flat_map (fun r => findInternalWidgets r criterion)
                      (mounted (cells (store w)) (others cellA (content_cells tree))))) /\
     (exists scores,
         getScores ex_keScore (component w) (cells (store w)) = Ok (Some scores) /\
         leaves scores [] =
           map (score_leaf ex_keScore (cells (store w))) (leaves tree [])) /\
     (exists states,
         getSerializedState (component w) (cells (store w)) = Ok (Some states) /\
         leaves states [] = map (state_leaf (cells (store w))) (leaves tree [])) /\
     (forall serializedState callback st,
         restoreSerializedState (component w) (cells (store w)) serializedState callback =
           Ok st ->
         Forall (fun data => ~ In data (restored (trace st))) (hint_cells tree))).
Proof.
  intros w. split; [exact ex_world_hints_reachable|].
  exact (hint_cells_never_get_a_back_reference ex_keScore ex_world_hints_reachable).
Defined.

(** The composite score of two mounted leaves scoring (1,1) and (0,1) is
    (1,2), next to the tree of their guesses. *)
Example score_of_two_mounted_leaves :
  score ex_combineScores ex_keScore
        (component ex_world_sync) (cells (store ex_world_sync)) =
  Ok ((1, 2), GTree (Some (Array None [Content (Some 1); Content (Some 0)]))).
Proof. reflexivity. Qed.

(** With leaves that complete later, the same restoration calls back once,
    whichever leaf completes first. *)
Example restore_later_in_reverse_order :
  match restoreSerializedState (component ex_world_later)
                               (cells (store ex_world_later))
                               (JArray [JNumber 1; JNumber 2]) true with
  | Ok st => trace (complete_later true [1; 0] st)
  | Throw _ => []
  end =
  [Dispatched 0 (JNumber 1); Dispatched 1 (JNumber 2);
   Completed 1; Completed 0; Callback].
Proof. reflexivity. Qed.

(* ===================================================================== *)
(** ** Properties of the text-input widget *)
(* ===================================================================== *)

Section TextInputFacts.
Variable calcEditDistance : string -> string -> nat.
Variable RegExp_test RegExp_test' : string -> string -> result bool.

(** X1. Whenever the input shows no text -- the value is the empty string,
    null or undefined, as with the default props -- grading the widget gives
    the invalid result with the unanswered message, whatever the rubric, and
    without reading the edit distance or the regex. *)
Theorem empty_input_is_invalid (props : TextInputProps) (rubric : Rubric) :
  input_value props = EmptyString ->
  simpleValidate calcEditDistance RegExp_test props rubric =
  Ok (Invalid "It looks like you haven't answered all of the question yet.").
Proof.
  unfold input_value, simpleValidate, getUserInput_widget, validate.
  destruct (value props) as [v|]; [|done]. by intros ->.
Qed.

(** Within tolerance, the answer is correct. *)
Lemma validate_within_tolerance (v : string) (rubric : Rubric) :
  v <> EmptyString ->
  QArith_base.Qle_bool
    (QArith_base.inject_Z (Z.of_nat (calcEditDistance (answer rubric) v)))
    (editDistance rubric) = true ->
  validate calcEditDistance RegExp_test (Some v) rubric = Ok (Points 1 1 None).
Proof.
  intros Hv Hwithin. unfold validate. destruct v as [|a v]; [done|].
  by rewrite Hwithin.
Qed.

(** Out of tolerance, the regex decides if there is one, and the answer is
    wrong if there is none. *)
Lemma validate_out_of_tolerance (v : string) (rubric : Rubric) :
  v <> EmptyString ->
  QArith_base.Qle_bool
    (QArith_base.inject_Z (Z.of_nat (calcEditDistance (answer rubric) v)))
    (editDistance rubric) = false ->
  validate calcEditDistance RegExp_test (Some v) rubric =
  match has_gradingRegex rubric with
  | Some source =>
      match RegExp_test source v with
      | Ok true => Ok (Points 1 1 None)
      | Ok false => Ok (Points 0 1 None)
      | Throw e => Throw e
      end
  | None => Ok (Points 0 1 None)
  end.
Proof.
  intros Hv Hout. unfold validate. destruct v as [|a v]; [done|].
  rewrite Hout. simpl. by destruct (has_gradingRegex rubric).
Qed.

(** X2. Raising the letter tolerance never turns a correct answer into a
    wrong one or into an error: an answer graded correct stays correct under
    every rubric that differs only by a tolerance at least as large. *)
Theorem more_tolerance_keeps_correct (userInput : option string)
        (rubric rubric' : Rubric) :
  answer rubric' = answer rubric ->
  gradingRegex rubric' = gradingRegex rubric ->
  QArith_base.Qle (editDistance rubric) (editDistance rubric') ->
  validate calcEditDistance RegExp_test userInput rubric = Ok (Points 1 1 None) ->
  validate calcEditDistance RegExp_test userInput rubric' = Ok (Points 1 1 None).
Proof.
  intros Hanswer Hregex Hle Hcorrect.
  destruct userInput as [v|]; [|done].
  destruct v as [|a v0]; [done|].
  assert (Hv : String a v0 <> EmptyString) by done. remember (String a v0) as v.
  destruct (QArith_base.Qle_bool
              (QArith_base.inject_Z (Z.of_nat (calcEditDistance (answer rubric') v)))
              (editDistance rubric')) eqn:Hwithin';
    [by apply validate_within_tolerance|].
  destruct (QArith_base.Qle_bool
              (QArith_base.inject_Z (Z.of_nat (calcEditDistance (answer rubric) v)))
              (editDistance rubric)) eqn:Hwithin.
  - apply QArith_base.Qle_bool_iff in Hwithin.
    assert (Hwithin'' : QArith_base.Qle_bool
              (QArith_base.inject_Z (Z.of_nat (calcEditDistance (answer rubric') v)))
              (editDistance rubric') = true).
    { apply QArith_base.Qle_bool_iff. rewrite Hanswer.
      eapply QArith_base.Qle_trans; eassumption. }
    congruence.
  - rewrite (validate_out_of_tolerance Hv Hwithin) in Hcorrect.
    rewrite (validate_out_of_tolerance Hv Hwithin').
    unfold has_gradingRegex in *. by rewrite Hregex.
Qed.

(** X3. The regex is only a fallback.  When the answer is within the
    tolerance, or the rubric has no regex (missing or empty), grading does
    not depend on what [new RegExp(...).test] would do -- in particular a
    malformed regex cannot make it throw -- and it returns a result. *)
Theorem regex_is_only_a_fallback (userInput : option string) (rubric : Rubric) :
  (forall v, userInput = Some v ->
     QArith_base.Qle_bool
       (QArith_base.inject_Z (Z.of_nat (calcEditDistance (answer rubric) v)))
       (editDistance rubric) = true \/
     has_gradingRegex rubric = None) ->
  validate calcEditDistance RegExp_test userInput rubric =
    validate calcEditDistance RegExp_test' userInput rubric /\
  exists graded, validate calcEditDistance RegExp_test userInput rubric = Ok graded.
Proof.
  intros Hfallback. destruct userInput as [v|]; [|split; [done|by eexists]].
  destruct v as [|a v0]; [split; [done|by eexists]|].
  remember (String a v0) as v.
  destruct (QArith_base.Qle_bool
              (QArith_base.inject_Z (Z.of_nat (calcEditDistance (answer rubric) v)))
              (editDistance rubric)) eqn:Hwithin.
  - unfold validate. rewrite Heqv, <- Heqv, Hwithin. split; [done|by eexists].
  - destruct (Hfallback v eq_refl) as [Habs|Hnone]; [congruence|].
    unfold validate. rewrite Heqv, <- Heqv, Hwithin, Hnone.
    split; [done|by eexists].
Qed.
End TextInputFacts.

(* ===================================================================== *)
(** ** Further properties of the engine *)
(* ===================================================================== *)

Section NoCachedTree.
Context {ContentNode HintNode TagsNode RendererProps : Type}.
Context {WidgetRef Criterion Score Guess KEScore : Type}.
Variable keScoreFromPerseusScore : Score -> @GuessValue Guess -> KEScore.
Abbreviation MultiRenderer := (@MultiRenderer ContentNode HintNode TagsNode RendererProps).
Abbreviation RendererData :=
  (@RendererData ContentNode HintNode RendererProps WidgetRef Criterion Score Guess).

(** X4. Without a cached tree (the Errored state) the traversals other than
    [score] do not throw: [getScores], [getSerializedState] and the exposed
    renderer tree are [null], [findExternalWidgets] finds nothing, and
    [restoreSerializedState] returns having handed out nothing. *)
Theorem without_a_tree_the_traversals_return_null
        (this : MultiRenderer) (heap : list RendererData) :
  rendererDataTree (state this) = None ->
  getScores keScoreFromPerseusScore this heap = Ok None /\
  getSerializedState this heap = Ok None /\
  _getRenderers this heap = Ok None /\
  (forall (callingData : addr) (criterion : Criterion),
      _findWidgets this heap callingData criterion = Ok (@nil WidgetRef)) /\
  (forall serializedState callback,
      restoreSerializedState this heap serializedState callback = Ok restore_start).
Proof.
  intros Hnone. repeat split.
  - unfold getScores, run_local. by rewrite _mapRenderers_errored.
  - unfold getSerializedState, run_local. by rewrite _mapRenderers_errored.
  - unfold _getRenderers, run_local. by rewrite _mapRenderers_errored.
  - intros callingData criterion. unfold _findWidgets, run_local.
    by rewrite _mapRenderers_errored.
  - intros serializedState callback. by apply restore_errored.
Qed.
End NoCachedTree.

Section FurtherRestoration.
Context {ContentNode HintNode TagsNode RendererProps : Type}.
Context {WidgetRef Criterion Score Guess : Type}.
Abbreviation MultiRenderer := (@MultiRenderer ContentNode HintNode TagsNode RendererProps).
Abbreviation Renderer := (@Renderer WidgetRef Criterion Score Guess).
Abbreviation RendererData :=
  (@RendererData ContentNode HintNode RendererProps WidgetRef Criterion Score Guess).
Abbreviation restore_all heap serializedState callback l st :=
  (fold_left (leaf_effect (restore_leaf heap serializedState callback)
                          (restore_leaf heap serializedState callback)
                          (fun _ _ unchanged => unchanged)) l st).

Lemma restorations_app (tr tr' : list Event) :
  restorations (tr ++ tr') = restorations tr ++ restorations tr'.
Proof. unfold restorations. apply flat_map_app. Qed.

Lemma restorations_leaf_restore (callback : bool) (data : addr) (r : Renderer)
      (leafState : JSValue) (st : Restoring) :
  restorations (trace (leaf_restore callback data r leafState st)) =
  restorations (trace st) ++ [(data, leafState)].
Proof.
  unfold leaf_restore.
  destruct (leaf_restoreSerializedState r leafState); simpl.
  - unfold leaf_completes, countCallback. simpl.
    destruct (callback && _); simpl; rewrite !restorations_app; simpl;
      by rewrite ?app_nil_r.
  - by rewrite restorations_app.
Qed.

Lemma restorations_fold (heap : list RendererData) (serializedState : JSValue)
      (callback : bool) (l : list (Path * Leaf addr addr unit)) :
  forall st,
    restorations (trace (restore_all heap serializedState callback l st)) =
    restorations (trace st) ++ dispatched_states heap serializedState l.
Proof.
  induction l as [|[p [data|data|v]] l IH]; intros st; simpl.
  - by rewrite app_nil_r.
  - rewrite IH. unfold restore_leaf.
    destruct (ref_of heap data) as [r|]; [|done].
    destruct (truthy (lens_get serializedState p)); simpl; [|done].
    by rewrite restorations_leaf_restore, <- app_assoc.
  - rewrite IH. unfold restore_leaf.
    destruct (ref_of heap data) as [r|]; [|done].
    destruct (truthy (lens_get serializedState p)); simpl; [|done].
    by rewrite restorations_leaf_restore, <- app_assoc.
  - apply IH.
Qed.

Lemma dispatched_states_spec (heap : list RendererData) (serializedState : JSValue)
      (l : list (Path * Leaf addr addr unit)) :
  Forall (fun handed => ref_of heap (fst handed) <> None /\ truthy (snd handed) = true)
         (dispatched_states heap serializedState l).
Proof.
  induction l as [|[p [data|data|v]] l IH]; simpl; try done.
  all: destruct (ref_of heap data) as [r|] eqn:Href; [|done];
    destruct (truthy (lens_get serializedState p)) eqn:Htruthy; [|done];
    simpl; constructor; [|done]; simpl; split; [congruence|done].
Qed.

(** X5. A call of [restoreSerializedState] that returns has handed a
    restoration to exactly the leaves that have a back-reference and a
    truthy value at their path in the given state tree, in pre-order, each
    with the value at its own path; a leaf whose value is missing or falsy
    ([undefined], [null], [0], the empty string, [false]) is skipped. *)
Theorem restore_hands_each_leaf_the_state_at_its_path
        (this : MultiRenderer) (heap : list RendererData)
        (serializedState : JSValue) (callback : bool) (st : Restoring) :
  restoreSerializedState this heap serializedState callback = Ok st ->
  restorations (trace st) =
    match rendererDataTree (state this) with
    | Some tree => dispatched_states heap serializedState (leaves tree [])
    | None => []
    end /\
  Forall (fun handed => ref_of heap (fst handed) <> None /\ truthy (snd handed) = true)
         (restorations (trace st)).
Proof.
  intros Hrun.
  assert (Heq : restorations (trace st) =
                match rendererDataTree (state this) with
                | Some tree => dispatched_states heap serializedState (leaves tree [])
                | None => []
                end).
  { destruct (restore_ok_inv Hrun) as [Herr | (tree & Htree & Hconf)].
    - rewrite (restore_errored heap serializedState callback Herr) in Hrun.
      injection Hrun as <-. by rewrite Herr.
    - rewrite (restore_ready heap serializedState callback Htree Hconf) in Hrun.
      injection Hrun as <-. by rewrite Htree, restorations_fold. }
  split; [exact Heq|]. rewrite Heq.
  destruct (rendererDataTree (state this)); [apply dispatched_states_spec|constructor].
Qed.

Lemma callbacks_leaf_completes_none (data : addr) (st : Restoring) :
  callbacks (trace (leaf_completes false data st)) = callbacks (trace st).
Proof.
  unfold leaf_completes, countCallback. simpl. rewrite callbacks_app. simpl.
  change (callbacks [Completed data]) with 0. lia.
Qed.

Lemma callbacks_complete_later_none (order : list addr) : forall st,
  callbacks (trace (complete_later false order st)) = callbacks (trace st).
Proof.
  induction order as [|data order IH]; intros st; [done|].
  change (complete_later false (data :: order) st)
    with (complete_later false order (leaf_completes false data st)).
  by rewrite IH, callbacks_leaf_completes_none.
Qed.

Lemma callbacks_fold_none (heap : list RendererData) (serializedState : JSValue)
      (l : list (Path * Leaf addr addr unit)) :
  forall st,
    callbacks (trace (restore_all heap serializedState false l st)) =
    callbacks (trace st).
Proof.
  induction l as [|[p leaf] l IH]; intros st; [done|].
  cbn [fold_left]. rewrite IH.
  destruct leaf as [data|data|v]; simpl; [| |done].
  all: unfold restore_leaf; destruct (ref_of heap data) as [r|]; [|done];
    destruct (truthy (lens_get serializedState p)); simpl; [|done];
    unfold leaf_restore;
    destruct (leaf_restoreSerializedState r (lens_get serializedState p));
    [rewrite callbacks_leaf_completes_none|]; simpl;
    rewrite callbacks_app;
    change (callbacks [Dispatched data (lens_get serializedState p)]) with 0; lia.
Qed.

(** X6. The overall callback is optional.  Called without one,
    [restoreSerializedState] hands out the same restorations as with one,
    and no callback event ever occurs: not during the call and not when the
    leaves complete later, in any order and however often. *)
Theorem restore_without_callback
        (this : MultiRenderer) (heap : list RendererData)
        (serializedState : JSValue) (st : Restoring) :
  restoreSerializedState this heap serializedState false = Ok st ->
  (forall order, callbacks (trace (complete_later false order st)) = 0) /\
  forall st', restoreSerializedState this heap serializedState true = Ok st' ->
              restorations (trace st') = restorations (trace st).
Proof.
  intros Hrun. split.
  - intros order. rewrite callbacks_complete_later_none.
    destruct (restore_ok_inv Hrun) as [Herr | (tree & Htree & Hconf)].
    + rewrite (restore_errored heap serializedState false Herr) in Hrun.
      by injection Hrun as <-.
    + rewrite (restore_ready heap serializedState false Htree Hconf) in Hrun.
      injection Hrun as <-. by rewrite callbacks_fold_none.
  - intros st' Hrun'.
    destruct (restore_ok_inv Hrun) as [Herr | (tree & Htree & Hconf)].
    + rewrite (restore_errored heap serializedState false Herr) in Hrun.
      rewrite (restore_errored heap serializedState true Herr) in Hrun'.
      congruence.
    + rewrite (restore_ready heap serializedState false Htree Hconf) in Hrun.
      rewrite (restore_ready heap serializedState true Htree Hconf) in Hrun'.
      injection Hrun as <-. injection Hrun' as <-.
      by rewrite !restorations_fold.
Qed.

Lemma counter_leaf_completes (callback : bool) (data : addr) (st : Restoring) :
  counter_ok st -> counter_ok (leaf_completes callback data st).
Proof.
  unfold counter_ok, leaf_completes, countCallback. simpl. intros Hok.
  destruct (callback && _); simpl;
    rewrite ?restored_app, ?completed_app, ?length_app; simpl; lia.
Qed.

Lemma counter_restore_leaf (heap : list RendererData) (serializedState : JSValue)
      (callback : bool) (data : addr) (p : Path) (st : Restoring) :
  counter_ok st -> counter_ok (restore_leaf heap serializedState callback data p st).
Proof.
  intros Hok. unfold restore_leaf. destruct (ref_of heap data) as [r|]; [|done].
  destruct (truthy (lens_get serializedState p)); simpl; [|done].
  unfold leaf_restore.
  assert (Hhanded : counter_ok
            (log_event (Dispatched data (lens_get serializedState p))
               {| numCallbacks := (numCallbacks st + 1)%Z; trace := trace st |})).
  { unfold counter_ok in *. simpl.
    rewrite restored_app, completed_app, !length_app. simpl. lia. }
  destruct (leaf_restoreSerializedState r (lens_get serializedState p)); [|done].
  by apply counter_leaf_completes.
Qed.

Lemma counter_fold (heap : list RendererData) (serializedState : JSValue)
      (callback : bool) (l : list (Path * Leaf addr addr unit)) :
  forall st, counter_ok st ->
             counter_ok (restore_all heap serializedState callback l st).
Proof.
  induction l as [|[p leaf] l IH]; intros st Hok; [done|].
  cbn [fold_left]. apply IH.
  destruct leaf as [data|data|v]; simpl; [| |done]; by apply counter_restore_leaf.
Qed.

Lemma counter_complete_later (callback : bool) (order : list addr) :
  forall st, counter_ok st -> counter_ok (complete_later callback order st).
Proof.
  induction order as [|data order IH]; intros st Hok; [done|].
  change (complete_later callback (data :: order) st)
    with (complete_later callback order (leaf_completes callback data st)).
  by apply IH, counter_leaf_completes.
Qed.

(** X7. The counter of [restoreSerializedState] always tells how many
    restorations are outstanding: when the call returns, and after any
    number of leaves have completed later, it is the number of restorations
    handed out minus the number of completion callbacks that have run. *)
Theorem counter_counts_outstanding_restorations
        (this : MultiRenderer) (heap : list RendererData)
        (serializedState : JSValue) (callback : bool) (st : Restoring) :
  restoreSerializedState this heap serializedState callback = Ok st ->
  forall order, counter_ok (complete_later callback order st).
Proof.
  intros Hrun order. apply counter_complete_later.
  destruct (restore_ok_inv Hrun) as [Herr | (tree & Htree & Hconf)].
  - rewrite (restore_errored heap serializedState callback Herr) in Hrun.
    by injection Hrun as <-.
  - rewrite (restore_ready heap serializedState callback Htree Hconf) in Hrun.
    injection Hrun as <-. by apply counter_fold.
Qed.
End FurtherRestoration.

Section RoundTrip.
Context {ContentNode HintNode TagsNode RendererProps : Type}.
Context {WidgetRef Criterion Score Guess : Type}.
Abbreviation MultiRenderer := (@MultiRenderer ContentNode HintNode TagsNode RendererProps).
Abbreviation RendererData :=
  (@RendererData ContentNode HintNode RendererProps WidgetRef Criterion Score Guess).

Lemma in_flat_mapi {A B : Type} (f : A -> nat -> list B) (l : list A) (x : B) :
  forall k, In x (flat_mapi f l k) ->
            exists j a, nth_error l j = Some a /\ In x (f a (k + j)).
Proof.
  induction l as [|a l IH]; intros k Hin; simpl in Hin; [done|].
  apply in_app_or in Hin as [Hin|Hin].
  - exists 0, a. by rewrite Nat.add_0_r.
  - destruct (IH _ Hin) as (j & b & Hnth & Hin').
    exists (Datatypes.S j), b. split; [done|].
    by replace (k + Datatypes.S j) with (Datatypes.S k + j) by lia.
Qed.

(** In the plain value of a mapped tree, the path of a leaf leads to the
    value at that leaf. *)
Lemma lens_get_serialized (g : addr -> option JSValue) (t : RendererDataTree) :
  forall s q,
    Forall (fun leaf =>
              exists rel,
                fst leaf = q ++ rel /\
                lens_get (serialized_value
                            (tmap (fun data _ => g data) (fun data _ => g data)
                                  (fun v _ => v) plain t s q)) rel =
                match snd leaf with
                | LContent data | LHint data =>
                    match g data with
                    | Some leafState => leafState
                    | None => JNull
                    end
                | LTags _ => JNull
                end)
           (leaves t q).
Proof.
  induction t as [c|h|v|x children IH] using Tree_rose_ind; intros s q; simpl.
  - constructor; [|constructor]. exists []. by rewrite app_nil_r.
  - constructor; [|constructor]. exists []. by rewrite app_nil_r.
  - constructor; [|constructor]. exists []. by rewrite app_nil_r.
  - apply List.Forall_forall. intros leaf Hin.
    apply in_flat_mapi in Hin as (j & child & Hnth & Hin). simpl in Hin.
    rewrite List.Forall_forall in IH.
    pose proof (IH child (nth_error_In _ _ Hnth) (elementShape_of s) (q ++ [j])) as Hchild.
    rewrite List.Forall_forall in Hchild.
    destruct (Hchild leaf Hin) as (rel & Hpath & Hget).
    exists (j :: rel). split; [by rewrite Hpath, <- app_assoc|].
    simpl. rewrite nth_error_map, nth_error_mapi, Hnth. simpl. exact Hget.
Qed.

Lemma dispatched_own_states (heap : list RendererData) (serializedState : JSValue)
      (l : list (Path * Leaf addr addr unit)) :
  Forall (fun leaf =>
            lens_get serializedState (fst leaf) =
            match snd leaf with
            | LContent data | LHint data =>
                match ref_of heap data with
                | Some r => leaf_getSerializedState r
                | None => JNull
                end
            | LTags _ => JNull
            end) l ->
  dispatched_states heap serializedState l = own_states heap (omap cell_of l).
Proof.
  induction 1 as [|[p [data|data|v]] l Hleaf _ IH]; simpl in *; [done|..].
  - rewrite IH. destruct (ref_of heap data) as [r|]; [|done]. by rewrite Hleaf.
  - rewrite IH. destruct (ref_of heap data) as [r|]; [|done]. by rewrite Hleaf.
  - exact IH.
Qed.

(** X8. Restoring what [getSerializedState] returned hands every mounted
    leaf its own state back: the restorations handed out are, in pre-order,
    those of the leaves with a back-reference whose own serialized state is
    truthy, each with exactly that state. *)
Theorem restore_of_getSerializedState_roundtrip
        (this : MultiRenderer) (heap : list RendererData) (tree : RendererDataTree)
        (callback : bool) :
  rendererDataTree (state this) = Some tree ->
  conforms tree (shape (props this)) = true ->
  exists states st,
    getSerializedState this heap = Ok (Some states) /\
    restoreSerializedState this heap (serialized_value states) callback = Ok st /\
    restorations (trace st) = own_states heap (leaf_cells tree).
Proof.
  intros Htree Hconf.
  do 2 eexists. split; [by apply getSerializedState_ready|].
  split; [by apply restore_ready|].
  rewrite restorations_fold. simpl. apply dispatched_own_states.
  pose proof (lens_get_serialized
                (fun data => match ref_of heap data with
                             | None => None
                             | Some r => Some (leaf_getSerializedState r)
                             end) tree (shape (props this)) []) as Hget.
  eapply Forall_impl; [exact Hget|]. simpl.
  intros [p leaf] (rel & Hpath & Hrel). simpl in *. subst p. rewrite Hrel.
  destruct leaf as [data|data|v]; try done; by destruct (ref_of heap data).
Qed.
End RoundTrip.

Section CellsOfTheTree.
Context {ContentNode HintNode TagsNode RendererProps : Type}.
Context {WidgetRef Criterion Score Guess : Type}.
Abbreviation Props := (@Props ContentNode HintNode TagsNode RendererProps).
Abbreviation MultiRenderer := (@MultiRenderer ContentNode HintNode TagsNode RendererProps).
Abbreviation RendererData :=
  (@RendererData ContentNode HintNode RendererProps WidgetRef Criterion Score Guess).
Abbreviation Store :=
  (@Store ContentNode HintNode RendererProps WidgetRef Criterion Score Guess).
Abbreviation World :=
  (@World ContentNode HintNode TagsNode RendererProps WidgetRef Criterion Score Guess).

(** X9. What a rebuild leaves behind, exactly.  The build walks the item's
    tree and the shape in lock-step and makes one cell for every content and
    hint leaf it passes (none for a tags leaf), in pre-order, at the end of
    the heap.  If the item's tree conforms to the shape, all its leaves are
    passed, nothing is logged, no error is kept, and the leaves of the tree
    built are these cells, at consecutive new addresses.  If it does not,
    the state is Errored with the shape mismatch at the first node that
    disagrees with the shape, that error is the one entry added to the
    console, and the cells made for the leaves passed before that node stay
    in the heap, in no tree. *)
Theorem rebuild_makes_one_cell_per_leaf (thisProps p : Props) (st st' : Store)
        (s : State) :
  _tryMakeRendererState thisProps p st = (Ok s, st') ->
  cells st' =
    cells st ++
    cells_for (otherProps thisProps) (length (cells st))
              (fst (visit (itemToTree (item p)) (shape p) [])) /\
  match snd (visit (itemToTree (item p)) (shape p) []) with
  | Some q =>
      conforms (itemToTree (item p)) (shape p) = false /\
      s = {| rendererDataTree := None; renderError := Some (ShapeMismatch q) |} /\
      console st' = console st ++ [ShapeMismatch q]
  | None =>
      conforms (itemToTree (item p)) (shape p) = true /\
      fst (visit (itemToTree (item p)) (shape p) []) =
        leaves (itemToTree (item p)) [] /\
      console st' = console st /\
      exists tree : Tree addr addr unit Empty_set,
        s = {| rendererDataTree := nullable tree; renderError := None |} /\
        leaves tree [] =
          leaves_for (length (cells st)) (leaves (itemToTree (item p)) []) /\
        leaf_cells tree =
          seq (length (cells st))
              (length (cells_for (WidgetRef:=WidgetRef) (Criterion:=Criterion)
                                 (Score:=Score) (Guess:=Guess)
                                 (otherProps thisProps) (length (cells st))
                                 (leaves (itemToTree (item p)) [])))
  end.
Proof.
  intros Hrun.
  pose proof (visit_spec (itemToTree (item p)) (shape p) []) as Hvisit.
  destruct (_tryMakeRendererState_runs thisProps p st)
    as [(q & Hconf & Hq & Hrun') | (tree & Hconf & Hrun' & Hleaves & _)];
    rewrite Hrun' in Hrun; injection Hrun as <- <-; simpl.
  - split; [done|]. by rewrite Hq.
  - rewrite Hconf in Hvisit. rewrite Hvisit. simpl. split; [done|].
    split; [done|]. split; [done|]. split; [done|]. exists tree.
    split; [done|]. split; [done|].
    unfold leaf_cells. rewrite Hleaves. apply leaf_cells_for.
Qed.

(** The leaves of a cached tree have consecutive cells. *)
Lemma reachable_leaf_cells (w : World) :
  reachable w ->
  forall tree, rendererDataTree (state (component w)) = Some tree ->
               exists base n, leaf_cells tree = seq base n.
Proof.
  assert (Hbuilt : forall (thisProps p : Props) (st st' : Store) (s : State) tree,
             _tryMakeRendererState thisProps p st = (Ok s, st') ->
             rendererDataTree s = Some tree ->
             exists base n, leaf_cells tree = seq base n).
  { intros thisProps p st st' s tree Hrun Htree.
    destruct (_tryMakeRendererState_runs thisProps p st)
      as [(q & _ & _ & Hrun') | (tree' & _ & Hrun' & Hleaves & _)];
      rewrite Hrun' in Hrun; injection Hrun as <- <-; simpl in Htree; [done|].
    apply nullable_Some in Htree as ->.
    exists (length (cells st)),
           (length (cells_for (WidgetRef:=WidgetRef) (Criterion:=Criterion)
                              (Score:=Score) (Guess:=Guess)
                              (otherProps thisProps) (length (cells st))
                              (leaves (itemToTree (item p)) []))).
    unfold leaf_cells. rewrite Hleaves. apply leaf_cells_for. }
  induction 1 as [p this st Hnew | w w' _ IH Hstep]; simpl.
  - unfold constructor, bind in Hnew.
    destruct (_tryMakeRendererState p p empty_store) as [[s|e] st1] eqn:Hrun; [|done].
    injection Hnew as <- <-. simpl. intros tree. by eapply Hbuilt.
  - destruct Hstep as [w nextProps this' st' _ Hrun | w owner data cell rp c e _ _];
      [|exact IH].
    unfold receiveProps, componentWillReceiveProps in Hrun.
    destruct (negb (item_ref (item nextProps) =? item_ref (item (props (component w)))))
      eqn:Hsame.
    + unfold bind in Hrun.
      destruct (_tryMakeRendererState (props (component w)) nextProps (store w))
        as [[s|e] st1] eqn:Htry; [|done].
      simpl in Hrun. injection Hrun as <- <-. simpl. intros tree. by eapply Hbuilt.
    + simpl in Hrun. injection Hrun as <- <-. exact IH.
Qed.

Lemma others_of_distinct (callingData : addr) (before after : list addr) :
  List.NoDup (before ++ callingData :: after) ->
  others callingData (before ++ callingData :: after) = before ++ after.
Proof.
  intros Hnodup. unfold others. rewrite List.filter_app. simpl.
  rewrite Nat.eqb_refl. simpl.
  apply NoDup_remove_2 in Hnodup.
  assert (Hkeep : forall l, ~ In callingData l ->
                    List.filter (fun data => negb (callingData =? data)) l = l).
  { induction l as [|a l IH]; intros Hnotin; simpl; [done|].
    destruct (Nat.eqb_spec callingData a) as [->|Hne]; simpl.
    - exfalso. apply Hnotin. by left.
    - f_equal. apply IH. intros Hin. apply Hnotin. by right. }
  rewrite !Hkeep; [done|..]; intros Hin; apply Hnodup, in_or_app; auto.
Qed.

(** X10. In every state a component goes through, every leaf of the
    cached tree has a cell of its own.  So, when the tree conforms to the
    current shape, a leaf that asks for the external widgets is the only
    leaf left out: if the calling cell is the cell of the leaf between the
    leaves [before] and [after], [findExternalWidgets] returns the widgets
    of the mounted leaves of [before] followed by those of [after]. *)
Theorem findExternalWidgets_leaves_out_only_the_caller
        (w : World) (tree : RendererDataTree) :
  reachable w ->
  rendererDataTree (state (component w)) = Some tree ->
  List.NoDup (leaf_cells tree) /\
  forall (before after : list addr) (cellA : addr) (criterion : Criterion),
    conforms tree (shape (props (component w))) = true ->
    leaf_cells tree = before ++ cellA :: after ->
    _findWidgets (component w) (cells (store w)) cellA criterion =
    Ok (flat_map (fun r => findInternalWidgets r criterion)
                 (mounted (cells (store w)) before) ++
        flat_map (fun r => findInternalWidgets r criterion)
                 (mounted (cells (store w)) after)).
Proof.
  intros Hreach Htree.
  assert (Hnodup : List.NoDup (leaf_cells tree)).
  { destruct (reachable_leaf_cells Hreach Htree) as (base & n & ->).
    apply List.seq_NoDup. }
  split; [exact Hnodup|]. intros before after cellA criterion Hconf Hsplit.
  rewrite (_findWidgets_ready _ _ _ Htree Hconf), Hsplit.
  rewrite Hsplit in Hnodup. rewrite (others_of_distinct Hnodup).
  unfold mounted. by rewrite omap_app, flat_map_app.
Qed.
End CellsOfTheTree.

Section MapTreeExt.
Context {S C C' H H' T T' X X' : Type}.
Variable m m' : TreeMapper S C C' H H' T T' X X'.
Hypothesis content_same : forall c s p st,
  contentMapper (leafMappers m) c s p st = contentMapper (leafMappers m') c s p st.
Hypothesis hint_same : forall h s p st,
  hintMapper (leafMappers m) h s p st = hintMapper (leafMappers m') h s p st.
Hypothesis tags_same : forall t s p st,
  tagsMapper (leafMappers m) t s p st = tagsMapper (leafMappers m') t s p st.
Hypothesis array_same : forall mapped originals s p st,
  arrayMapper m mapped originals s p st = arrayMapper m' mapped originals s p st.

Lemma map_elements_ext (es : Shape) (path : Path) (children : list (Tree C H T X)) :
  Forall (fun t => forall s p st, mapTree m t s p st = mapTree m' t s p st) children ->
  forall i st,
    map_elements (fun inner i => mapTree m inner es (path ++ [i])) children i st =
    map_elements (fun inner i => mapTree m' inner es (path ++ [i])) children i st.
Proof.
  induction 1 as [|t rest Ht _ IH]; intros i st; simpl; [done|].
  unfold bind at 1 3. rewrite Ht.
  destruct (mapTree m' t es (path ++ [i]) st) as [[t'|e] st1]; [|done].
  unfold bind at 1 2. by rewrite IH.
Qed.

(** Mappers whose transforms agree map every tree alike. *)
Lemma mapTree_ext (t : Tree C H T X) : forall s p st,
  mapTree m t s p st = mapTree m' t s p st.
Proof using content_same hint_same tags_same array_same.
  induction t as [c|h|v|x children IH] using Tree_rose_ind;
    intros s p st; destruct s; simpl; try done.
  - unfold bind. by rewrite content_same.
  - unfold bind. by rewrite hint_same.
  - unfold bind. by rewrite tags_same.
  - unfold bind at 1 3. rewrite (@map_elements_ext s p children IH 0 st).
    destruct (map_elements _ children 0 st) as [[ts|e] st1]; [|done].
    unfold bind. by rewrite array_same.
Qed.
End MapTreeExt.

Section Elements.
Context {ContentNode HintNode TagsNode RendererProps : Type}.
Context {WidgetRef Criterion Score Guess : Type}.
Abbreviation Props := (@Props ContentNode HintNode TagsNode RendererProps).
Abbreviation MultiRenderer := (@MultiRenderer ContentNode HintNode TagsNode RendererProps).
Abbreviation Renderer := (@Renderer WidgetRef Criterion Score Guess).
Abbreviation RendererData :=
  (@RendererData ContentNode HintNode RendererProps WidgetRef Criterion Score Guess).
Abbreviation Store :=
  (@Store ContentNode HintNode RendererProps WidgetRef Criterion Score Guess).
Abbreviation World :=
  (@World ContentNode HintNode TagsNode RendererProps WidgetRef Criterion Score Guess).

Lemma cells_for_as_made (rp : RendererProps)
      (l : list (Path * Leaf ContentNode HintNode TagsNode)) :
  forall base i (cell : RendererData),
    cells_for rp base l !! i = Some cell ->
    cell_as_made (base + i) cell /\
    element_props (renderer cell) = Some rp /\
    ref cell = None.
Proof.
  induction l as [|[p [c|h|t]] l IH]; intros base i cell Hcell; simpl in Hcell.
  - done.
  - destruct i as [|i]; simpl in Hcell.
    + injection Hcell as <-. rewrite Nat.add_0_r. split; [|done].
      left. split; [done|]. by exists rp, c.
    + replace (base + Datatypes.S i) with (Datatypes.S base + i) by lia. by apply IH.
  - destruct i as [|i]; simpl in Hcell.
    + injection Hcell as <-. split; [|done].
      right. split; [done|]. by exists rp, h.
    + replace (base + Datatypes.S i) with (Datatypes.S base + i) by lia. by apply IH.
  - by apply IH.
Qed.

Lemma _tryMakeRendererState_as_made (thisProps p : Props) (st st' : Store) (s : State) :
  _tryMakeRendererState thisProps p st = (Ok s, st') ->
  (forall a cell, cells st !! a = Some cell -> cell_as_made a cell) ->
  forall a cell, cells st' !! a = Some cell -> cell_as_made a cell.
Proof.
  intros Hrun Hold a cell Hcell.
  destruct (_tryMakeRendererState_runs thisProps p st)
    as [(q & _ & _ & Hrun') | (tree & _ & Hrun' & _)];
    rewrite Hrun' in Hrun; injection Hrun as <- <-; simpl in Hcell.
  all: apply lookup_app_Some in Hcell as [Hcell | [Hge Hcell]]; [by apply Hold|].
  all: apply cells_for_as_made in Hcell as [Hmade _].
  all: by replace (length (cells st) + (a - length (cells st))) with a in Hmade by lia.
Qed.

Lemma set_ref_as_made (st : Store) (owner data : addr) (cell : RendererData)
      (rp : RendererProps) (c : ContentNode) (e : option Renderer) :
  (forall a cell, cells st !! a = Some cell -> cell_as_made a cell) ->
  cells st !! owner = Some cell ->
  renderer cell = ERenderer rp c data ->
  forall a cell', cells (set_ref data e st) !! a = Some cell' -> cell_as_made a cell'.
Proof.
  intros Hok Howner Hrenderer a cell' Hcell'.
  assert (Hdata : data = owner).
  { destruct (Hok _ _ Howner) as [[_ (rp' & c' & Hr)] | (_ & rp' & h & Hr & _)];
      congruence. }
  subst data.
  destruct (set_ref_lookup_inv Hcell') as (old & Hold & Hhint & Hrend & Hsame).
  destruct (decide (a = owner)) as [->|Hne].
  - left. assert (old = cell) by congruence. subst old.
    destruct (Hok _ _ Howner) as [[Hh (rp' & c' & Hr)] | (_ & rp' & h & Hr & _)];
      [|congruence].
    split; [congruence|]. exists rp', c'. congruence.
  - rewrite (Hsame Hne). by eapply Hok.
Qed.

(** Every cell of the heap is as the engine made it. *)
Lemma reachable_cells_as_made (w : World) :
  reachable w ->
  forall a cell, cells (store w) !! a = Some cell -> cell_as_made a cell.
Proof.
  induction 1 as [p this st Hnew | w w' _ IH Hstep]; simpl.
  - unfold constructor, bind in Hnew.
    destruct (_tryMakeRendererState p p empty_store) as [[s|e] st1] eqn:Hrun; [|done].
    injection Hnew as <- <-.
    eapply _tryMakeRendererState_as_made; [exact Hrun|]. by intros [|a] cell.
  - destruct Hstep as [w nextProps this' st' _ Hrun | w owner data cell rp c e Howner Hrend].
    + unfold receiveProps, componentWillReceiveProps in Hrun.
      destruct (negb (item_ref (item nextProps) =? item_ref (item (props (component w)))))
        eqn:Hsame.
      * unfold bind in Hrun.
        destruct (_tryMakeRendererState (props (component w)) nextProps (store w))
          as [[s|e] st1] eqn:Htry; [|done].
        simpl in Hrun. injection Hrun as <- <-. simpl.
        by eapply _tryMakeRendererState_as_made.
      * simpl in Hrun. by injection Hrun as <- <-.
    + simpl. by eapply set_ref_as_made.
Qed.

(** X11. The elements handed to the layout are the ones made for the
    leaves, each tied to its own leaf: at a content leaf the exposed tree
    holds the Renderer element whose [ref] callback and
    [findExternalWidgets] close over that very leaf's cell, and at a hint
    leaf the HintsRenderer element that shows the one hint kept in the
    leaf's cell. *)
Theorem exposed_elements_belong_to_their_leaves (w : World) (tree : RendererDataTree) :
  reachable w ->
  rendererDataTree (state (component w)) = Some tree ->
  conforms tree (shape (props (component w))) = true ->
  exists renderers,
    _getRenderers (component w) (cells (store w)) = Ok (Some renderers) /\
    render (component w) (cells (store w)) =
      Ok (children (props (component w)) (Some renderers)) /\
    leaves renderers [] =
      map (leaf_map (fun data _ => renderer_of (cells (store w)) data)
                    (fun data _ => renderer_of (cells (store w)) data)
                    (fun v _ => v)) (leaves tree []) /\
    Forall (fun leaf =>
              match leaf with
              | (_, LContent data) =>
                  exists rp c, renderer_of (cells (store w)) data = ERenderer rp c data
              | (_, LHint data) =>
                  exists rp h cell,
                    renderer_of (cells (store w)) data = EHintsRenderer rp [Some h] None /\
                    cells (store w) !! data = Some cell /\ hint cell = Some h
              | (_, LTags _) => True
              end) (leaves tree []).
Proof.
  intros Hreach Htree Hconf.
  destruct (reachable_world_ok Hreach) as (Hone & _ & Hcached).
  destruct (Hcached _ Htree) as [Hleaves _].
  pose proof (reachable_cells_as_made Hreach) as Hmade.
  eexists. split; [by apply _getRenderers_ready|]. split; [|split].
  - unfold render. rewrite (_getRenderers_ready _ Htree Hconf).
    destruct Hone as [[[_ Herr] | [Hnone _]] | [Hnone _]];
      [by rewrite Herr|congruence|congruence].
  - apply leaves_tmap.
  - eapply Forall_impl; [exact Hleaves|]. simpl.
    intros [p [data|data|v]]; simpl; [| |done].
    + intros (cell & Hcell & Hhint). unfold renderer_of. rewrite Hcell.
      destruct (Hmade _ _ Hcell) as [[_ Hr] | (_ & rp & h & _ & Hh)];
        [exact Hr|congruence].
    + intros (cell & Hcell & Hhint). unfold renderer_of. rewrite Hcell.
      destruct (Hmade _ _ Hcell) as [[Hnone _] | (_ & rp & h & Hr & Hh)]; [done|].
      by exists rp, h, cell.
Qed.

Lemma new_cells_carry_props (thisProps p : Props) (st st' : Store) (s : State)
      (tree : RendererDataTree) :
  _tryMakeRendererState thisProps p st = (Ok s, st') ->
  rendererDataTree s = Some tree ->
  Forall (fun data => exists cell : RendererData,
                        cells st' !! data = Some cell /\
                        element_props (renderer cell) = Some (otherProps thisProps))
         (leaf_cells tree).
Proof.
  intros Hrun Htree.
  destruct (_tryMakeRendererState_runs thisProps p st)
    as [(q & _ & _ & Hrun') | (tree' & _ & Hrun' & Hleaves & _)];
    rewrite Hrun' in Hrun; injection Hrun as <- <-; simpl in Htree; [done|].
  apply nullable_Some in Htree as ->. unfold leaf_cells. rewrite Hleaves.
  rewrite (leaf_cells_for (WidgetRef:=WidgetRef) (Criterion:=Criterion)
                          (Score:=Score) (Guess:=Guess) (otherProps thisProps)).
  apply List.Forall_forall. intros data Hin. apply in_seq in Hin as [Hge Hlt].
  simpl.
  destruct (lookup_lt_is_Some_2
              (cells_for (WidgetRef:=WidgetRef) (Criterion:=Criterion) (Score:=Score)
                         (Guess:=Guess) (otherProps thisProps) (length (cells st))
                         (leaves (itemToTree (item p)) []))
              (data - length (cells st))) as [cell Hcell]; [lia|].
  exists cell. split.
  - rewrite lookup_app_r by lia. exact Hcell.
  - by apply cells_for_as_made in Hcell as (_ & Hprops & _).
Qed.

(** X12. The elements of a tree keep the other props that were in place
    when the tree was built.  At construction these are the props the
    component is constructed with.  On receiving a new item they are the
    props the component has while [componentWillReceiveProps] runs, that is
    the previous ones: the other props arriving together with the new item
    do not reach the new elements. *)
Theorem elements_carry_the_props_in_place_at_build :
  (forall (p : Props) (this : MultiRenderer) (st : Store) (tree : RendererDataTree),
      constructor p empty_store = (Ok this, st) ->
      rendererDataTree (state this) = Some tree ->
      Forall (fun data => exists cell : RendererData,
                            cells st !! data = Some cell /\
                            element_props (renderer cell) = Some (otherProps p))
             (leaf_cells tree)) /\
  (forall (this this' : MultiRenderer) (nextProps : Props) (st st' : Store)
          (tree : RendererDataTree),
      item_ref (item nextProps) <> item_ref (item (props this)) ->
      componentWillReceiveProps this nextProps st = (Ok this', st') ->
      rendererDataTree (state this') = Some tree ->
      Forall (fun data => exists cell : RendererData,
                            cells st' !! data = Some cell /\
                            element_props (renderer cell) =
                              Some (otherProps (props this)))
             (leaf_cells tree)).
Proof.
  split.
  - intros p this st tree Hnew Htree. unfold constructor, bind in Hnew.
    destruct (_tryMakeRendererState p p empty_store) as [[s|e] st1] eqn:Hrun; [|done].
    injection Hnew as <- <-. by eapply new_cells_carry_props.
  - intros this this' nextProps st st' tree Hne Hrun Htree.
    unfold componentWillReceiveProps in Hrun.
    apply Nat.eqb_neq in Hne. rewrite Hne in Hrun. simpl in Hrun.
    unfold bind in Hrun.
    destruct (_tryMakeRendererState (props this) nextProps st)
      as [[s|e] st1] eqn:Htry; [|done].
    injection Hrun as <- <-. by eapply new_cells_carry_props.
Qed.

Lemma renderer_of_set_ref (st : Store) (data : addr) (e : option Renderer) (a : addr) :
  renderer_of (cells (set_ref data e st)) a = renderer_of (cells st) a.
Proof.
  unfold renderer_of, set_ref. simpl.
  destruct (decide (data = a)) as [->|Hne].
  - rewrite list_lookup_alter_eq. by destruct (cells st !! a).
  - by rewrite list_lookup_alter_ne.
Qed.

Lemma _mapRenderers_ext {S O X' : Type} (this : MultiRenderer)
      (leafMapper leafMapper' : addr -> Shape -> Path -> M S O)
      (arrayMapper : option (ArrayMapper S addr O addr O unit unit Empty_set X'))
      (st : S) :
  (forall data s p u, leafMapper data s p u = leafMapper' data s p u) ->
  _mapRenderers this leafMapper arrayMapper st =
  _mapRenderers this leafMapper' arrayMapper st.
Proof.
  intros Hsame. unfold _mapRenderers.
  destruct (rendererDataTree (state this)) as [tree|]; [|done].
  unfold bind.
  destruct arrayMapper as [f|].
  - rewrite (@mapTree_ext _ _ _ _ _ _ _ _ _
               (setArrayMapper f (setHintMapper leafMapper
                                    (setContentMapper leafMapper buildMapper)))
               (setArrayMapper f (setHintMapper leafMapper'
                                    (setContentMapper leafMapper' buildMapper))));
      simpl; done.
  - rewrite (@mapTree_ext _ _ _ _ _ _ _ _ _
               (justLeaves (setHintMapper leafMapper
                              (setContentMapper leafMapper buildMapper)))
               (justLeaves (setHintMapper leafMapper'
                              (setContentMapper leafMapper' buildMapper))));
      simpl; done.
Qed.

(** X13. Mounting and unmounting do not touch the cached elements: after
    the [ref] callback of any cell has run, with an instance or with null,
    the renderer tree handed to the layout, and so what [render] returns, is
    what it was before. *)
Theorem ref_callbacks_keep_the_exposed_elements
        (this : MultiRenderer) (st : Store) (data : addr) (e : option Renderer) :
  _getRenderers this (cells (set_ref data e st)) = _getRenderers this (cells st) /\
  render this (cells (set_ref data e st)) = render this (cells st).
Proof.
  assert (Hsame : _getRenderers this (cells (set_ref data e st)) =
                  _getRenderers this (cells st)).
  { unfold _getRenderers, run_local.
    by rewrite (@_mapRenderers_ext unit ReactElement FirstN this
                  (fun a _ _ => ret (renderer_of (cells (set_ref data e st)) a))
                  (fun a _ _ => ret (renderer_of (cells st) a))
                  (Some (on_new_array _annotateRendererArray)) tt
                  (fun a s p u => f_equal (fun r => (Ok r, u))
                                    (renderer_of_set_ref st data e a))). }
  split; [exact Hsame|]. unfold render. by rewrite Hsame.
Qed.
End Elements.

Section Mounting.
Context {ContentNode HintNode TagsNode RendererProps : Type}.
Context {WidgetRef Criterion Score Guess : Type}.
Abbreviation MultiRenderer := (@MultiRenderer ContentNode HintNode TagsNode RendererProps).
Abbreviation Renderer := (@Renderer WidgetRef Criterion Score Guess).
Abbreviation RendererData :=
  (@RendererData ContentNode HintNode RendererProps WidgetRef Criterion Score Guess).
Abbreviation Store :=
  (@Store ContentNode HintNode RendererProps WidgetRef Criterion Score Guess).
Abbreviation World :=
  (@World ContentNode HintNode TagsNode RendererProps WidgetRef Criterion Score Guess).

Lemma leaf_cells_in_heap (heap : list RendererData)
      (l : list (Path * Leaf addr addr unit)) (data : addr) :
  Forall (leaf_in_heap heap) l ->
  In data (omap cell_of l) ->
  exists cell, heap !! data = Some cell.
Proof.
  induction 1 as [|[p [d|d|v]] l Hleaf _ IH]; simpl; [done| | |exact IH].
  - intros [<-|Hin]; [|by apply IH]. destruct Hleaf as (cell & Hcell & _). by exists cell.
  - intros [<-|Hin]; [|by apply IH]. destruct Hleaf as (cell & Hcell & _). by exists cell.
Qed.

Lemma mounted_app (heap : list RendererData) (l l' : list addr) :
  mounted heap (l ++ l') = mounted heap l ++ mounted heap l'
  :> list Renderer.
Proof. unfold mounted. apply omap_app. Qed.

Lemma mounted_set_ref_elsewhere (st : Store) (data : addr) (e : option Renderer)
      (l : list addr) :
  ~ In data l ->
  mounted (cells (set_ref data e st)) l = mounted (cells st) l.
Proof.
  intros Hnotin. apply mounted_agree. apply List.Forall_forall.
  intros a Hin. unfold set_ref. simpl. rewrite list_lookup_alter_ne; [done|].
  intros ->. by apply Hnotin.
Qed.

Lemma mounted_set_ref_here (st : Store) (data : addr) (e : option Renderer)
      (cell : RendererData) :
  cells st !! data = Some cell ->
  mounted (cells (set_ref data e st)) [data] =
  match e with Some r => [r] | None => [] end.
Proof.
  intros Hcell. unfold mounted, ref_of, set_ref. simpl.
  rewrite list_lookup_alter_eq, Hcell. simpl. by destruct e.
Qed.

Lemma in_others (callingData : addr) (l : list addr) (data : addr) :
  In data (others callingData l) -> In data l.
Proof. unfold others. intros Hin. by apply filter_In in Hin as [Hin _]. Qed.

(** X14. What a [ref] callback changes for the other leaves, for a cached
    tree that conforms to the current shape.  When the
    callback of the leaf [data] has run with [e], a leaf with another cell
    that asks for the external widgets gets, at the place of [data] in
    pre-order, the widgets of the instance [e] (none if [e] is null), and
    before and after it what it got for the leaves before and after [data]
    until then. *)
Theorem a_ref_callback_shows_at_the_place_of_its_leaf
        (w : World) (tree : RendererDataTree) (before after : list addr)
        (data cellA : addr) (criterion : Criterion) (e : option Renderer) :
  reachable w ->
  rendererDataTree (state (component w)) = Some tree ->
  conforms tree (shape (props (component w))) = true ->
  leaf_cells tree = before ++ data :: after ->
  cellA <> data ->
  _findWidgets (component w) (cells (store w)) cellA criterion =
    Ok (flat_map (fun r => findInternalWidgets r criterion)
                 (mounted (cells (store w)) (others cellA before)) ++
        flat_map (fun r => findInternalWidgets r criterion)
                 (mounted (cells (store w)) [data]) ++
        flat_map (fun r => findInternalWidgets r criterion)
                 (mounted (cells (store w)) (others cellA after))) /\
  _findWidgets (component w) (cells (set_ref data e (store w))) cellA criterion =
    Ok (flat_map (fun r => findInternalWidgets r criterion)
                 (mounted (cells (store w)) (others cellA before)) ++
        match e with
        | Some r => findInternalWidgets r criterion
        | None => []
        end ++
        flat_map (fun r => findInternalWidgets r criterion)
                 (mounted (cells (store w)) (others cellA after))).
Proof.
  intros Hreach Htree Hconf Hsplit Hne.
  assert (Hnodup : List.NoDup (before ++ data :: after)).
  { rewrite <- Hsplit. destruct (reachable_leaf_cells Hreach Htree) as (base & n & ->).
    apply List.seq_NoDup. }
  destruct (reachable_world_ok Hreach) as (_ & _ & Hcached).
  destruct (Hcached _ Htree) as [Hleaves _].
  destruct (@leaf_cells_in_heap (cells (store w)) (leaves tree []) data Hleaves)
    as [cell Hcell].
  { fold (leaf_cells tree). rewrite Hsplit. apply in_or_app. right. by left. }
  assert (Hothers : others cellA (before ++ data :: after) =
                    others cellA before ++ [data] ++ others cellA after).
  { unfold others. rewrite List.filter_app. simpl.
    by destruct (Nat.eqb_spec cellA data). }
  pose proof (NoDup_remove_2 _ _ _ Hnodup) as Hnotin.
  split.
  - rewrite (_findWidgets_ready _ _ _ Htree Hconf), Hsplit, Hothers.
    by rewrite !mounted_app, !flat_map_app.
  - rewrite (_findWidgets_ready _ _ _ Htree Hconf), Hsplit, Hothers.
    rewrite !mounted_app, !flat_map_app.
    rewrite (mounted_set_ref_here _ Hcell), !mounted_set_ref_elsewhere.
    + destruct e; simpl; by rewrite ?app_nil_r.
    + intros Hin. apply Hnotin, in_or_app. right. by eapply in_others.
    + intros Hin. apply Hnotin, in_or_app. left. by eapply in_others.
Qed.
End Mounting.

Section CombinedScore.
Context {ContentNode HintNode TagsNode RendererProps : Type}.
Context {WidgetRef Criterion Score Guess KEScore : Type}.
Variable combineScores : Score -> Score -> Score.
Variable keScoreFromPerseusScore : Score -> @GuessValue Guess -> KEScore.
Abbreviation MultiRenderer := (@MultiRenderer ContentNode HintNode TagsNode RendererProps).
Abbreviation Renderer := (@Renderer WidgetRef Criterion Score Guess).
Abbreviation RendererData :=
  (@RendererData ContentNode HintNode RendererProps WidgetRef Criterion Score Guess).

(** X15. For a cached tree that conforms to the current shape and has at
    least one mounted leaf, [score] combines the scores of
    the mounted leaves from left to right in pre-order, starting from the
    first leaf's score (no identity score is folded in), and passes the
    result to [keScoreFromPerseusScore] together with the tree of guesses,
    which has the topology of the cached tree, the guess of the instance at
    every mounted leaf and null at every other. *)
Theorem score_combines_the_mounted_leaves_in_order
        (this : MultiRenderer) (heap : list RendererData) (tree : RendererDataTree)
        (r : Renderer) (rs : list Renderer) :
  rendererDataTree (state this) = Some tree ->
  conforms tree (shape (props this)) = true ->
  mounted heap (leaf_cells tree) = r :: rs ->
  exists guesses : @GuessTree Guess,
    score combineScores keScoreFromPerseusScore this heap =
      Ok (keScoreFromPerseusScore
            (fold_left combineScores (map leaf_score rs) (leaf_score r))
            (GTree (Some guesses))) /\
    topology guesses = topology tree /\
    leaves guesses [] =
      map (leaf_map (guess_of heap) (guess_of heap) (fun v _ => v)) (leaves tree []).
Proof.
  intros Htree Hconf Hmounted. eexists. split; [|split].
  - unfold score. rewrite (score_traversal_ready heap Htree Hconf), Hmounted.
    reflexivity.
  - apply topology_tmap.
  - apply leaves_tmap.
Qed.
End CombinedScore.

Section Subtrees.
Context {C H T X : Type}.

Lemma flat_mapi_in {A B : Type} (f : A -> nat -> list B) (l : list A) (x : B) :
  forall k j a, nth_error l j = Some a -> In x (f a (k + j)) ->
                In x (flat_mapi f l k).
Proof.
  induction l as [|b l IH]; intros k [|j] a Hnth Hin; simpl in *; try done.
  - injection Hnth as ->. rewrite Nat.add_0_r in Hin. apply in_or_app. by left.
  - apply in_or_app. right. apply (IH (Datatypes.S k) j a Hnth).
    by replace (Datatypes.S k + j) with (k + Datatypes.S j) by lia.
Qed.

(** The leaves of a subtree are leaves of the tree, under the same paths. *)
Lemma subtree_leaves (t : Tree C H T X) : forall p q t' l,
  subtree t p = Some t' ->
  In l (leaves t' (q ++ p)) ->
  In l (leaves t q).
Proof.
  induction t as [c|h|v|x children IH] using Tree_rose_ind;
    intros [|i p] q t' l Hsub Hin; simpl in Hsub; try discriminate;
    try (injection Hsub as <-; by rewrite app_nil_r in Hin).
  destruct (nth_error children i) as [child|] eqn:Hchild; [|done].
  simpl. apply (flat_mapi_in (j := i) Hchild). simpl.
  rewrite List.Forall_forall in IH.
  apply (IH child (nth_error_In _ _ Hchild) p (q ++ [i]) t' l Hsub).
  by rewrite <- app_assoc.
Qed.

(** A subtree of a conforming tree conforms to the shape at its path. *)
Lemma subtree_conforms (t : Tree C H T X) : forall s p t',
  conforms t s = true ->
  subtree t p = Some t' ->
  exists s', subshape s p = Some s' /\ conforms t' s' = true.
Proof.
  induction t as [c|h|v|x children IH] using Tree_rose_ind;
    intros s [|i p] t' Hconf Hsub; destruct s; simpl in Hconf, Hsub;
    try discriminate; try (injection Hsub as <-; eexists; by split).
  destruct (nth_error children i) as [child|] eqn:Hchild; [|done].
  rewrite List.Forall_forall in IH. rewrite forallb_forall in Hconf.
  apply nth_error_In in Hchild. simpl.
  exact (IH child Hchild s p t' (Hconf child Hchild) Hsub).
Qed.
End Subtrees.

Section MappedArrays.
Context {C C' H H' T T' X X' : Type}.
Variable fc : C -> Path -> C'.
Variable fh : H -> Path -> H'.
Variable ft : T -> Path -> T'.
Variable fa : list (Tree C H T X) -> Shape -> option X'.

(** An array of the mapped tree comes from the array at the same path: its
    property is computed from that array's children, and its elements are
    that array's children, mapped. *)
Lemma tmap_subtree_array (t : Tree C H T X) : forall s q p x kids,
  conforms t s = true ->
  subtree (tmap fc fh ft fa t s q) p = Some (Array x kids) ->
  exists x0 originals es q',
    subtree t p = Some (Array x0 originals) /\
    subshape s p = Some (ArrayShape es) /\
    x = fa originals (ArrayShape es) /\
    kids = mapi (fun inner i => tmap fc fh ft fa inner es (q' ++ [i])) originals 0.
Proof.
  induction t as [c|h|v|x0 children IH] using Tree_rose_ind;
    intros s q p x kids Hconf Hsub; destruct s; simpl in Hconf; try discriminate;
    destruct p as [|i p]; simpl in Hsub; try discriminate.
  - injection Hsub as <- <-. by exists x0, children, s, q.
  - rewrite nth_error_mapi in Hsub. simpl.
    destruct (nth_error children i) as [child|] eqn:Hchild; [|done].
    rewrite List.Forall_forall in IH.
    rewrite forallb_forall in Hconf.
    apply nth_error_In in Hchild.
    exact (IH child Hchild s (q ++ [0 + i]) p x kids (Hconf child Hchild) Hsub).
Qed.
End MappedArrays.

Section FirstNView.
Context {ContentNode HintNode TagsNode RendererProps : Type}.
Context {WidgetRef Criterion Score Guess : Type}.
Abbreviation MultiRenderer := (@MultiRenderer ContentNode HintNode TagsNode RendererProps).
Abbreviation RendererData :=
  (@RendererData ContentNode HintNode RendererProps WidgetRef Criterion Score Guess).
Abbreviation World :=
  (@World ContentNode HintNode TagsNode RendererProps WidgetRef Criterion Score Guess).
Abbreviation RendererTree := (@RendererTree ContentNode HintNode RendererProps).
Abbreviation ReactElement := (@ReactElement ContentNode HintNode RendererProps).

(** The elements of a hint array and what its [firstN] shows. *)
Lemma hint_array_view (heap : list RendererData) (q : Path)
      (originals : list RendererDataTree) :
  Forall (fun d => exists data cell rp h,
                     d = Hint data /\ heap !! data = Some cell /\
                     renderer cell = EHintsRenderer rp [Some h] None /\
                     hint cell = Some h) originals ->
  forall k,
  exists hints : list HintNode,
    map (hint_of heap) originals = map Some hints /\
    Forall2 (fun (kid : RendererTree) h =>
               exists rp, kid = Hint (EHintsRenderer rp [Some h] None))
            (mapi (fun inner i =>
                     tmap (fun data _ => renderer_of heap data)
                          (fun data _ => renderer_of heap data)
                          (fun v _ => v) annotation inner HintShape (q ++ [i]))
                  originals k)
            hints.
Proof.
  induction 1 as [|d originals (data & cell & rp & h & -> & Hcell & Hrend & Hhint) _ IH];
    intros k.
  - exists []. split; [done|]. apply List.Forall2_nil.
  - destruct (IH (Datatypes.S k)) as (hints & Hmap & Hkids).
    exists (h :: hints). split.
    + simpl. rewrite Hcell, Hhint. f_equal. exact Hmap.
    + simpl. apply List.Forall2_cons; [|exact Hkids].
      exists rp. unfold renderer_of. by rewrite Hcell, Hrend.
Qed.

(** X16. What [firstN] shows.  Where the exposed tree has an array with
    [firstN], calling [firstN(n)] gives one HintsRenderer element over the
    hints of the whole array, in order: they are the very hints that the
    elements of the array show one by one.  It shows [n] of them
    ([hintsVisible]), and it is made with the component's current other
    props, whatever props the elements of the array were made with. *)
Theorem firstN_shows_the_hints_of_its_array
        (w : World) (tree : RendererDataTree) (renderers : RendererTree)
        (p : Path) (f : FirstN) (kids : list RendererTree) (n : nat) :
  reachable w ->
  rendererDataTree (state (component w)) = Some tree ->
  conforms tree (shape (props (component w))) = true ->
  _getRenderers (component w) (cells (store w)) = Ok (Some renderers) ->
  subtree renderers p = Some (Array (Some f) kids) ->
  exists hints : list HintNode,
    firstN (component w) (cells (store w)) f n =
      EHintsRenderer (otherProps (props (component w))) (map Some hints) (Some n) /\
    Forall2 (fun (kid : RendererTree) h =>
               exists rp, kid = Hint (EHintsRenderer rp [Some h] None))
            kids hints.
Proof.
  intros Hreach Htree Hconf Hrun Hsub.
  rewrite (_getRenderers_ready _ Htree Hconf) in Hrun. injection Hrun as <-.
  destruct (tmap_subtree_array Hconf Hsub)
    as (x0 & originals & es & q' & Horig & Hshape & Hf & ->).
  unfold annotation in Hf. simpl in Hf.
  destruct es; simpl in Hf; try discriminate. injection Hf as ->.
  destruct (subtree_conforms Hconf Horig) as (s' & Hshape' & Hconf').
  rewrite Hshape in Hshape'. injection Hshape' as <-. simpl in Hconf'.
  destruct (reachable_world_ok Hreach) as (_ & _ & Hcached).
  destruct (Hcached _ Htree) as [Hleaves _].
  pose proof (reachable_cells_as_made Hreach) as Hmade.
  assert (Hhints : Forall (fun d => exists data cell rp h,
                             d = Hint data /\ cells (store w) !! data = Some cell /\
                             renderer cell = EHintsRenderer rp [Some h] None /\
                             hint cell = Some h) originals).
  { apply List.Forall_forall. intros d Hd.
    rewrite forallb_forall in Hconf'. pose proof (Hconf' d Hd) as Hdconf.
    destruct d as [c|data|v|x kids']; simpl in Hdconf; try discriminate.
    apply In_nth_error in Hd as [i Hi].
    assert (Hleaf : In (p ++ [i], LHint data) (leaves tree [])).
    { apply (subtree_leaves (p := p) (q := []) Horig). simpl.
      apply (flat_mapi_in (j := i) Hi). simpl. by left. }
    rewrite List.Forall_forall in Hleaves.
    destruct (Hleaves _ Hleaf) as (cell & Hcell & Hsome).
    destruct (Hmade _ _ Hcell) as [[Hnone _] | (_ & rp & h & Hr & Hh)]; [done|].
    by exists data, cell, rp, h. }
  destruct (hint_array_view q' Hhints 0) as (hints & Hmap & Hkids).
  exists hints. split; [|exact Hkids].
  unfold firstN, _getRendererProps. simpl. by rewrite Hmap.
Qed.
End FirstNView.

Section MapTreeAgree.
Context {S C C' H H' T T' X X' : Type}.
Variable m m' : TreeMapper S C C' H H' T T' X X'.
Hypothesis array_same : forall mapped originals s p st,
  arrayMapper m mapped originals s p st = arrayMapper m' mapped originals s p st.

Lemma map_elements_agree (es : Shape) (path : Path) (children : list (Tree C H T X)) :
  Forall (fun t => forall s p st,
            Forall (mappers_agree_at m m') (leaves t p) ->
            mapTree m t s p st = mapTree m' t s p st) children ->
  forall i st,
    Forall (mappers_agree_at m m')
           (flat_mapi (fun inner i => leaves inner (path ++ [i])) children i) ->
    map_elements (fun inner i => mapTree m inner es (path ++ [i])) children i st =
    map_elements (fun inner i => mapTree m' inner es (path ++ [i])) children i st.
Proof.
  induction 1 as [|t rest Ht _ IH]; intros i st Hagree; simpl; [done|].
  simpl in Hagree. apply Forall_app in Hagree as [Hhere Hrest].
  unfold bind at 1 3. rewrite (Ht es (path ++ [i]) st Hhere).
  destruct (mapTree m' t es (path ++ [i]) st) as [[t'|e] st1]; [|done].
  unfold bind at 1 2. by rewrite (IH _ st1 Hrest).
Qed.

(** Mappers that agree at the leaves of a tree map the tree alike. *)
Lemma mapTree_agree (t : Tree C H T X) : forall s p st,
  Forall (mappers_agree_at m m') (leaves t p) ->
  mapTree m t s p st = mapTree m' t s p st.
Proof using array_same.
  induction t as [c|h|v|x children IH] using Tree_rose_ind;
    intros s p st Hagree; destruct s; simpl; try done.
  - apply Forall_inv in Hagree. simpl in Hagree. unfold bind. by rewrite Hagree.
  - apply Forall_inv in Hagree. simpl in Hagree. unfold bind. by rewrite Hagree.
  - apply Forall_inv in Hagree. simpl in Hagree. unfold bind. by rewrite Hagree.
  - unfold bind at 1 3. simpl in Hagree.
    rewrite (@map_elements_agree s p children IH 0 st Hagree).
    destruct (map_elements _ children 0 st) as [[ts|e] st1]; [|done].
    unfold bind. by rewrite array_same.
Qed.
End MapTreeAgree.

Section OtherCells.
Context {ContentNode HintNode TagsNode RendererProps : Type}.
Context {WidgetRef Criterion Score Guess KEScore : Type}.
Variable combineScores : Score -> Score -> Score.
Variable keScoreFromPerseusScore : Score -> @GuessValue Guess -> KEScore.
Abbreviation Props := (@Props ContentNode HintNode TagsNode RendererProps).
Abbreviation MultiRenderer := (@MultiRenderer ContentNode HintNode TagsNode RendererProps).
Abbreviation Renderer := (@Renderer WidgetRef Criterion Score Guess).
Abbreviation RendererData :=
  (@RendererData ContentNode HintNode RendererProps WidgetRef Criterion Score Guess).
Abbreviation Store :=
  (@Store ContentNode HintNode RendererProps WidgetRef Criterion Score Guess).
Abbreviation World :=
  (@World ContentNode HintNode TagsNode RendererProps WidgetRef Criterion Score Guess).

(** Leaf transforms that agree on the cells of the cached tree give the
    same traversal. *)
Lemma _mapRenderers_agree {L O X' : Type} (this : MultiRenderer)
      (tree : RendererDataTree)
      (leafMapper leafMapper' : addr -> Shape -> Path -> M L O)
      (arrayMapper : option (ArrayMapper L addr O addr O unit unit Empty_set X'))
      (st : L) :
  rendererDataTree (state this) = Some tree ->
  (forall data, In data (leaf_cells tree) ->
                forall s p u, leafMapper data s p u = leafMapper' data s p u) ->
  _mapRenderers this leafMapper arrayMapper st =
  _mapRenderers this leafMapper' arrayMapper st.
Proof.
  intros Htree Hsame. unfold _mapRenderers. rewrite Htree. unfold bind.
  assert (Hagree : forall (am : TreeMapper L addr O addr O unit unit Empty_set X')
                          (am' : TreeMapper L addr O addr O unit unit Empty_set X'),
             contentMapper (leafMappers am) = leafMapper ->
             hintMapper (leafMappers am) = leafMapper ->
             contentMapper (leafMappers am') = leafMapper' ->
             hintMapper (leafMappers am') = leafMapper' ->
             tagsMapper (leafMappers am) = tagsMapper (leafMappers am') ->
             Forall (mappers_agree_at am am') (leaves tree [])).
  { intros am am' Hc Hh Hc' Hh' Ht. unfold leaf_cells in Hsame.
    induction (leaves tree []) as [|[q [data|data|v]] l IH]; [done|..];
      apply (@List.Forall_cons _ (mappers_agree_at am am')); simpl.
    - rewrite Hc, Hc'. intros s u. apply Hsame. by left.
    - apply IH. intros d Hin. apply Hsame. by right.
    - rewrite Hh, Hh'. intros s u. apply Hsame. by left.
    - apply IH. intros d Hin. apply Hsame. by right.
    - intros s u. by rewrite Ht.
    - apply IH. intros d Hin. by apply Hsame. }
  destruct arrayMapper as [f|].
  - rewrite (@mapTree_agree _ _ _ _ _ _ _ _ _
               (setArrayMapper f (setHintMapper leafMapper
                                    (setContentMapper leafMapper buildMapper)))
               (setArrayMapper f (setHintMapper leafMapper'
                                    (setContentMapper leafMapper' buildMapper))));
      [done|done|by apply Hagree].
  - rewrite (@mapTree_agree _ _ _ _ _ _ _ _ _
               (justLeaves (setHintMapper leafMapper
                              (setContentMapper leafMapper buildMapper)))
               (justLeaves (setHintMapper leafMapper'
                              (setContentMapper leafMapper' buildMapper))));
      [done|done|by apply Hagree].
Qed.

Lemma ref_of_set_ref_elsewhere (st : Store) (data : addr) (e : option Renderer)
      (a : addr) :
  a <> data -> ref_of (cells (set_ref data e st)) a = ref_of (cells st) a.
Proof.
  intros Hne. unfold ref_of, set_ref. simpl. by rewrite list_lookup_alter_ne.
Qed.

(** X19. The traversals read the back-references of the cells of the
    cached tree and of no other cell: a [ref] callback of a cell that is
    not in the cached tree -- such as the unmounting of an element of a tree
    that has been replaced -- changes the result of none of them. *)
Theorem ref_callbacks_of_other_cells_are_not_seen
        (this : MultiRenderer) (st : Store) (tree : RendererDataTree)
        (data : addr) (e : option Renderer) :
  rendererDataTree (state this) = Some tree ->
  ~ In data (leaf_cells tree) ->
  getScores keScoreFromPerseusScore this (cells (set_ref data e st)) =
    getScores keScoreFromPerseusScore this (cells st) /\
  score combineScores keScoreFromPerseusScore this (cells (set_ref data e st)) =
    score combineScores keScoreFromPerseusScore this (cells st) /\
  getSerializedState this (cells (set_ref data e st)) =
    getSerializedState this (cells st) /\
  (forall (callingData : addr) (criterion : Criterion),
      _findWidgets this (cells (set_ref data e st)) callingData criterion =
      _findWidgets this (cells st) callingData criterion) /\
  (forall serializedState callback,
      restoreSerializedState this (cells (set_ref data e st)) serializedState callback =
      restoreSerializedState this (cells st) serializedState callback).
Proof.
  intros Htree Hnotin.
  assert (Href : forall a, In a (leaf_cells tree) ->
                           ref_of (cells (set_ref data e st)) a = ref_of (cells st) a).
  { intros a Hin. apply ref_of_set_ref_elsewhere. intros ->. by apply Hnotin. }
  repeat split.
  - unfold getScores, run_local.
    rewrite (@_mapRenderers_agree _ _ _ this tree _
               (fun a _ _ => ret (_scoreFromRef keScoreFromPerseusScore
                                                (ref_of (cells st) a)))
               None tt Htree); [done|].
    intros a Hin s p u. cbv beta. by rewrite (Href a Hin).
  - unfold score, run_local, score_traversal.
    rewrite (@_mapRenderers_agree _ _ _ this tree _
               (fun a _ _ =>
                  match ref_of (cells st) a with
                  | None => ret None
                  | Some r => push_all [leaf_score r] ;;; ret (Some (getUserInput r))
                  end)
               None [] Htree); [done|].
    intros a Hin s p u. cbv beta. by rewrite (Href a Hin).
  - unfold getSerializedState, run_local.
    rewrite (@_mapRenderers_agree _ _ _ this tree _
               (fun a _ _ =>
                  match ref_of (cells st) a with
                  | None => ret None
                  | Some r => ret (Some (leaf_getSerializedState r))
                  end)
               None tt Htree); [done|].
    intros a Hin s p u. cbv beta. by rewrite (Href a Hin).
  - intros callingData criterion. unfold _findWidgets, run_local.
    rewrite (@_mapRenderers_agree _ _ _ this tree _
               (fun a _ _ =>
                  match ref_of (cells st) a with
                  | Some r =>
                      if negb (callingData =? a)
                      then push_all (findInternalWidgets r criterion)
                      else ret tt
                  | None => ret tt
                  end)
               None [] Htree); [done|].
    intros a Hin s p u. cbv beta. by rewrite (Href a Hin).
  - intros serializedState callback. unfold restoreSerializedState, run_local.
    erewrite (@_mapRenderers_agree _ _ _ this tree); [reflexivity|exact Htree|].
    intros a Hin s p u. cbv beta. by rewrite (Href a Hin).
Qed.

(** X20. A rebuild does not reuse cells.  When a component that holds a
    tree receives another item, no cell of the previous tree is a cell of
    the new one, and every cell of the previous tree is still in the heap
    as it was, with its back-reference. *)
Theorem a_rebuild_leaves_the_previous_cells_behind
        (w : World) (nextProps : Props) (this' : MultiRenderer) (st' : Store)
        (old new : RendererDataTree) :
  reachable w ->
  rendererDataTree (state (component w)) = Some old ->
  item_ref (item nextProps) <> item_ref (item (props (component w))) ->
  receiveProps (component w) nextProps (store w) = (Ok this', st') ->
  rendererDataTree (state this') = Some new ->
  forall data, In data (leaf_cells old) ->
    ~ In data (leaf_cells new) /\
    cells st' !! data = cells (store w) !! data /\
    cells (store w) !! data <> None.
Proof.
  intros Hreach Hold Hne Hrun Hnew data Hin.
  destruct (reachable_world_ok Hreach) as (_ & _ & Hcached).
  destruct (Hcached _ Hold) as [Hleaves _].
  assert (Hlt : data < length (cells (store w))).
  { destruct (@leaf_cells_in_heap _ _ _ _ _ _ _ (cells (store w)) (leaves old [])
                                  data Hleaves Hin) as [cell Hcell].
    by eapply lookup_lt_Some. }
  unfold receiveProps, componentWillReceiveProps in Hrun.
  apply Nat.eqb_neq in Hne. rewrite Hne in Hrun. simpl in Hrun. unfold bind in Hrun.
  destruct (_tryMakeRendererState_runs (props (component w)) nextProps (store w))
    as [(q & _ & _ & Hrun') | (tree & _ & Hrun' & Hl & _)];
    rewrite Hrun' in Hrun; injection Hrun as <- <-; simpl in Hnew; [done|].
  apply nullable_Some in Hnew as ->. simpl. split; [|split].
  - unfold leaf_cells. rewrite Hl.
    rewrite (leaf_cells_for (WidgetRef:=WidgetRef) (Criterion:=Criterion)
                            (Score:=Score) (Guess:=Guess)
                            (otherProps (props (component w)))).
    intros Hnew. apply in_seq in Hnew. lia.
  - by rewrite lookup_app_l.
  - intros Hnone. apply lookup_ge_None in Hnone. lia.
Qed.
End OtherCells.

(* ===================================================================== *)
(** ** The further statements on the concrete exercises *)
(* ===================================================================== *)

Lemma empty_input_is_invalid_witness :
  input_value getDefaultProps = EmptyString /\
  simpleValidate ex_calcEditDistance ex_RegExp_test getDefaultProps
                 editor_getDefaultProps =
  Ok (Invalid "It looks like you haven't answered all of the question yet.").
Proof.
  assert (Hempty : input_value getDefaultProps = EmptyString) by reflexivity.
  split; [exact Hempty|].
  exact (empty_input_is_invalid ex_calcEditDistance ex_RegExp_test
                                editor_getDefaultProps Hempty).
Defined.

Lemma more_tolerance_keeps_correct_witness :
  let rubric := ex_rubric 1 None in
  let rubric' := ex_rubric 2 None in
  validate ex_calcEditDistance ex_RegExp_test (Some "cut"%string) rubric =
    Ok (Points 1 1 None) /\
  validate ex_calcEditDistance ex_RegExp_test (Some "cut"%string) rubric' =
    Ok (Points 1 1 None).
Proof.
  intros rubric rubric'.
  assert (Hcorrect : validate ex_calcEditDistance ex_RegExp_test
                              (Some "cut"%string) rubric = Ok (Points 1 1 None))
    by reflexivity.
  assert (Hle : QArith_base.Qle (editDistance rubric) (editDistance rubric'))
    by (unfold QArith_base.Qle; simpl; lia).
  split; [exact Hcorrect|].
  exact (more_tolerance_keeps_correct (rubric := rubric) (rubric' := rubric')
           eq_refl eq_refl Hle Hcorrect).
Defined.

Lemma regex_is_only_a_fallback_witness :
  let rubric := ex_rubric 1 (Some "("%string) in
  validate ex_calcEditDistance ex_RegExp_test (Some "cut"%string) rubric =
    validate ex_calcEditDistance ex_RegExp_throws (Some "cut"%string) rubric /\
  exists graded,
    validate ex_calcEditDistance ex_RegExp_test (Some "cut"%string) rubric = Ok graded.
Proof.
  intros rubric.
  assert (Hwithin : forall v, Some "cut"%string = Some v ->
            QArith_base.Qle_bool
              (QArith_base.inject_Z
                 (Z.of_nat (ex_calcEditDistance (answer rubric) v)))
              (editDistance rubric) = true \/
            has_gradingRegex rubric = None).
  { intros v Hv. injection Hv as <-. left. reflexivity. }
  exact (@regex_is_only_a_fallback ex_calcEditDistance ex_RegExp_test
                                   ex_RegExp_throws _ _ Hwithin).
Defined.

Lemma without_a_tree_the_traversals_return_null_witness :
  let this := component ex_world_errored in
  let heap := cells (store ex_world_errored) in
  rendererDataTree (state this) = None /\
  getScores ex_keScore this heap = Ok None /\
  getSerializedState this heap = Ok None /\
  _getRenderers this heap = Ok None /\
  (forall (callingData : addr) (criterion : nat),
      _findWidgets this heap callingData criterion = Ok (@nil nat)) /\
  (forall serializedState callback,
      restoreSerializedState this heap serializedState callback = Ok restore_start).
Proof.
  intros this heap.
  assert (Hnone : rendererDataTree (state this) = None) by reflexivity.
  split; [exact Hnone|].
  exact (without_a_tree_the_traversals_return_null ex_keScore heap Hnone).
Defined.

Lemma restore_hands_each_leaf_the_state_at_its_path_witness :
  let this := component ex_world_later in
  let heap := cells (store ex_world_later) in
  let serializedState := JArray [JNumber 0; JNumber 2] in
  let st := returned (restoreSerializedState this heap serializedState true)
                     restore_start in
  restoreSerializedState this heap serializedState true = Ok st /\
  restorations (trace st) =
    match rendererDataTree (state this) with
    | Some tree => dispatched_states heap serializedState (leaves tree [])
    | None => []
    end /\
  Forall (fun handed => ref_of heap (fst handed) <> None /\ truthy (snd handed) = true)
         (restorations (trace st)).
Proof.
  intros this heap serializedState st.
  assert (Hrun : restoreSerializedState this heap serializedState true = Ok st)
    by reflexivity.
  split; [exact Hrun|].
  exact (restore_hands_each_leaf_the_state_at_its_path Hrun).
Defined.

Lemma restore_without_callback_witness :
  let this := component ex_world_later in
  let heap := cells (store ex_world_later) in
  let serializedState := JArray [JNumber 1; JNumber 2] in
  let st := returned (restoreSerializedState this heap serializedState false)
                     restore_start in
  restoreSerializedState this heap serializedState false = Ok st /\
  (forall order, callbacks (trace (complete_later false order st)) = 0) /\
  forall st', restoreSerializedState this heap serializedState true = Ok st' ->
              restorations (trace st') = restorations (trace st).
Proof.
  intros this heap serializedState st.
  assert (Hrun : restoreSerializedState this heap serializedState false = Ok st)
    by reflexivity.
  split; [exact Hrun|].
  exact (restore_without_callback Hrun).
Defined.

Lemma counter_counts_outstanding_restorations_witness :
  let this := component ex_world_later in
  let heap := cells (store ex_world_later) in
  let serializedState := JArray [JNumber 1; JNumber 2] in
  let st := returned (restoreSerializedState this heap serializedState true)
                     restore_start in
  restoreSerializedState this heap serializedState true = Ok st /\
  forall order, counter_ok (complete_later true order st).
Proof.
  intros this heap serializedState st.
  assert (Hrun : restoreSerializedState this heap serializedState true = Ok st)
    by reflexivity.
  split; [exact Hrun|].
  exact (counter_counts_outstanding_restorations Hrun).
Defined.

Lemma restore_of_getSerializedState_roundtrip_witness :
  let this := component ex_world_sync in
  let heap := cells (store ex_world_sync) in
  let tree : RendererDataTree := Array None [Content 0; Content 1] in
  rendererDataTree (state this) = Some tree /\
  conforms tree (shape (props this)) = true /\
  exists states st,
    getSerializedState this heap = Ok (Some states) /\
    restoreSerializedState this heap (serialized_value states) true = Ok st /\
    restorations (trace st) = own_states heap (leaf_cells tree).
Proof.
  intros this heap tree.
  assert (Htree : rendererDataTree (state this) = Some tree) by reflexivity.
  assert (Hconf : conforms tree (shape (props this)) = true) by reflexivity.
  split; [exact Htree|]. split; [exact Hconf|].
  exact (restore_of_getSerializedState_roundtrip heap true Htree Hconf).
Defined.

Lemma rebuild_makes_one_cell_per_leaf_witness :
  let p := ex_props ex_broken (ArrayShape (ArrayShape ContentShape)) in
  let st : @Store nat nat nat nat nat (nat * nat) nat := empty_store in
  let s := state (component (ex_constructed p)) in
  let st' := store (ex_constructed p) in
  _tryMakeRendererState p p st = (Ok s, st') /\
  cells st' = [{| renderer := ERenderer 0 10 0; ref := None; hint := None |}] /\
  conforms (itemToTree (item p)) (shape p) = false /\
  s = {| rendererDataTree := None; renderError := Some (ShapeMismatch [1]) |} /\
  console st' = [ShapeMismatch [1]].
Proof.
  intros p st s st'.
  assert (Hrun : _tryMakeRendererState p p st = (Ok s, st')) by reflexivity.
  split; [exact Hrun|].
  exact (rebuild_makes_one_cell_per_leaf Hrun).
Defined.

Lemma findExternalWidgets_leaves_out_only_the_caller_witness :
  let w := ex_world_sync in
  let tree : RendererDataTree := Array None [Content 0; Content 1] in
  reachable w /\
  rendererDataTree (state (component w)) = Some tree /\
  conforms tree (shape (props (component w))) = true /\
  leaf_cells tree = [0] ++ 1 :: [] /\
  List.NoDup (leaf_cells tree) /\
  _findWidgets (component w) (cells (store w)) 1 4 =
  Ok (flat_map (fun r => findInternalWidgets r 4) (mounted (cells (store w)) [0]) ++
      flat_map (fun r => findInternalWidgets r 4) (mounted (cells (store w)) [])).
Proof.
  intros w tree.
  assert (Htree : rendererDataTree (state (component w)) = Some tree) by reflexivity.
  assert (Hconf : conforms tree (shape (props (component w))) = true) by reflexivity.
  assert (Hsplit : leaf_cells tree = [0] ++ 1 :: []) by reflexivity.
  split; [exact ex_world_sync_reachable|]. split; [exact Htree|].
  split; [exact Hconf|]. split; [exact Hsplit|].
  split.
  - exact (proj1 (findExternalWidgets_leaves_out_only_the_caller
                    ex_world_sync_reachable Htree)).
  - exact (proj2 (findExternalWidgets_leaves_out_only_the_caller
                    ex_world_sync_reachable Htree) [0] [] 1 4 Hconf Hsplit).
Defined.

Lemma exposed_elements_belong_to_their_leaves_witness :
  let w := ex_world_hints in
  let tree : RendererDataTree := Array None [Hint 0; Hint 1] in
  reachable w /\
  rendererDataTree (state (component w)) = Some tree /\
  conforms tree (shape (props (component w))) = true /\
  exists renderers,
    _getRenderers (component w) (cells (store w)) = Ok (Some renderers) /\
    render (component w) (cells (store w)) =
      Ok (children (props (component w)) (Some renderers)) /\
    leaves renderers [] =
      map (leaf_map (fun data _ => renderer_of (cells (store w)) data)
                    (fun data _ => renderer_of (cells (store w)) data)
                    (fun v _ => v)) (leaves tree []) /\
    Forall (fun leaf =>
              match leaf with
              | (_, LContent data) =>
                  exists rp c, renderer_of (cells (store w)) data = ERenderer rp c data
              | (_, LHint data) =>
                  exists rp h cell,
                    renderer_of (cells (store w)) data = EHintsRenderer rp [Some h] None /\
                    cells (store w) !! data = Some cell /\ hint cell = Some h
              | (_, LTags _) => True
              end) (leaves tree []).
Proof.
  intros w tree.
  assert (Htree : rendererDataTree (state (component w)) = Some tree) by reflexivity.
  assert (Hconf : conforms tree (shape (props (component w))) = true) by reflexivity.
  split; [exact ex_world_hints_reachable|]. split; [exact Htree|].
  split; [exact Hconf|].
  exact (exposed_elements_belong_to_their_leaves ex_world_hints_reachable Htree Hconf).
Defined.

Lemma elements_carry_the_props_in_place_at_build_witness :
  let this := component (ex_constructed (ex_props ex_pair (ArrayShape ContentShape))) in
  let st := store (ex_constructed (ex_props ex_pair (ArrayShape ContentShape))) in
  let r := componentWillReceiveProps this ex_next_props st in
  let this' := returned (fst r) this in
  let st' := snd r in
  let tree : RendererDataTree := Array None [Content 2; Content 3] in
  item_ref (item ex_next_props) <> item_ref (item (props this)) /\
  componentWillReceiveProps this ex_next_props st = (Ok this', st') /\
  rendererDataTree (state this') = Some tree /\
  Forall (fun data =>
            exists cell : @RendererData nat nat nat nat nat (nat * nat) nat,
              cells st' !! data = Some cell /\
              element_props (renderer cell) = Some (otherProps (props this)))
         (leaf_cells tree).
Proof.
  intros this st r this' st' tree.
  assert (Hne : item_ref (item ex_next_props) <> item_ref (item (props this)))
    by (simpl; lia).
  assert (Hrun : componentWillReceiveProps this ex_next_props st = (Ok this', st'))
    by reflexivity.
  assert (Htree : rendererDataTree (state this') = Some tree) by reflexivity.
  split; [exact Hne|]. split; [exact Hrun|]. split; [exact Htree|].
  exact (proj2 (elements_carry_the_props_in_place_at_build
                  (ContentNode:=nat) (HintNode:=nat) (TagsNode:=nat)
                  (RendererProps:=nat) (WidgetRef:=nat) (Criterion:=nat)
                  (Score:=nat * nat) (Guess:=nat))
               this this' ex_next_props st st' tree Hne Hrun Htree).
Defined.

Lemma a_ref_callback_shows_at_the_place_of_its_leaf_witness :
  let w := ex_world_sync in
  let heap := cells (store w) in
  let tree : RendererDataTree := Array None [Content 0; Content 1] in
  reachable w /\
  rendererDataTree (state (component w)) = Some tree /\
  conforms tree (shape (props (component w))) = true /\
  leaf_cells tree = [0] ++ 1 :: [] /\
  0 <> 1 /\
  _findWidgets (component w) heap 0 4 =
    Ok (flat_map (fun r => findInternalWidgets r 4) (mounted heap (others 0 [0])) ++
        flat_map (fun r => findInternalWidgets r 4) (mounted heap [1]) ++
        flat_map (fun r => findInternalWidgets r 4) (mounted heap (others 0 []))) /\
  _findWidgets (component w) (cells (set_ref 1 None (store w))) 0 4 =
    Ok (flat_map (fun r => findInternalWidgets r 4) (mounted heap (others 0 [0])) ++
        [] ++
        flat_map (fun r => findInternalWidgets r 4) (mounted heap (others 0 []))).
Proof.
  intros w heap tree.
  assert (Htree : rendererDataTree (state (component w)) = Some tree) by reflexivity.
  assert (Hconf : conforms tree (shape (props (component w))) = true) by reflexivity.
  assert (Hsplit : leaf_cells tree = [0] ++ 1 :: []) by reflexivity.
  assert (Hne : 0 <> 1) by lia.
  split; [exact ex_world_sync_reachable|]. split; [exact Htree|].
  split; [exact Hconf|]. split; [exact Hsplit|]. split; [exact Hne|].
  exact (a_ref_callback_shows_at_the_place_of_its_leaf
           4 None ex_world_sync_reachable Htree Hconf Hsplit Hne).
Defined.

Lemma score_combines_the_mounted_leaves_in_order_witness :
  let this := component ex_world_sync in
  let heap := cells (store ex_world_sync) in
  let tree : RendererDataTree := Array None [Content 0; Content 1] in
  let r := ex_leaf [5; 9] (1, 1) Synchronously in
  let rs := [ex_leaf [3; 7] (0, 1) Synchronously] in
  rendererDataTree (state this) = Some tree /\
  conforms tree (shape (props this)) = true /\
  mounted heap (leaf_cells tree) = r :: rs /\
  exists guesses : @GuessTree nat,
    score ex_combineScores ex_keScore this heap =
      Ok (ex_keScore (fold_left ex_combineScores (map leaf_score rs) (leaf_score r))
                     (GTree (Some guesses))) /\
    topology guesses = topology tree /\
    leaves guesses [] =
      map (leaf_map (guess_of heap) (guess_of heap) (fun v _ => v)) (leaves tree []).
Proof.
  intros this heap tree r rs.
  assert (Htree : rendererDataTree (state this) = Some tree) by reflexivity.
  assert (Hconf : conforms tree (shape (props this)) = true) by reflexivity.
  assert (Hmounted : mounted heap (leaf_cells tree) = r :: rs) by reflexivity.
  split; [exact Htree|]. split; [exact Hconf|]. split; [exact Hmounted|].
  exact (score_combines_the_mounted_leaves_in_order
           ex_combineScores ex_keScore Htree Hconf Hmounted).
Defined.

Lemma firstN_shows_the_hints_of_its_array_witness :
  let w := ex_world_hints in
  let tree : RendererDataTree := Array None [Hint 0; Hint 1] in
  let f : FirstN := {| hintRendererDatas := [Hint 0; Hint 1] |} in
  let kids : list (@RendererTree nat nat nat) :=
    [Hint (EHintsRenderer 0 [Some 30] None); Hint (EHintsRenderer 0 [Some 40] None)] in
  reachable w /\
  rendererDataTree (state (component w)) = Some tree /\
  conforms tree (shape (props (component w))) = true /\
  _getRenderers (component w) (cells (store w)) = Ok (Some (Array (Some f) kids)) /\
  subtree (Array (Some f) kids) [] = Some (Array (Some f) kids) /\
  exists hints : list nat,
    firstN (component w) (cells (store w)) f 1 =
      EHintsRenderer (otherProps (props (component w))) (map Some hints) (Some 1) /\
    Forall2 (fun (kid : @RendererTree nat nat nat) h =>
               exists rp, kid = Hint (EHintsRenderer rp [Some h] None))
            kids hints.
Proof.
  intros w tree f kids.
  assert (Htree : rendererDataTree (state (component w)) = Some tree) by reflexivity.
  assert (Hconf : conforms tree (shape (props (component w))) = true) by reflexivity.
  assert (Hrun : _getRenderers (component w) (cells (store w)) =
                 Ok (Some (Array (Some f) kids))) by reflexivity.
  assert (Hsub : subtree (Array (Some f) kids) [] = Some (Array (Some f) kids))
    by reflexivity.
  split; [exact ex_world_hints_reachable|]. split; [exact Htree|].
  split; [exact Hconf|]. split; [exact Hrun|]. split; [exact Hsub|].
  exact (firstN_shows_the_hints_of_its_array
           1 ex_world_hints_reachable Htree Hconf Hrun Hsub).
Defined.

Lemma restore_calls_back_once_if_leaves_complete_later_witness :
  let this := component ex_world_later in
  let heap := cells (store ex_world_later) in
  let tree : RendererDataTree := Array None [Content 0; Content 1] in
  let serializedState := JArray [JNumber 1; JNumber 2] in
  rendererDataTree (state this) = Some tree /\
  conforms tree (shape (props this)) = true /\
  dispatched heap serializedState (leaves tree []) <> [] /\
  exists st,
    restoreSerializedState this heap serializedState true = Ok st /\
    restored (trace st) = dispatched heap serializedState (leaves tree []) /\
    callbacks (trace st) = 0 /\
    forall order,
      Permutation order (pending (trace st)) ->
      trace (complete_later true order st) =
        trace st ++ map Completed order ++ [Callback] /\
      callbacks (trace (complete_later true order st)) = 1.
Proof.
  intros this heap tree serializedState.
  assert (Htree : rendererDataTree (state this) = Some tree) by reflexivity.
  assert (Hconf : conforms tree (shape (props this)) = true) by reflexivity.
  assert (Hlater : forall data r leafState,
             ref_of heap data = Some r ->
             leaf_restoreSerializedState r leafState = Later).
  { intros [|[|data]] r leafState Href; simpl in Href; try discriminate;
      injection Href as <-; reflexivity. }
  assert (Hsome : dispatched heap serializedState (leaves tree []) <> [])
    by (simpl; discriminate).
  split; [exact Htree|]. split; [exact Hconf|]. split; [exact Hsome|].
  exact (restore_calls_back_once_if_leaves_complete_later Htree Hconf Hlater Hsome).
Defined.

Lemma restore_calls_back_per_leaf_if_leaves_complete_synchronously_witness :
  let this := component ex_world_sync in
  let heap := cells (store ex_world_sync) in
  let tree : RendererDataTree := Array None [Content 0; Content 1] in
  let serializedState := JArray [JNumber 1; JNumber 2] in
  rendererDataTree (state this) = Some tree /\
  conforms tree (shape (props this)) = true /\
  exists st,
    restoreSerializedState this heap serializedState true = Ok st /\
    callbacks (trace st) = length (dispatched heap serializedState (leaves tree [])).
Proof.
  intros this heap tree serializedState.
  assert (Htree : rendererDataTree (state this) = Some tree) by reflexivity.
  assert (Hconf : conforms tree (shape (props this)) = true) by reflexivity.
  assert (Hsync : forall data r leafState,
             ref_of heap data = Some r ->
             leaf_restoreSerializedState r leafState = Synchronously).
  { intros [|[|data]] r leafState Href; simpl in Href; try discriminate;
      injection Href as <-; reflexivity. }
  split; [exact Htree|]. split; [exact Hconf|].
  exact (restore_calls_back_per_leaf_if_leaves_complete_synchronously
           serializedState Htree Hconf Hsync).
Defined.

Lemma ref_callbacks_of_other_cells_are_not_seen_witness :
  let this := component ex_world_rebuilt in
  let st := store ex_world_rebuilt in
  let tree : RendererDataTree := Array None [Content 2; Content 3] in
  rendererDataTree (state this) = Some tree /\
  ~ In 0 (leaf_cells tree) /\
  getScores ex_keScore this (cells (set_ref 0 None st)) =
    getScores ex_keScore this (cells st) /\
  score ex_combineScores ex_keScore this (cells (set_ref 0 None st)) =
    score ex_combineScores ex_keScore this (cells st) /\
  getSerializedState this (cells (set_ref 0 None st)) =
    getSerializedState this (cells st) /\
  (forall (callingData : addr) (criterion : nat),
      _findWidgets this (cells (set_ref 0 None st)) callingData criterion =
      _findWidgets this (cells st) callingData criterion) /\
  (forall serializedState callback,
      restoreSerializedState this (cells (set_ref 0 None st)) serializedState callback =
      restoreSerializedState this (cells st) serializedState callback).
Proof.
  intros this st tree.
  assert (Htree : rendererDataTree (state this) = Some tree) by reflexivity.
  assert (Hnotin : ~ In 0 (leaf_cells tree)) by (simpl; lia).
  split; [exact Htree|]. split; [exact Hnotin|].
  exact (ref_callbacks_of_other_cells_are_not_seen
           ex_combineScores ex_keScore st None Htree Hnotin).
Defined.

Lemma a_rebuild_leaves_the_previous_cells_behind_witness :
  let w := ex_world_sync in
  let this' := component ex_world_rebuilt in
  let st' := store ex_world_rebuilt in
  let old : RendererDataTree := Array None [Content 0; Content 1] in
  let new : RendererDataTree := Array None [Content 2; Content 3] in
  reachable w /\
  rendererDataTree (state (component w)) = Some old /\
  item_ref (item ex_next_props) <> item_ref (item (props (component w))) /\
  receiveProps (component w) ex_next_props (store w) = (Ok this', st') /\
  rendererDataTree (state this') = Some new /\
  In 0 (leaf_cells old) /\
  ~ In 0 (leaf_cells new) /\
  cells st' !! 0 = cells (store w) !! 0 /\
  cells (store w) !! 0 <> None.
Proof.
  intros w this' st' old new.
  assert (Hold : rendererDataTree (state (component w)) = Some old) by reflexivity.
  assert (Hne : item_ref (item ex_next_props) <> item_ref (item (props (component w))))
    by (simpl; lia).
  assert (Hrun : receiveProps (component w) ex_next_props (store w) = (Ok this', st'))
    by reflexivity.
  assert (Hnew : rendererDataTree (state this') = Some new) by reflexivity.
  assert (Hin : In 0 (leaf_cells old)) by (simpl; lia).
  split; [exact ex_world_sync_reachable|]. split; [exact Hold|].
  split; [exact Hne|]. split; [exact Hrun|]. split; [exact Hnew|].
  split; [exact Hin|].
  exact (a_rebuild_leaves_the_previous_cells_behind
           ex_world_sync_reachable Hold Hne Hrun Hnew Hin).
Defined.
